(** * Gondolin host: VFS utilities, read-only provider, exec client, VM pool

    A shallow embedding of

      - [host/src/vfs/utils.ts]            (module [Utils])
      - [host/src/vfs/readonly-virtual.ts] (module [Readonly])
      - [host/src/exec.ts]                 (modules [Exec], [CommandLine])
      - [host/test/helpers/vm-fixture.ts]  (module [VmFixture])

    JavaScript strings are [string]s (sequences of code units; only
    ASCII characters are ever inspected), buffers are [list byte], numbers
    that the code treats as integers are [Z], a [Map] is an association
    list, or a [gmap] together with the list of its keys in insertion
    order; an object has its own properties, in the order in which the
    runtime lists them, and its prototype. *)

From Stdlib Require Import ZArith Lia Ascii String Strings.Byte.
From stdpp Require Import base tactics option list strings pretty gmap.

Local Open Scope string_scope.
Local Open Scope list_scope.
Local Open Scope Z_scope.

(* ===================================================================== *)
(** ** host/src/vfs/utils.ts *)
(* ===================================================================== *)

Module Utils.

(** The character class [[wa+]] of the regular expression in [isWriteFlag]. *)
Definition is_wa_plus (c : ascii) : bool :=
  (Ascii.eqb c "w" || Ascii.eqb c "a" || Ascii.eqb c "+")%bool.

(** [/[wa+]/.test(flags)]: some character of [flags] is in the class. *)
Fixpoint isWriteFlag (flags : string) : bool :=
  match flags with
  | EmptyString => false
  | String c rest => is_wa_plus c || isWriteFlag rest
  end.

(** *** Node's [path.posix.normalize]

    [normalizeVfsPath] calls the runtime's [path.posix.normalize].  It is
    not part of the repository; the model below follows Node's
    [lib/path.js]: the path is cut at every ['/'], empty and ["."] segments
    are dropped, a [".."] segment removes the segment before it (or is kept,
    for a relative path, when there is none to remove), and the remaining
    segments are joined by ['/']. *)

Abbreviation chars := (list ascii).

Definition slash : ascii := "/"%char.
Definition dot : ascii := "."%char.

(** Cut at every separator; the result always has at least one segment. *)
Fixpoint split_slash (s : chars) : list chars :=
  match s with
  | [] => [[]]
  | c :: s' =>
    if Ascii.eqb c slash then [] :: split_slash s'
    else match split_slash s' with
         | seg :: rest => (c :: seg) :: rest
         | [] => [[c]]
         end
  end.

Fixpoint join_slash (segs : list chars) : chars :=
  match segs with
  | [] => []
  | [seg] => seg
  | seg :: rest => seg ++ slash :: join_slash rest
  end.

Definition chars_eqb (a b : chars) : bool := bool_decide (a = b).

(** [normalizeString]: [stack] holds the segments kept so far, last one
    first. *)
Fixpoint normalizeString (allowAboveRoot : bool) (stack segs : list chars)
  : list chars :=
  match segs with
  | [] => rev stack
  | seg :: rest =>
    if chars_eqb seg [] || chars_eqb seg [dot] then
      normalizeString allowAboveRoot stack rest
    else if chars_eqb seg [dot; dot] then
      match stack with
      | top :: stack' =>
        if chars_eqb top [dot; dot] then
          normalizeString allowAboveRoot
            (if allowAboveRoot then seg :: stack else stack) rest
        else normalizeString allowAboveRoot stack' rest
      | [] =>
        normalizeString allowAboveRoot
          (if allowAboveRoot then [seg] else []) rest
      end
    else normalizeString allowAboveRoot (seg :: stack) rest
  end.

Definition startsWithSlash (s : chars) : bool :=
  match s with
  | c :: _ => Ascii.eqb c slash
  | [] => false
  end.

Definition endsWithSlash (s : chars) : bool :=
  match last s with
  | Some c => Ascii.eqb c slash
  | None => false
  end.

Definition posix_normalize (path : chars) : chars :=
  match path with
  | [] => [dot]
  | _ =>
    let isAbsolute := startsWithSlash path in
    let trailingSeparator := endsWithSlash path in
    let p :=
      join_slash (normalizeString (negb isAbsolute) [] (split_slash path)) in
    match p with
    | [] => if isAbsolute then [slash]
            else if trailingSeparator then [dot; slash] else [dot]
    | _ =>
      let p := if trailingSeparator then p ++ [slash] else p in
      if isAbsolute then slash :: p else p
    end
  end.

(** *** [normalizeVfsPath] *)

Definition normalizeVfsChars (inputPath : chars) : chars :=
  let normalized := posix_normalize inputPath in
  let normalized :=
    if negb (startsWithSlash normalized) then slash :: normalized
    else normalized in
  if (1 <? length normalized)%nat && endsWithSlash normalized
  then removelast normalized   (* slice(0, -1) *)
  else normalized.

Definition normalizeVfsPath (inputPath : string) : string :=
  string_of_list_ascii (normalizeVfsChars (list_ascii_of_string inputPath)).

(** The octal literal [0o040755]: [S_IFDIR | 0755]. *)
Definition mode_dir_0o040755 : Z := 4 * 8 ^ 4 + 7 * 8 ^ 2 + 5 * 8 + 5.

(** *** [VirtualDirent] *)

Record VirtualDirent := { name : string }.

Definition isFile (_ : VirtualDirent) : bool := false.
Definition isDirectory (_ : VirtualDirent) : bool := true.
Definition isSymbolicLink (_ : VirtualDirent) : bool := false.
Definition isBlockDevice (_ : VirtualDirent) : bool := false.
Definition isCharacterDevice (_ : VirtualDirent) : bool := false.
Definition isFIFO (_ : VirtualDirent) : bool := false.
Definition isSocket (_ : VirtualDirent) : bool := false.

(** *** [createVirtualDirStats]

    [Date.now()] is the only input; the four [Date] objects are represented
    by the millisecond value they are built from. *)

Record Stats := {
  dev : Z; mode : Z; nlink : Z; uid : Z; gid : Z; rdev : Z; blksize : Z;
  ino : Z; size : Z; blocks : Z;
  atimeMs : Z; mtimeMs : Z; ctimeMs : Z; birthtimeMs : Z;
  atime : Z; mtime : Z; ctime : Z; birthtime : Z
}.

Definition createVirtualDirStats (now : Z) : Stats :=
  {| dev := 0; mode := mode_dir_0o040755; nlink := 1; uid := 0; gid := 0;
     rdev := 0; blksize := 4096; ino := 0; size := 4096; blocks := 8;
     atimeMs := now; mtimeMs := now; ctimeMs := now; birthtimeMs := now;
     atime := now; mtime := now; ctime := now; birthtime := now |}.

(** *** [formatVirtualEntries]: the same array, or one dirent per name. *)

Inductive Entries :=
| Names (entries : list string)
| Dirents (entries : list VirtualDirent).

Definition formatVirtualEntries (entries : list string) (withTypes : bool)
  : Entries :=
  if negb withTypes then Names entries
  else Dirents (map (fun entry => {| name := entry |}) entries).

(** *** Facts about the path functions *)

Definition noslash (seg : chars) : Prop := Forall (fun c => c <> slash) seg.

(** A segment that [normalizeString] keeps as it is. *)
Definition plain (seg : chars) : Prop :=
  seg <> [] /\ seg <> [dot] /\ seg <> [dot; dot] /\ noslash seg.

Lemma split_slash_nonempty (s : chars) : split_slash s <> [].
Proof.
  destruct s as [|c s]; simpl; [discriminate|].
  destruct (Ascii.eqb c slash); [discriminate|].
  destruct (split_slash s); discriminate.
Qed.

Lemma split_slash_noslash (s : chars) : Forall noslash (split_slash s).
Proof.
  induction s as [|c s IH]; simpl.
  - repeat constructor.
  - destruct (Ascii.eqb_spec c slash) as [->|Hc].
    + constructor; [constructor | exact IH].
    + destruct (split_slash s) as [|seg rest].
      * repeat constructor; exact Hc.
      * inversion IH; subst. constructor; [constructor|]; assumption.
Qed.

Lemma split_slash_seg (seg : chars) : noslash seg -> split_slash seg = [seg].
Proof.
  induction 1 as [|c seg Hc _ IH]; simpl; [reflexivity|].
  destruct (Ascii.eqb_spec c slash); [contradiction|]. now rewrite IH.
Qed.

Lemma split_slash_app (seg t : chars) :
  noslash seg -> split_slash (seg ++ slash :: t) = seg :: split_slash t.
Proof.
  induction 1 as [|c seg Hc _ IH]; simpl.
  - reflexivity.
  - destruct (Ascii.eqb_spec c slash); [contradiction|]. now rewrite IH.
Qed.

Lemma split_join (segs : list chars) :
  segs <> [] -> Forall noslash segs -> split_slash (join_slash segs) = segs.
Proof.
  induction segs as [|seg rest IH]; intros Hne Hall; [congruence|].
  inversion Hall as [|? ? Hseg Hrest]; subst.
  destruct rest as [|seg' rest'].
  - simpl. now apply split_slash_seg.
  - change (join_slash (seg :: seg' :: rest'))
      with (seg ++ slash :: join_slash (seg' :: rest')).
    rewrite split_slash_app by assumption.
    f_equal. apply IH; [discriminate | assumption].
Qed.

Lemma chars_eqb_true (a b : chars) : chars_eqb a b = true <-> a = b.
Proof. unfold chars_eqb. apply bool_decide_eq_true. Qed.

Lemma chars_eqb_false (a b : chars) : chars_eqb a b = false <-> a <> b.
Proof. unfold chars_eqb. apply bool_decide_eq_false. Qed.

(** Plain segments go through [normalizeString] untouched. *)
Lemma normalizeString_plain (b : bool) (segs stack : list chars) :
  Forall plain segs -> normalizeString b stack segs = rev stack ++ segs.
Proof.
  intros Hall. revert stack.
  induction Hall as [|seg rest (H0 & H1 & H2 & _) _ IH]; intros stack; simpl.
  - now rewrite app_nil_r.
  - apply chars_eqb_false in H0, H1, H2. rewrite H0, H1, H2. simpl.
    rewrite IH. simpl. now rewrite <- app_assoc.
Qed.

(** What an absolute path's normalisation keeps is plain. *)
Lemma normalizeString_keeps_plain (segs stack : list chars) :
  Forall noslash segs -> Forall plain stack ->
  Forall plain (normalizeString false stack segs).
Proof.
  intros Hall. revert stack.
  induction Hall as [|seg rest Hseg _ IH]; intros stack Hst; simpl.
  - now apply List.Forall_rev.
  - destruct (chars_eqb seg []) eqn:E0; simpl; [now apply IH|].
    destruct (chars_eqb seg [dot]) eqn:E1; simpl; [now apply IH|].
    destruct (chars_eqb seg [dot; dot]) eqn:E2.
    + destruct stack as [|top stack']; [now apply IH|].
      destruct (chars_eqb top [dot; dot]); apply IH; [assumption|].
      now inversion Hst.
    + apply IH. constructor; [|assumption].
      apply chars_eqb_false in E0, E1, E2. repeat split; assumption.
Qed.

(** A segment [normalizeString] may keep, for a relative path too. *)
Definition kept (seg : chars) : Prop := seg <> [] /\ noslash seg.

Lemma plain_kept (seg : chars) : plain seg -> kept seg.
Proof. intros (H0 & _ & _ & Hn). now split. Qed.

Lemma normalizeString_keeps (b : bool) (segs stack : list chars) :
  Forall noslash segs -> Forall kept stack ->
  Forall kept (normalizeString b stack segs).
Proof.
  intros Hall. revert stack.
  induction Hall as [|seg rest Hseg _ IH]; intros stack Hst; simpl.
  - now apply List.Forall_rev.
  - destruct (chars_eqb seg []) eqn:E0; simpl; [now apply IH|].
    destruct (chars_eqb seg [dot]) eqn:E1; simpl; [now apply IH|].
    apply chars_eqb_false in E0.
    assert (Hk : kept seg) by now split.
    destruct (chars_eqb seg [dot; dot]) eqn:E2.
    + destruct stack as [|top stack'].
      * apply IH. destruct b; repeat constructor; assumption.
      * destruct (chars_eqb top [dot; dot]); apply IH.
        -- destruct b; [constructor|]; assumption.
        -- now inversion Hst.
    + apply IH. now constructor.
Qed.

Lemma startsWithSlash_app (a b : chars) :
  a <> [] -> startsWithSlash (a ++ b) = startsWithSlash a.
Proof. destruct a; [congruence | reflexivity]. Qed.

Lemma kept_start (seg : chars) : kept seg -> startsWithSlash seg = false.
Proof.
  intros [Hne Hn]. destruct seg as [|c seg]; [congruence|].
  inversion Hn; subst. simpl. now apply Ascii.eqb_neq.
Qed.

Lemma endsWithSlash_snoc (a : chars) (c : ascii) :
  endsWithSlash (a ++ [c]) = Ascii.eqb c slash.
Proof. unfold endsWithSlash. now rewrite last_snoc. Qed.

Lemma endsWithSlash_app (a b : chars) :
  b <> [] -> endsWithSlash (a ++ b) = endsWithSlash b.
Proof.
  intros Hb. destruct (exists_last Hb) as (b' & c & ->).
  now rewrite app_assoc, !endsWithSlash_snoc.
Qed.

Lemma kept_end (seg : chars) : kept seg -> endsWithSlash seg = false.
Proof.
  intros [Hne Hn]. destruct (exists_last Hne) as (b' & c & ->).
  rewrite endsWithSlash_snoc. apply Ascii.eqb_neq.
  unfold noslash in Hn. rewrite Forall_app in Hn. destruct Hn as [_ Hc].
  now inversion Hc.
Qed.

Lemma join_kept_nonempty (segs : list chars) :
  Forall kept segs -> segs <> [] -> join_slash segs <> [].
Proof.
  destruct segs as [|seg rest]; [congruence|]. intros Hall _.
  inversion Hall as [|? ? [Hne _] _]; subst.
  destruct rest; simpl; [assumption|].
  destruct seg; [congruence | discriminate].
Qed.

Lemma join_kept_start (segs : list chars) :
  Forall kept segs -> startsWithSlash (join_slash segs) = false.
Proof.
  destruct segs as [|seg rest]; [reflexivity|]. intros Hall.
  inversion Hall as [|? ? Hk _]; subst.
  destruct rest; simpl; [now apply kept_start|].
  rewrite startsWithSlash_app by apply Hk. now apply kept_start.
Qed.

Lemma join_kept_end (segs : list chars) :
  Forall kept segs -> endsWithSlash (join_slash segs) = false.
Proof.
  induction 1 as [|seg rest Hk Hrest IH]; [reflexivity|].
  destruct rest as [|seg' rest']; [now apply kept_end|].
  change (join_slash (seg :: seg' :: rest'))
    with (seg ++ (slash :: []) ++ join_slash (seg' :: rest')).
  rewrite !endsWithSlash_app; [exact IH| |].
  - apply join_kept_nonempty; [assumption | discriminate].
  - intros E. apply app_eq_nil in E. destruct E; discriminate.
Qed.

(** The one [slice(0, -1)] of [normalizeVfsPath]. *)
Definition stripTrailing (n : chars) : chars :=
  if (1 <? length n)%nat && endsWithSlash n then removelast n else n.

Lemma stripTrailing_snoc (body : chars) :
  body <> [] -> stripTrailing (body ++ [slash]) = body.
Proof.
  intros Hne. unfold stripTrailing.
  rewrite endsWithSlash_snoc, Ascii.eqb_refl, andb_true_r, length_app.
  destruct body as [|c body]; [congruence|].
  replace (1 <? length (c :: body) + length [slash])%nat with true
    by (symmetry; apply Nat.ltb_lt; simpl; lia).
  apply removelast_last.
Qed.

Lemma stripTrailing_id (n : chars) :
  endsWithSlash n = false -> stripTrailing n = n.
Proof. intros E. unfold stripTrailing. rewrite E. now rewrite andb_false_r. Qed.

(** On an absolute path the whole function is: normalise the segments and
    join them behind one slash. *)
Lemma normalizeVfsChars_absolute (s : chars) :
  normalizeVfsChars (slash :: s)
  = slash :: join_slash (normalizeString false [] (split_slash s)).
Proof.
  assert (Hk : Forall kept (normalizeString false [] (split_slash s))).
  { apply normalizeString_keeps; [apply split_slash_noslash | constructor]. }
  unfold normalizeVfsChars, posix_normalize.
  change (startsWithSlash (slash :: s)) with true. simpl negb.
  change (split_slash (slash :: s)) with ([] :: split_slash s).
  change (normalizeString false [] ([] :: split_slash s))
    with (normalizeString false [] (split_slash s)).
  set (N := normalizeString false [] (split_slash s)) in *.
  fold (stripTrailing).
  destruct (join_slash N) as [|c p] eqn:EJ.
  - reflexivity.
  - assert (Hend : endsWithSlash (c :: p) = false)
      by (rewrite <- EJ; now apply join_kept_end).
    destruct (endsWithSlash (slash :: s)).
    + change (stripTrailing ((slash :: c :: p) ++ [slash]) = slash :: c :: p).
      apply stripTrailing_snoc. discriminate.
    + change (stripTrailing (slash :: c :: p) = slash :: c :: p).
      apply stripTrailing_id.
      change (slash :: c :: p) with ([slash] ++ c :: p).
      rewrite endsWithSlash_app by discriminate. exact Hend.
Qed.

Lemma normalizeVfsChars_absolute_idem (s : chars) :
  normalizeVfsChars (normalizeVfsChars (slash :: s))
  = normalizeVfsChars (slash :: s).
Proof.
  rewrite !normalizeVfsChars_absolute.
  assert (Hp : Forall plain (normalizeString false [] (split_slash s))).
  { apply normalizeString_keeps_plain;
      [apply split_slash_noslash | constructor]. }
  set (N := normalizeString false [] (split_slash s)) in *.
  f_equal. f_equal.
  destruct N as [|seg rest] eqn:EN; [reflexivity|].
  rewrite split_join.
  - now rewrite normalizeString_plain.
  - discriminate.
  - eapply Forall_impl; [exact Hp|]. intros ? (_ & _ & _ & Hn). exact Hn.
Qed.

(** A relative path normalises to a relative path, with at most one slash
    at its end. *)
Lemma posix_normalize_relative (s : chars) :
  startsWithSlash s = false ->
  exists body, body <> [] /\ startsWithSlash body = false /\
    endsWithSlash body = false /\
    (posix_normalize s = body \/ posix_normalize s = body ++ [slash]).
Proof.
  intros Hrel. destruct s as [|c s].
  { exists [dot]. repeat split; try reflexivity; [discriminate | now left]. }
  assert (Hk : Forall kept (normalizeString true [] (split_slash (c :: s)))).
  { apply normalizeString_keeps; [apply split_slash_noslash | constructor]. }
  unfold posix_normalize. rewrite Hrel. simpl negb.
  set (N := normalizeString true [] (split_slash (c :: s))) in *.
  destruct (join_slash N) as [|d p] eqn:EJ.
  - exists [dot]. repeat split; try reflexivity; [discriminate|].
    destruct (endsWithSlash (c :: s)); [now right | now left].
  - exists (d :: p). rewrite <- EJ. repeat split.
    + rewrite EJ. discriminate.
    + now apply join_kept_start.
    + now apply join_kept_end.
    + destruct (endsWithSlash (c :: s)); [now right | now left].
Qed.

Lemma normalizeVfsChars_relative (s : chars) :
  startsWithSlash s = false ->
  exists body, normalizeVfsChars s = slash :: body /\ body <> [] /\
    startsWithSlash body = false /\ endsWithSlash body = false /\
    (posix_normalize s = body \/ posix_normalize s = body ++ [slash]).
Proof.
  intros Hrel.
  destruct (posix_normalize_relative s Hrel) as (body & Hne & Hst & Hend & Hn).
  exists body. split; [|now repeat split].
  unfold normalizeVfsChars. fold stripTrailing.
  destruct Hn as [-> | ->].
  - rewrite Hst. simpl negb. cbv iota. apply stripTrailing_id.
    change (slash :: body) with ([slash] ++ body).
    now rewrite endsWithSlash_app.
  - rewrite startsWithSlash_app, Hst by assumption. simpl negb. cbv iota.
    change (slash :: body ++ [slash]) with ((slash :: body) ++ [slash]).
    apply stripTrailing_snoc. discriminate.
Qed.

(** Leading slash, and no trailing one unless the result is the root. *)
Lemma normalizeVfsChars_shape (s : chars) :
  startsWithSlash (normalizeVfsChars s) = true /\
  (normalizeVfsChars s = [slash] \/
   endsWithSlash (normalizeVfsChars s) = false).
Proof.
  destruct (startsWithSlash s) eqn:Hs.
  - destruct s as [|c s]; [discriminate|]. simpl in Hs.
    apply Ascii.eqb_eq in Hs. subst c.
    rewrite normalizeVfsChars_absolute. split; [reflexivity|].
    assert (Hk : Forall kept (normalizeString false [] (split_slash s))).
    { apply normalizeString_keeps; [apply split_slash_noslash | constructor]. }
    destruct (join_slash _) as [|d p] eqn:EJ; [now left | right].
    change (slash :: d :: p) with ([slash] ++ d :: p).
    rewrite endsWithSlash_app by discriminate.
    rewrite <- EJ. now apply join_kept_end.
  - destruct (normalizeVfsChars_relative s Hs)
      as (body & -> & Hne & _ & Hend & _).
    split; [reflexivity | right].
    change (slash :: body) with ([slash] ++ body).
    now rewrite endsWithSlash_app.
Qed.

(** *** The same at the level of strings *)

Definition startsWith_slash (s : string) : bool :=
  startsWithSlash (list_ascii_of_string s).

Definition endsWith_slash (s : string) : bool :=
  endsWithSlash (list_ascii_of_string s).

Lemma normalizeVfsPath_chars (s : string) :
  list_ascii_of_string (normalizeVfsPath s)
  = normalizeVfsChars (list_ascii_of_string s).
Proof. apply list_ascii_of_string_of_list_ascii. Qed.

Lemma startsWith_slash_inv (s : string) :
  startsWith_slash s = true ->
  exists t, list_ascii_of_string s = slash :: t.
Proof.
  unfold startsWith_slash. destruct (list_ascii_of_string s) as [|c t]; simpl.
  - discriminate.
  - intros ->%Ascii.eqb_eq. now exists t.
Qed.

(** C4, the failure: the empty path goes to ["/."], and ["/."] goes to the
    root, so a second application changes the result. *)
Lemma normalizeVfsPath_not_idempotent :
  normalizeVfsPath "" = "/." /\
  normalizeVfsPath "/." = "/" /\
  normalizeVfsPath (normalizeVfsPath "") <> normalizeVfsPath "".
Proof. repeat split. discriminate. Qed.

(** C4, as the code has it: [normalizeVfsPath] is idempotent on every path
    that starts with a slash; the root maps to itself; a path without a
    leading slash comes back with exactly one slash in front; and every
    result starts with a slash and ends with one only when it is the root. *)
Theorem normalizeVfsPath_canonical :
  (forall s : string, startsWith_slash s = true ->
     normalizeVfsPath (normalizeVfsPath s) = normalizeVfsPath s) /\
  normalizeVfsPath "/" = "/" /\
  (forall s : string, startsWith_slash s = false ->
     exists r : string, normalizeVfsPath s = String "/" r /\
       startsWith_slash r = false) /\
  (forall s : string,
     startsWith_slash (normalizeVfsPath s) = true /\
     (normalizeVfsPath s = "/" \/ endsWith_slash (normalizeVfsPath s) = false)).
Proof.
  split; [|split; [reflexivity | split]].
  - intros s (t & Ht)%startsWith_slash_inv.
    unfold normalizeVfsPath at 1 3. f_equal.
    rewrite normalizeVfsPath_chars, Ht.
    apply normalizeVfsChars_absolute_idem.
  - intros s Hs.
    destruct (normalizeVfsChars_relative _ Hs) as (body & E & _ & Hst & _).
    exists (string_of_list_ascii body). split.
    + unfold normalizeVfsPath. now rewrite E.
    + unfold startsWith_slash. now rewrite list_ascii_of_string_of_list_ascii.
  - intros s. unfold startsWith_slash, endsWith_slash.
    rewrite normalizeVfsPath_chars.
    destruct (normalizeVfsChars_shape (list_ascii_of_string s)) as [H1 [H2|H2]].
    + split; [exact H1 | left]. unfold normalizeVfsPath. now rewrite H2.
    + split; [exact H1 | now right].
Qed.

Lemma normalizeVfsPath_canonical_witness :
  (startsWith_slash "/a//b/../c/" = true /\
   normalizeVfsPath (normalizeVfsPath "/a//b/../c/")
   = normalizeVfsPath "/a//b/../c/") /\
  (startsWith_slash "a/./b/" = false /\
   exists r : string, normalizeVfsPath "a/./b/" = String "/" r /\
     startsWith_slash r = false).
Proof.
  split.
  - split; [reflexivity|].
    apply (proj1 normalizeVfsPath_canonical "/a//b/../c/"). reflexivity.
  - split; [reflexivity|].
    apply (proj1 (proj2 (proj2 normalizeVfsPath_canonical)) "a/./b/").
    reflexivity.
Defined.

(** C10: a synthesized dirent is a directory and nothing else, whatever its
    name; the synthesized stats are those of a directory with mode
    [0o040755], size 4096, one link, owner and group 0, whatever the clock
    says; and without [withTypes] the names come back as they were given. *)
Theorem virtual_entries_are_directories :
  (forall entry : string,
     let d := {| name := entry |} in
     isDirectory d = true /\ isFile d = false /\ isSymbolicLink d = false /\
     isBlockDevice d = false /\ isCharacterDevice d = false /\
     isFIFO d = false /\ isSocket d = false) /\
  (forall now : Z,
     let st := createVirtualDirStats now in
     mode st = 16877 /\ Z.land (mode st) 61440 = 16384 /\
     Z.land (mode st) 511 = 493 /\
     size st = 4096 /\ nlink st = 1 /\ uid st = 0 /\ gid st = 0) /\
  (forall entries : list string,
     formatVirtualEntries entries false = Names entries).
Proof. repeat split. Qed.

(** *** More about the shape of a normalised path *)

(** Without a [".."] among them, the segments that stay are the ones that
    are neither empty nor ["."], in their order. *)
Definition skipped (seg : chars) : bool :=
  chars_eqb seg [] || chars_eqb seg [dot].

Lemma normalizeString_filter (b : bool) (segs stack : list chars) :
  Forall (fun seg => seg <> [dot; dot]) segs ->
  normalizeString b stack segs
  = rev stack ++ List.filter (fun seg => negb (skipped seg)) segs.
Proof.
  intros Hall. revert stack.
  induction Hall as [|seg rest Hseg _ IH]; intros stack; simpl.
  - now rewrite app_nil_r.
  - unfold skipped at 1. destruct (chars_eqb seg [] || chars_eqb seg [dot]).
    + simpl. apply IH.
    + apply chars_eqb_false in Hseg. rewrite Hseg. simpl.
      rewrite IH. simpl. now rewrite <- app_assoc.
Qed.

Lemma split_slash_snoc (s : chars) :
  split_slash (s ++ [slash]) = split_slash s ++ [[]].
Proof.
  induction s as [|c s IH]; simpl; [reflexivity|].
  destruct (Ascii.eqb c slash); [now rewrite IH|].
  rewrite IH. pose proof (split_slash_nonempty s) as Hne.
  destruct (split_slash s); [congruence | reflexivity].
Qed.

Lemma normalizeString_snoc_empty (b : bool) (segs stack : list chars) :
  normalizeString b stack (segs ++ [[]]) = normalizeString b stack segs.
Proof.
  revert stack. induction segs as [|seg rest IH]; intros stack; simpl.
  - reflexivity.
  - destruct (chars_eqb seg [] || chars_eqb seg [dot]); [apply IH|].
    destruct (chars_eqb seg [dot; dot]); [|apply IH].
    destruct stack as [|top stack']; [apply IH|].
    destruct (chars_eqb top [dot; dot]); apply IH.
Qed.

(** [path.posix.normalize] on a path that is relative and not empty. *)
Lemma posix_normalize_relative_eq (s : chars) :
  s <> [] -> startsWithSlash s = false ->
  posix_normalize s
  = match join_slash (normalizeString true [] (split_slash s)) with
    | [] => if endsWithSlash s then [dot; slash] else [dot]
    | d :: p => if endsWithSlash s then (d :: p) ++ [slash] else d :: p
    end.
Proof.
  intros Hne Hrel. destruct s as [|c s]; [congruence|].
  change (posix_normalize (c :: s))
    with (let p := join_slash
                     (normalizeString (negb (startsWithSlash (c :: s))) []
                                      (split_slash (c :: s))) in
          match p with
          | [] => if startsWithSlash (c :: s) then [slash]
                  else if endsWithSlash (c :: s) then [dot; slash] else [dot]
          | _ =>
            let p := if endsWithSlash (c :: s) then p ++ [slash] else p in
            if startsWithSlash (c :: s) then slash :: p else p
          end).
  rewrite Hrel. simpl negb. cbv zeta.
  now destruct (join_slash (normalizeString true [] (split_slash (c :: s)))).
Qed.

(** The whole function on a path that is relative and not empty: the
    segments that are kept, or ["."] when none is, behind one slash. *)
Lemma normalizeVfsChars_relative_eq (s : chars) :
  s <> [] -> startsWithSlash s = false ->
  normalizeVfsChars s
  = slash :: match join_slash (normalizeString true [] (split_slash s)) with
             | [] => [dot]
             | p => p
             end.
Proof.
  intros Hne Hrel.
  assert (Hk : Forall kept (normalizeString true [] (split_slash s))).
  { apply normalizeString_keeps; [apply split_slash_noslash | constructor]. }
  unfold normalizeVfsChars. fold stripTrailing.
  rewrite posix_normalize_relative_eq by assumption.
  destruct (join_slash (normalizeString true [] (split_slash s)))
    as [|d p] eqn:EJ.
  - destruct (endsWithSlash s); reflexivity.
  - assert (Hst : startsWithSlash (d :: p) = false)
      by (rewrite <- EJ; now apply join_kept_start).
    assert (Hend : endsWithSlash (d :: p) = false)
      by (rewrite <- EJ; now apply join_kept_end).
    destruct (endsWithSlash s).
    + rewrite startsWithSlash_app, Hst by discriminate. simpl negb. cbv iota.
      change (slash :: (d :: p) ++ [slash])
        with ((slash :: d :: p) ++ [slash]).
      apply stripTrailing_snoc. discriminate.
    + rewrite Hst. simpl negb. cbv iota. apply stripTrailing_id.
      change (slash :: d :: p) with ([slash] ++ d :: p).
      now rewrite endsWithSlash_app.
Qed.

Lemma normalizeVfsChars_snoc_slash (s : chars) :
  s <> [] -> normalizeVfsChars (s ++ [slash]) = normalizeVfsChars s.
Proof.
  intros Hne. destruct (startsWithSlash s) eqn:Hs.
  - destruct s as [|c t]; [discriminate|]. simpl in Hs.
    apply Ascii.eqb_eq in Hs. subst c.
    change ((slash :: t) ++ [slash]) with (slash :: (t ++ [slash])).
    rewrite !normalizeVfsChars_absolute.
    now rewrite split_slash_snoc, normalizeString_snoc_empty.
  - assert (Hne' : s ++ [slash] <> [])
      by (intros [-> _]%app_eq_nil; congruence).
    assert (Hs' : startsWithSlash (s ++ [slash]) = false)
      by now rewrite startsWithSlash_app.
    rewrite (normalizeVfsChars_relative_eq s Hne Hs).
    rewrite (normalizeVfsChars_relative_eq _ Hne' Hs').
    now rewrite split_slash_snoc, normalizeString_snoc_empty.
Qed.

Lemma list_ascii_of_string_app (a b : string) :
  list_ascii_of_string (a ++ b)
  = list_ascii_of_string a ++ list_ascii_of_string b.
Proof.
  induction a as [|c a IH]; [reflexivity|].
  change (String c a ++ b)%string with (String c (a ++ b)).
  simpl. now rewrite IH.
Qed.

(** X1: on a path that starts with a slash, [normalizeVfsPath] gives a
    slash followed by segments joined by single slashes, none of which is
    empty, ["."] or [".."] or has a slash in it: nothing in the result
    leads above the root.  When no segment of the input is [".."], the
    segments of the result are those of the input that are neither empty
    nor ["."], in the same order. *)
Theorem normalizeVfsPath_absolute_segments (s : string) :
  startsWith_slash s = true ->
  exists segs : list chars,
    list_ascii_of_string (normalizeVfsPath s) = slash :: join_slash segs /\
    Forall plain segs /\
    (Forall (fun seg => seg <> [dot; dot])
            (split_slash (list_ascii_of_string s)) ->
     segs = List.filter (fun seg => negb (skipped seg))
                        (split_slash (list_ascii_of_string s))).
Proof.
  intros (t & Ht)%startsWith_slash_inv.
  exists (normalizeString false [] (split_slash t)).
  rewrite normalizeVfsPath_chars, Ht. split; [|split].
  - apply normalizeVfsChars_absolute.
  - apply normalizeString_keeps_plain;
      [apply split_slash_noslash | constructor].
  - change (split_slash (slash :: t)) with ([] :: split_slash t).
    intros Hall. inversion Hall; subst.
    now rewrite normalizeString_filter.
Qed.

Lemma normalizeVfsPath_absolute_segments_witness :
  startsWith_slash "/a//./b/" = true /\
  exists segs : list chars,
    list_ascii_of_string (normalizeVfsPath "/a//./b/")
    = slash :: join_slash segs /\
    Forall plain segs /\
    (Forall (fun seg => seg <> [dot; dot])
            (split_slash (list_ascii_of_string "/a//./b/")) ->
     segs = List.filter (fun seg => negb (skipped seg))
                        (split_slash (list_ascii_of_string "/a//./b/"))).
Proof.
  split; [reflexivity|].
  exact (normalizeVfsPath_absolute_segments "/a//./b/" eq_refl).
Defined.

(** X2: a slash added at the end of a path that is not empty changes
    nothing: [normalizeVfsPath] gives the same result with and without
    it. *)
Theorem normalizeVfsPath_trailing_slash (s : string) :
  s <> "" -> normalizeVfsPath (s ++ "/") = normalizeVfsPath s.
Proof.
  intros Hne. unfold normalizeVfsPath. f_equal.
  rewrite list_ascii_of_string_app.
  apply normalizeVfsChars_snoc_slash.
  destruct s; [congruence | discriminate].
Qed.

Lemma normalizeVfsPath_trailing_slash_witness :
  "a/b" <> "" /\ normalizeVfsPath ("a/b" ++ "/") = normalizeVfsPath "a/b".
Proof.
  assert (Hne : "a/b" <> "") by discriminate.
  split; [exact Hne|].
  exact (normalizeVfsPath_trailing_slash "a/b" Hne).
Defined.

End Utils.

(* ===================================================================== *)
(** ** host/src/vfs/readonly-virtual.ts *)
(* ===================================================================== *)

Module Readonly.
Import Utils.

(** [os.constants.errno]: only [EROFS] is used by this class. *)
Inductive Errno := EROFS.

Record ErrnoError := {
  errno : Errno;
  syscall : string;
  path : string
}.

(** Modelled from the spec: [createErrnoError] is imported from [./errors],
    which is not among the sources; a VFS failure is an OS error code
    "always attached to the failing path", together with the name of the
    operation that failed. *)
Definition createErrnoError (code : Errno) (syscall path : string)
  : ErrnoError :=
  {| errno := code; syscall := syscall; path := path |}.

Section Provider.

(** What a concrete provider brings: its own state [B], the values it
    returns, the errors it may throw besides [ErrnoError], and the
    synchronous methods the class leaves abstract (or inherits from
    [VirtualProviderClass]). *)
Context {B VirtualFileHandle FsStats DirEntries Options BackendError : Type}.

Inductive Thrown :=
| ThrowErrno (e : ErrnoError)
| ThrowBackend (e : BackendError).

Abbreviation Outcome A := (A + Thrown)%type.

(** The synchronous methods a concrete provider implements. *)
Record SyncMethods := {
  openReadonlySync :
    string -> string -> option Z -> B -> Outcome VirtualFileHandle * B;
  statSync : string -> option Options -> B -> Outcome FsStats * B;
  lstatSync : string -> option Options -> B -> Outcome FsStats * B;
  readdirSync : string -> option Options -> B -> Outcome DirEntries * B;
  realpathSync : string -> option Options -> B -> Outcome string * B;
  accessSync : string -> option Z -> B -> Outcome unit * B;
  readlinkSync : string -> option Options -> B -> Outcome string * B
}.

Variable this : SyncMethods.

(** A call that reached the provider's own implementation. *)
Inductive BackendCall :=
| CallOpenReadonlySync (entryPath flags : string) (mode : option Z)
| CallStatSync (entryPath : string)
| CallLstatSync (entryPath : string)
| CallReaddirSync (entryPath : string)
| CallRealpathSync (entryPath : string)
| CallAccessSync (entryPath : string)
| CallReadlinkSync (entryPath : string).

(** The provider object: the backend's state and, as ghost state, the
    backend calls made so far. *)
Record World := {
  backend : B;
  invoked : list BackendCall
}.

(** Computations that may throw and may call the backend. *)
Definition M (A : Type) : Type := World -> Outcome A * World.

Definition throw {A} (e : Thrown) : M A := fun w => (inr e, w).

Definition invoke {A} (c : BackendCall) (f : B -> Outcome A * B) : M A :=
  fun w =>
    let '(r, b) := f (backend w) in
    (r, {| backend := b; invoked := invoked w ++ [c] |}).

(** An [async] method never throws to its caller: what its body returns
    or throws settles the promise it hands back. *)
Inductive Settled (A : Type) :=
| Fulfilled (a : A)
| Rejected (e : Thrown).
Arguments Fulfilled {A} a.
Arguments Rejected {A} e.

Definition async {A} (body : M A) : World -> Settled A * World :=
  fun w =>
    let '(r, w') := body w in
    (match r with inl a => Fulfilled a | inr e => Rejected e end, w').

Definition readonly : bool := true.
Definition supportsSymlinks : bool := false.
Definition supportsWatch : bool := false.

Definition openSync (entryPath flags : string) (mode : option Z)
  : M VirtualFileHandle :=
  if isWriteFlag flags then
    throw (ThrowErrno (createErrnoError EROFS "open" entryPath))
  else
    invoke (CallOpenReadonlySync entryPath flags mode)
           (openReadonlySync this entryPath flags mode).

Definition open (entryPath flags : string) (mode : option Z) :=
  async (openSync entryPath flags mode).

Definition stat (entryPath : string) (options : option Options) :=
  async (invoke (CallStatSync entryPath) (statSync this entryPath options)).

Definition lstat (entryPath : string) (options : option Options) :=
  async (invoke (CallLstatSync entryPath) (lstatSync this entryPath options)).

Definition readdir (entryPath : string) (options : option Options) :=
  async (invoke (CallReaddirSync entryPath)
                (readdirSync this entryPath options)).

Definition mkdirSync (entryPath : string) (_options : option Options)
  : M (option string) :=
  throw (ThrowErrno (createErrnoError EROFS "mkdir" entryPath)).

Definition mkdir (entryPath : string) (options : option Options) :=
  async (mkdirSync entryPath options).

Definition rmdirSync (entryPath : string) : M unit :=
  throw (ThrowErrno (createErrnoError EROFS "rmdir" entryPath)).

Definition rmdir (entryPath : string) := async (rmdirSync entryPath).

Definition unlinkSync (entryPath : string) : M unit :=
  throw (ThrowErrno (createErrnoError EROFS "unlink" entryPath)).

Definition unlink (entryPath : string) := async (unlinkSync entryPath).

Definition renameSync (oldPath _newPath : string) : M unit :=
  throw (ThrowErrno (createErrnoError EROFS "rename" oldPath)).

Definition rename (oldPath newPath : string) :=
  async (renameSync oldPath newPath).

Definition symlinkSync (_target entryPath : string) (_type : option string)
  : M unit :=
  throw (ThrowErrno (createErrnoError EROFS "symlink" entryPath)).

Definition symlink (target entryPath : string) (type : option string) :=
  async (symlinkSync target entryPath type).

Definition realpath (entryPath : string) (options : option Options) :=
  async (invoke (CallRealpathSync entryPath)
                (realpathSync this entryPath options)).

Definition access (entryPath : string) (mode : option Z) :=
  async (invoke (CallAccessSync entryPath) (accessSync this entryPath mode)).

Definition readlink (entryPath : string) (options : option Options) :=
  async (invoke (CallReadlinkSync entryPath)
                (readlinkSync this entryPath options)).

(** The error every rejected operation carries. *)
Definition erofs (syscall path : string) : Thrown :=
  ThrowErrno {| errno := EROFS; syscall := syscall; path := path |}.

(** [flags] has the character [c] somewhere. *)
Definition contains (c : ascii) (flags : string) : Prop :=
  In c (list_ascii_of_string flags).

Lemma isWriteFlag_true (flags : string) :
  isWriteFlag flags = true <->
  contains "w" flags \/ contains "a" flags \/ contains "+" flags.
Proof.
  unfold contains. induction flags as [|c rest IH]; simpl.
  - split; [discriminate | intros [[]|[[]|[]]]].
  - rewrite orb_true_iff, IH. unfold is_wa_plus.
    rewrite !orb_true_iff, !Ascii.eqb_eq. intuition congruence.
Qed.

Lemma isWriteFlag_false (flags : string) :
  isWriteFlag flags = false <->
  ~ contains "w" flags /\ ~ contains "a" flags /\ ~ contains "+" flags.
Proof.
  rewrite <- not_true_iff_false, isWriteFlag_true. tauto.
Qed.

(** C1: [mkdir], [rmdir], [unlink], [rename] and [symlink], called
    synchronously or not, fail with [EROFS] and leave the provider as it
    was, so no backend method has run; [open] and [openSync] do the same
    whenever the flags have a ['w'], an ['a'] or a ['+']; and with flags
    that have none of them the call is exactly one call of the backend's
    [openReadonlySync], whose result the caller gets. *)
Theorem readonly_rejects_writes (w : World) :
  (forall entryPath options,
     mkdirSync entryPath options w = (inr (erofs "mkdir" entryPath), w) /\
     mkdir entryPath options w = (Rejected (erofs "mkdir" entryPath), w)) /\
  (forall entryPath,
     rmdirSync entryPath w = (inr (erofs "rmdir" entryPath), w) /\
     rmdir entryPath w = (Rejected (erofs "rmdir" entryPath), w)) /\
  (forall entryPath,
     unlinkSync entryPath w = (inr (erofs "unlink" entryPath), w) /\
     unlink entryPath w = (Rejected (erofs "unlink" entryPath), w)) /\
  (forall oldPath newPath,
     renameSync oldPath newPath w = (inr (erofs "rename" oldPath), w) /\
     rename oldPath newPath w = (Rejected (erofs "rename" oldPath), w)) /\
  (forall target entryPath type,
     symlinkSync target entryPath type w
     = (inr (erofs "symlink" entryPath), w) /\
     symlink target entryPath type w
     = (Rejected (erofs "symlink" entryPath), w)) /\
  (forall entryPath flags mode,
     contains "w" flags \/ contains "a" flags \/ contains "+" flags ->
     openSync entryPath flags mode w = (inr (erofs "open" entryPath), w) /\
     open entryPath flags mode w = (Rejected (erofs "open" entryPath), w)) /\
  (forall entryPath flags mode,
     ~ contains "w" flags -> ~ contains "a" flags -> ~ contains "+" flags ->
     let '(r, b) := openReadonlySync this entryPath flags mode (backend w) in
     let w' := {| backend := b;
                  invoked := invoked w
                             ++ [CallOpenReadonlySync entryPath flags mode] |} in
     openSync entryPath flags mode w = (r, w') /\
     open entryPath flags mode w
     = (match r with inl h => Fulfilled h | inr e => Rejected e end, w')).
Proof.
  split; [|split; [|split; [|split; [|split; [|split]]]]];
    try (intros; split; reflexivity).
  - intros entryPath flags mode E%isWriteFlag_true.
    unfold open, async, openSync. rewrite E. split; reflexivity.
  - intros entryPath flags mode Hw Ha Hp.
    assert (E : isWriteFlag flags = false) by now apply isWriteFlag_false.
    unfold open, async, openSync, invoke. rewrite E.
    destruct (openReadonlySync this entryPath flags mode (backend w)) as [r b].
    split; reflexivity.
Qed.

(** *** Sequences of calls

    A caller of the class: any method, with any arguments.  The abstract
    synchronous methods are the provider's own and are not listed. *)
Inductive Call :=
| DoOpen (entryPath flags : string) (mode : option Z)
| DoOpenSync (entryPath flags : string) (mode : option Z)
| DoStat (entryPath : string) (options : option Options)
| DoLstat (entryPath : string) (options : option Options)
| DoReaddir (entryPath : string) (options : option Options)
| DoMkdir (entryPath : string) (options : option Options)
| DoMkdirSync (entryPath : string) (options : option Options)
| DoRmdir (entryPath : string)
| DoRmdirSync (entryPath : string)
| DoUnlink (entryPath : string)
| DoUnlinkSync (entryPath : string)
| DoRename (oldPath newPath : string)
| DoRenameSync (oldPath newPath : string)
| DoSymlink (target entryPath : string) (type : option string)
| DoSymlinkSync (target entryPath : string) (type : option string)
| DoRealpath (entryPath : string) (options : option Options)
| DoAccess (entryPath : string) (mode : option Z)
| DoReadlink (entryPath : string) (options : option Options).

(** The provider after the call, whatever the call gave its caller. *)
Definition perform (w : World) (c : Call) : World :=
  match c with
  | DoOpen entryPath flags mode => snd (open entryPath flags mode w)
  | DoOpenSync entryPath flags mode => snd (openSync entryPath flags mode w)
  | DoStat entryPath options => snd (stat entryPath options w)
  | DoLstat entryPath options => snd (lstat entryPath options w)
  | DoReaddir entryPath options => snd (readdir entryPath options w)
  | DoMkdir entryPath options => snd (mkdir entryPath options w)
  | DoMkdirSync entryPath options => snd (mkdirSync entryPath options w)
  | DoRmdir entryPath => snd (rmdir entryPath w)
  | DoRmdirSync entryPath => snd (rmdirSync entryPath w)
  | DoUnlink entryPath => snd (unlink entryPath w)
  | DoUnlinkSync entryPath => snd (unlinkSync entryPath w)
  | DoRename oldPath newPath => snd (rename oldPath newPath w)
  | DoRenameSync oldPath newPath => snd (renameSync oldPath newPath w)
  | DoSymlink target entryPath type => snd (symlink target entryPath type w)
  | DoSymlinkSync target entryPath type =>
    snd (symlinkSync target entryPath type w)
  | DoRealpath entryPath options => snd (realpath entryPath options w)
  | DoAccess entryPath mode => snd (access entryPath mode w)
  | DoReadlink entryPath options => snd (readlink entryPath options w)
  end.

(** The backend method a call is expected to reach, if any. *)
Definition reaches (c : Call) : option BackendCall :=
  match c with
  | DoOpen entryPath flags mode | DoOpenSync entryPath flags mode =>
    if isWriteFlag flags then None
    else Some (CallOpenReadonlySync entryPath flags mode)
  | DoStat entryPath _ => Some (CallStatSync entryPath)
  | DoLstat entryPath _ => Some (CallLstatSync entryPath)
  | DoReaddir entryPath _ => Some (CallReaddirSync entryPath)
  | DoRealpath entryPath _ => Some (CallRealpathSync entryPath)
  | DoAccess entryPath _ => Some (CallAccessSync entryPath)
  | DoReadlink entryPath _ => Some (CallReadlinkSync entryPath)
  | _ => None
  end.

Lemma invoke_invoked {A} (c : BackendCall) (f : B -> Outcome A * B)
    (w : World) :
  invoked (snd (invoke c f w)) = invoked w ++ [c] /\
  invoked (snd (async (invoke c f) w)) = invoked w ++ [c].
Proof. unfold async, invoke. now destruct (f (backend w)). Qed.

Lemma perform_reaches (w : World) (c : Call) :
  match reaches c with
  | Some call => invoked (perform w c) = invoked w ++ [call]
  | None => perform w c = w
  end.
Proof.
  destruct c; simpl; try reflexivity;
    try (unfold stat, lstat, readdir, realpath, access, readlink;
         apply invoke_invoked).
  - unfold open, openSync.
    destruct (isWriteFlag flags); [reflexivity | apply invoke_invoked].
  - unfold openSync.
    destruct (isWriteFlag flags); [reflexivity | apply invoke_invoked].
Qed.

(** X4: after any sequence of calls of the class's methods, the backend
    has been called once for each call that is neither one of the write
    operations nor an [open] with write flags, in the order of the calls,
    with the path of the call, and for nothing else; and the calls that
    are refused could as well not have been made: the provider ends up as
    it does without them. *)
Theorem backend_sees_only_reads (calls : list Call) (w : World) :
  invoked (fold_left perform calls w) = invoked w ++ omap reaches calls /\
  fold_left perform calls w
  = fold_left perform (List.filter (fun c => bool_decide (is_Some (reaches c)))
                                   calls) w.
Proof.
  revert w. induction calls as [|c calls IH]; intros w; simpl.
  - now rewrite app_nil_r.
  - pose proof (perform_reaches w c) as H.
    destruct (IH (perform w c)) as [IH1 IH2].
    destruct (reaches c) as [call|] eqn:E.
    + rewrite bool_decide_eq_true_2 by eauto. simpl.
      split; [|exact IH2]. rewrite IH1, H. now rewrite <- app_assoc.
    + rewrite bool_decide_eq_false_2 by (intros [? [=]]).
      rewrite H in IH1, IH2 |- *. split; assumption.
Qed.

End Provider.

Arguments Fulfilled {BackendError A} a.
Arguments Rejected {BackendError A} e.
Arguments Thrown : clear implicits.
Arguments SyncMethods : clear implicits.
Arguments World : clear implicits.

(** A provider over an in-memory table from paths to contents: a handle is
    the content found, and the other methods are not implemented. *)
Abbreviation table := (list (string * string)).

Definition memOpenReadonlySync (entryPath _flags : string) (_mode : option Z)
    (files : table) : (string + Thrown string) * table :=
  match List.find (fun kv => String.eqb (fst kv) entryPath) files with
  | Some kv => (inl (snd kv), files)
  | None => (inr (ThrowBackend "ENOENT"), files)
  end.

Definition notImplemented {A P Q : Type} (_ : P) (_ : Q) (files : table)
  : (A + Thrown string) * table :=
  (inr (ThrowBackend "ENOSYS"), files).

Definition memProvider
  : SyncMethods table string Stats (list string) unit string :=
  {| openReadonlySync := memOpenReadonlySync;
     statSync := notImplemented;
     lstatSync := notImplemented;
     readdirSync := notImplemented;
     realpathSync := notImplemented;
     accessSync := notImplemented;
     readlinkSync := notImplemented |}.

Definition memWorld : World table :=
  {| backend := [("/etc/motd", "hello")]; invoked := [] |}.

Lemma readonly_rejects_writes_witness :
  (contains "+" "r+" /\
   openSync memProvider "/etc/motd" "r+" None memWorld
   = (inr (erofs "open" "/etc/motd"), memWorld)) /\
  (~ contains "w" "r" /\ ~ contains "a" "r" /\ ~ contains "+" "r" /\
   openSync memProvider "/etc/motd" "r" None memWorld
   = (inl "hello",
      {| backend := [("/etc/motd", "hello")];
         invoked := [CallOpenReadonlySync "/etc/motd" "r" None] |})).
Proof.
  assert (Hplus : contains "+" "r+") by (right; left; reflexivity).
  assert (Hr : forall c, c <> "r"%char -> ~ contains c "r")
    by (intros c Hc [E|[]]; congruence).
  pose proof (readonly_rejects_writes memProvider memWorld)
    as (_ & _ & _ & _ & _ & Hw & Hro).
  split; [split; [exact Hplus|] | split; [|split; [|split]]];
    try (apply Hr; discriminate).
  - apply (Hw "/etc/motd" "r+" None). right. right. exact Hplus.
  - apply (Hro "/etc/motd" "r" None); apply Hr; discriminate.
Defined.

End Readonly.

(* ===================================================================== *)
(** ** host/src/exec.ts *)
(* ===================================================================== *)

Module Exec.

(** *** Buffers *)

Abbreviation Buffer := (list byte).

Definition byte_to_Z (b : byte) : Z := Z.of_N (Byte.to_N b).

(** Storing a number in a [Uint8Array] keeps its low eight bits. *)
Definition byte_of_Z (z : Z) : byte :=
  default Byte.x00 (Byte.of_N (Z.to_N (Z.land z 255))).

(** [buf.readUInt32BE(0)]; Node refuses a buffer of fewer than four bytes
    with a [RangeError]. *)
Definition readUInt32BE (buf : Buffer) : option Z :=
  match buf with
  | first :: b1 :: b2 :: last :: _ =>
    Some (byte_to_Z first * 2 ^ 24 + byte_to_Z b1 * 2 ^ 16
          + byte_to_Z b2 * 2 ^ 8 + byte_to_Z last)
  | _ => None
  end.

(** The four bytes of an unsigned 32-bit value, most significant first. *)
Definition be32 (value : Z) : Buffer :=
  [byte_of_Z (Z.shiftr value 24); byte_of_Z (Z.shiftr value 16);
   byte_of_Z (Z.shiftr value 8); byte_of_Z value].

(** [header.writeUInt32BE(value, 0)] on a fresh four-byte buffer; Node
    refuses a value outside [0, 2^32 - 1] with a [RangeError]. *)
Definition writeUInt32BE (value : Z) : option Buffer :=
  if (0 <=? value) && (value <=? 2 ^ 32 - 1) then Some (be32 value)
  else None.

Definition MAX_FRAME : Z := 4 * 1024 * 1024.

(** *** [FrameReader] *)

Record FrameReader := {
  buffer : Buffer;
  expectedLength : option Z
}.

(** [new FrameReader()] *)
Definition newFrameReader : FrameReader :=
  {| buffer := []; expectedLength := None |}.

Inductive Error :=
| FrameTooLarge (declared : Z)     (* [new Error(`Frame too large: ...`)] *)
| RangeError                       (* thrown by the buffer primitives *)
| TypeError                        (* thrown by the runtime *)
| DecodeError (message : string).  (* thrown by [cbor.decodeFirstSync] *)

(** How a call of [push] ends: it returns, it throws, or the callback did
    not come back (it threw, or it ended the process). *)
Inductive Completion (X : Type) :=
| Returned
| Threw (e : Error)
| Stopped (x : X).
Arguments Returned {X}.
Arguments Threw {X} e.
Arguments Stopped {X} x.

Section Push.

(** The callback works on a state [S] of its own and either comes back or
    stops everything with an [X]. *)
Context {S X : Type}.
Variable onFrame : Buffer -> S -> S * option X.

(** One round of the [while (true)] loop decides between leaving [push]
    and handing a frame to the callback. *)
Inductive Round :=
| Leave (r : FrameReader) (c : Completion X)
| Frame (r : FrameReader) (frame : Buffer).

Definition round (this : FrameReader) : Round :=
  let header :=
    match expectedLength this with
    | None =>
      if (length (buffer this) <? 4)%nat then inr (Leave this Returned)
      else
        match readUInt32BE (buffer this) with
        | None => inr (Leave this (Threw RangeError))
        | Some n =>
          let this := {| buffer := drop 4 (buffer this);
                         expectedLength := Some n |} in
          if n >? MAX_FRAME then inr (Leave this (Threw (FrameTooLarge n)))
          else inl (this, n)
        end
    | Some n => inl (this, n)
    end in
  match header with
  | inr leave => leave
  | inl (this, n) =>
    if Z.of_nat (length (buffer this)) <? n then Leave this Returned
    else
      let frame := take (Z.to_nat n) (buffer this) in
      Frame {| buffer := drop (Z.to_nat n) (buffer this);
               expectedLength := None |} frame
  end.

(** The loop; [fuel] bounds the number of rounds. *)
Fixpoint loop (fuel : nat) (this : FrameReader) (s : S)
  : option (FrameReader * S * Completion X) :=
  match fuel with
  | O => None
  | Datatypes.S fuel =>
    match round this with
    | Leave this c => Some (this, s, c)
    | Frame this frame =>
      match onFrame frame s with
      | (s, None) => loop fuel this s
      | (s, Some x) => Some (this, s, Stopped x)
      end
    end
  end.

(** Every round but the first takes at least the four bytes of a header
    out of the buffer, so two more rounds than there are bytes is enough:
    see [push_total]. *)
Definition push (this : FrameReader) (chunk : Buffer) (s : S)
  : option (FrameReader * S * Completion X) :=
  let this := {| buffer := buffer this ++ chunk;
                 expectedLength := expectedLength this |} in
  loop (2 + length (buffer this)) this s.

End Push.

(** The bytes of one frame on the wire, as the [connect] handler of [main]
    builds them: the length of the payload, then the payload. *)
Definition encodeFrame (payload : Buffer) : option Buffer :=
  header ← writeUInt32BE (Z.of_nat (length payload));
  Some (header ++ payload).

(** A callback that only records the frames it is given. *)
Definition record (frame : Buffer) (log : list Buffer)
  : list Buffer * option Empty_set :=
  (log ++ [frame], None).

(** What [feed] does with a list of chunks: [push] each in turn, as long
    as [push] returns. *)
Fixpoint feed (chunks : list Buffer) (this : FrameReader) (log : list Buffer)
  : option (FrameReader * list Buffer * Completion Empty_set) :=
  match chunks with
  | [] => Some (this, log, Returned)
  | chunk :: chunks =>
    match push record this chunk log with
    | Some (this, log, Returned) => feed chunks this log
    | other => other
    end
  end.

(** *** Bytes and headers *)

Lemma byte_to_Z_range (b : byte) : 0 <= byte_to_Z b < 256.
Proof.
  unfold byte_to_Z. pose proof (Byte.to_N_bounded b) as H. lia.
Qed.

Lemma byte_to_of_Z (z : Z) : byte_to_Z (byte_of_Z z) = z mod 256.
Proof.
  unfold byte_to_Z, byte_of_Z.
  change 255 with (Z.ones 8). rewrite Z.land_ones by lia.
  change (2 ^ 8) with 256.
  assert (Hr : 0 <= z mod 256 < 256) by (apply Z.mod_pos_bound; lia).
  destruct (Byte.of_N (Z.to_N (z mod 256))) as [b|] eqn:E; simpl.
  - apply Byte.to_of_N in E. rewrite E. lia.
  - apply Byte.of_N_None_iff in E. lia.
Qed.

Definition uint32 (n : Z) : Prop := 0 <= n < 2 ^ 32.

Lemma readUInt32BE_be32 (n : Z) (rest : Buffer) :
  uint32 n -> readUInt32BE (be32 n ++ rest) = Some n.
Proof.
  unfold uint32. intros Hn. unfold be32. simpl app. unfold readUInt32BE.
  rewrite !byte_to_of_Z, !Z.shiftr_div_pow2 by lia. f_equal.
  change (2 ^ 24) with 16777216. change (2 ^ 16) with 65536.
  change (2 ^ 8) with 256. change (2 ^ 32) with 4294967296 in Hn.
  Z.div_mod_to_equations. lia.
Qed.

Lemma length_be32 (n : Z) : length (be32 n) = 4%nat.
Proof. reflexivity. Qed.

Lemma be32_inj (n m : Z) (a b : Buffer) :
  uint32 n -> uint32 m -> be32 n ++ a = be32 m ++ b -> n = m /\ a = b.
Proof.
  intros Hn Hm E. split.
  - apply (f_equal readUInt32BE) in E.
    rewrite !readUInt32BE_be32 in E by assumption. congruence.
  - apply (f_equal (drop 4)) in E. exact E.
Qed.

Lemma writeUInt32BE_uint32 (n : Z) :
  uint32 n -> writeUInt32BE n = Some (be32 n).
Proof.
  unfold uint32, writeUInt32BE. intros Hn.
  replace (0 <=? n) with true by (symmetry; apply Z.leb_le; lia).
  replace (n <=? 2 ^ 32 - 1) with true by (symmetry; apply Z.leb_le; lia).
  reflexivity.
Qed.

#[global] Arguments be32 : simpl never.

(** *** The reader against the stream

    [frameBytes] is a frame on the wire; [pending] is what a reader still
    has to make sense of: the bytes it holds, behind the header it has
    already taken off them. *)

Definition frameBytes (payload : Buffer) : Buffer :=
  be32 (Z.of_nat (length payload)) ++ payload.

Definition fits (payload : Buffer) : Prop :=
  Z.of_nat (length payload) <= MAX_FRAME.

Definition pending (this : FrameReader) : Buffer :=
  match expectedLength this with
  | None => buffer this
  | Some n => be32 n ++ buffer this
  end.

(** A length the reader has accepted is an unsigned value within the
    ceiling. *)
Definition accepted (this : FrameReader) : Prop :=
  forall n, expectedLength this = Some n -> 0 <= n <= MAX_FRAME.

(** A proper prefix of a frame. *)
Definition incomplete (surplus : Buffer) : Prop :=
  exists payload tail,
    fits payload /\ tail <> [] /\ surplus ++ tail = frameBytes payload.

(** Enough rounds for [loop] on this reader. *)
Definition rounds (this : FrameReader) : nat :=
  (length (buffer this)
   + match expectedLength this with Some _ => 2 | None => 1 end)%nat.

Lemma MAX_FRAME_uint32 (n : Z) : 0 <= n <= MAX_FRAME -> uint32 n.
Proof. unfold MAX_FRAME, uint32. lia. Qed.

Lemma fits_uint32 (payload : Buffer) :
  fits payload -> uint32 (Z.of_nat (length payload)).
Proof. intros H. apply MAX_FRAME_uint32. unfold fits in H. lia. Qed.

Lemma encodeFrame_fits (payload : Buffer) :
  fits payload -> encodeFrame payload = Some (frameBytes payload).
Proof.
  intros H. unfold encodeFrame.
  now rewrite writeUInt32BE_uint32 by now apply fits_uint32.
Qed.

Lemma incomplete_nil : incomplete [].
Proof.
  exists [], (frameBytes []). repeat split; [|discriminate].
  unfold fits, MAX_FRAME. simpl. lia.
Qed.

Section Rounds.

Context {S X : Type}.
Variable onFrame : Buffer -> S -> S * option X.

Lemma round_measure (this this' : FrameReader) (frame : Buffer) :
  round (X:=X) this = Frame this' frame -> (rounds this' < rounds this)%nat.
Proof.
  destruct this as [buf [n|]]; unfold round, rounds; simpl.
  - destruct (Z.of_nat (length buf) <? n); [discriminate|].
    intros [= <- _]. simpl. rewrite length_drop. lia.
  - destruct (length buf <? 4)%nat eqn:E4; [discriminate|].
    apply Nat.ltb_ge in E4.
    destruct (readUInt32BE buf) as [n|]; [|discriminate].
    destruct (n >? MAX_FRAME); [discriminate|]. simpl.
    destruct (Z.of_nat (length (drop 4 buf)) <? n); [discriminate|].
    intros [= <- _]. simpl. rewrite !length_drop. lia.
Qed.

(** The loop never runs out of rounds when it is given [rounds this]. *)
Lemma loop_total (fuel : nat) (this : FrameReader) (s : S) :
  (rounds this <= fuel)%nat -> is_Some (loop onFrame fuel this s).
Proof.
  revert this s. induction fuel as [|fuel IH]; intros this s Hf.
  - unfold rounds in Hf. destruct (expectedLength this); lia.
  - simpl. destruct (round this) as [r c | r frame] eqn:ER; [eauto|].
    destruct (onFrame frame s) as [s' [x|]]; [eauto|].
    apply IH. apply round_measure in ER. lia.
Qed.

(** A whole frame is pending: the round hands it over. *)
Lemma round_ready (this : FrameReader) (payload rest : Buffer) :
  accepted this -> fits payload ->
  pending this = frameBytes payload ++ rest ->
  round (X:=X) this
  = Frame {| buffer := rest; expectedLength := None |} payload.
Proof.
  intros Hacc Hfit Hp.
  assert (Hlen : uint32 (Z.of_nat (length payload))) by now apply fits_uint32.
  assert (Htake : forall buf, buf = payload ++ rest ->
    (Z.of_nat (length buf) <? Z.of_nat (length payload)) = false /\
    take (Z.to_nat (Z.of_nat (length payload))) buf = payload /\
    drop (Z.to_nat (Z.of_nat (length payload))) buf = rest).
  { intros buf ->. rewrite Nat2Z.id, take_app_length, drop_app_length.
    split; [|now split]. apply Z.ltb_ge. rewrite length_app. lia. }
  unfold frameBytes in Hp. rewrite <- app_assoc in Hp.
  destruct this as [buf [n|]]; unfold pending in Hp;
    cbn [expectedLength buffer] in Hp.
  - apply be32_inj in Hp as [-> Hbuf]; [|apply MAX_FRAME_uint32, Hacc|];
      try easy.
    destruct (Htake buf Hbuf) as (E1 & E2 & E3).
    unfold round. simpl. now rewrite E1, E2, E3.
  - subst buf. unfold round. cbn [expectedLength buffer].
    replace (length _ <? 4)%nat with false
      by (symmetry; apply Nat.ltb_ge; rewrite length_app, length_be32; lia).
    rewrite readUInt32BE_be32 by assumption.
    replace (Z.of_nat (length payload) >? MAX_FRAME) with false
      by (symmetry; unfold fits in Hfit; lia).
    change (drop 4 (be32 (Z.of_nat (length payload)) ++ payload ++ rest))
      with (payload ++ rest).
    destruct (Htake (payload ++ rest) eq_refl) as (E1 & E2 & E3).
    simpl. now rewrite E1, E2, E3.
Qed.

(** Only part of a frame is pending: the round returns and the reader
    keeps that part. *)
Lemma round_wait (this : FrameReader) :
  accepted this -> incomplete (pending this) ->
  exists this', round (X:=X) this = Leave this' Returned /\
    pending this' = pending this /\ accepted this'.
Proof.
  intros Hacc (payload & tail & Hfit & Htail & Hp).
  assert (Hlen : uint32 (Z.of_nat (length payload))) by now apply fits_uint32.
  unfold frameBytes in Hp.
  destruct this as [buf [n|]]; unfold pending in *;
    cbn [expectedLength buffer] in *.
  - rewrite <- app_assoc in Hp.
    apply be32_inj in Hp as [-> Hbuf]; [|apply MAX_FRAME_uint32, Hacc|];
      try easy.
    exists {| buffer := buf;
              expectedLength := Some (Z.of_nat (length payload)) |}.
    split; [|split; [reflexivity | exact Hacc]].
    unfold round. simpl.
    replace (Z.of_nat (length buf) <? Z.of_nat (length payload)) with true;
      [reflexivity|].
    symmetry. apply Z.ltb_lt. rewrite <- Hbuf, length_app.
    destruct tail; [congruence | simpl; lia].
  - destruct (length buf <? 4)%nat eqn:E4.
    + exists {| buffer := buf; expectedLength := None |}.
      split; [|split; [reflexivity | exact Hacc]].
      unfold round. simpl. now rewrite E4.
    + apply Nat.ltb_ge in E4.
      rewrite <- (take_drop 4 buf), <- app_assoc in Hp.
      apply app_inj_1 in Hp as [Hhd Htl];
        [|rewrite length_take, length_be32; lia].
      exists {| buffer := drop 4 buf;
                expectedLength := Some (Z.of_nat (length payload)) |}.
      split; [|split].
      * unfold round. simpl.
        replace (length buf <? 4)%nat with false
          by (symmetry; apply Nat.ltb_ge; lia).
        rewrite <- (take_drop 4 buf) at 1. rewrite Hhd.
        rewrite readUInt32BE_be32 by assumption.
        replace (Z.of_nat (length payload) >? MAX_FRAME) with false
          by (symmetry; unfold fits in Hfit; lia).
        simpl.
        replace (Z.of_nat (length (drop 4 buf)) <? Z.of_nat (length payload))
          with true; [reflexivity|].
        symmetry. apply Z.ltb_lt. rewrite <- Htl, length_app.
        destruct tail; [congruence | simpl; lia].
      * cbn [expectedLength buffer]. rewrite <- Hhd. apply take_drop.
      * intros n [= <-]. unfold fits in Hfit. lia.
Qed.

(** A header above the ceiling is pending: the round throws, whatever
    follows the header. *)
Lemma round_reject (this : FrameReader) (n : Z) (rest : Buffer) :
  accepted this -> uint32 n -> MAX_FRAME < n ->
  pending this = be32 n ++ rest ->
  round (X:=X) this
  = Leave {| buffer := rest; expectedLength := Some n |}
          (Threw (FrameTooLarge n)).
Proof.
  intros Hacc Hn Hbig Hp.
  destruct this as [buf [m|]]; unfold pending in Hp;
    cbn [expectedLength buffer] in Hp.
  - pose proof (Hacc m eq_refl) as Hm.
    apply be32_inj in Hp as [-> _]; [lia | now apply MAX_FRAME_uint32 | easy].
  - subst buf. unfold round. cbn [expectedLength buffer].
    replace (length _ <? 4)%nat with false
      by (symmetry; apply Nat.ltb_ge; rewrite length_app, length_be32; lia).
    rewrite readUInt32BE_be32 by assumption.
    replace (n >? MAX_FRAME) with true by (symmetry; lia).
    reflexivity.
Qed.

(** What the callback makes of a list of frames, stopping at the first
    one it does not come back from. *)
Fixpoint deliver (frames : list Buffer) (s : S) : S * option X :=
  match frames with
  | [] => (s, None)
  | frame :: frames =>
    match onFrame frame s with
    | (s, None) => deliver frames s
    | (s, Some x) => (s, Some x)
    end
  end.

(** Whole frames at the front of what is pending are handed over in
    order, one round each. *)
Lemma loop_deliver (ps : list Buffer) :
  forall (fuel : nat) (this : FrameReader) (s : S) (rest : Buffer),
  accepted this -> Forall fits ps ->
  pending this = flat_map frameBytes ps ++ rest ->
  (rounds this <= fuel)%nat ->
  match deliver ps s with
  | (s', Some x) =>
    exists this', loop onFrame fuel this s = Some (this', s', Stopped x)
  | (s', None) =>
    exists fuel' this',
      loop onFrame fuel this s = loop onFrame fuel' this' s' /\
      accepted this' /\ pending this' = rest /\ (rounds this' <= fuel')%nat
  end.
Proof.
  induction ps as [|p ps IH]; intros fuel this s rest Hacc Hfits Hp Hfuel.
  - simpl. now exists fuel, this.
  - inversion Hfits as [|? ? Hfit Hfits']; subst.
    simpl in Hp. rewrite <- app_assoc in Hp.
    pose proof (round_ready this p _ Hacc Hfit Hp) as ER.
    pose proof (round_measure _ _ _ ER) as Hm.
    destruct fuel as [|fuel]; [lia|].
    simpl. rewrite ER.
    destruct (onFrame p s) as [s1 [x|]]; [eauto|].
    apply IH; [intros n [=] | assumption | reflexivity | lia].
Qed.

Lemma push_frames (this : FrameReader) (chunk : Buffer) (s : S)
    (ps : list Buffer) (surplus : Buffer) :
  accepted this -> Forall fits ps -> incomplete surplus ->
  pending this ++ chunk = flat_map frameBytes ps ++ surplus ->
  match deliver ps s with
  | (s', Some x) =>
    exists this', push onFrame this chunk s = Some (this', s', Stopped x)
  | (s', None) =>
    exists this',
      push onFrame this chunk s = Some (this', s', Returned) /\
      accepted this' /\ pending this' = surplus
  end.
Proof.
  intros Hacc Hfits Hinc Hp. unfold push.
  set (this0 := {| buffer := buffer this ++ chunk;
                   expectedLength := expectedLength this |}).
  assert (Hacc0 : accepted this0) by exact Hacc.
  assert (Hp0 : pending this0 = flat_map frameBytes ps ++ surplus).
  { rewrite <- Hp. unfold pending, this0. cbn [expectedLength buffer].
    destruct (expectedLength this); [apply app_assoc | reflexivity]. }
  assert (Hfuel : (rounds this0 <= 2 + length (buffer this0))%nat).
  { unfold rounds. destruct (expectedLength this0); lia. }
  pose proof (loop_deliver ps _ this0 s surplus Hacc0 Hfits Hp0 Hfuel) as H.
  destruct (deliver ps s) as [s' [x|]]; [exact H|].
  destruct H as (fuel' & this' & -> & Hacc' & Hp' & Hfuel').
  rewrite <- Hp' in Hinc.
  destruct (round_wait this' Hacc' Hinc) as (this'' & ER & Hp'' & Hacc'').
  exists this''. split; [|split; [assumption | congruence]].
  destruct fuel' as [|fuel']; [unfold rounds in Hfuel';
    destruct (expectedLength this'); lia|].
  simpl. now rewrite ER.
Qed.

Lemma push_reject (this : FrameReader) (chunk : Buffer) (s : S)
    (ps : list Buffer) (n : Z) (rest : Buffer) :
  accepted this -> Forall fits ps -> uint32 n -> MAX_FRAME < n ->
  pending this ++ chunk = flat_map frameBytes ps ++ be32 n ++ rest ->
  match deliver ps s with
  | (s', Some x) =>
    exists this', push onFrame this chunk s = Some (this', s', Stopped x)
  | (s', None) =>
    push onFrame this chunk s
    = Some ({| buffer := rest; expectedLength := Some n |}, s',
            Threw (FrameTooLarge n))
  end.
Proof.
  intros Hacc Hfits Hn Hbig Hp. unfold push.
  set (this0 := {| buffer := buffer this ++ chunk;
                   expectedLength := expectedLength this |}).
  assert (Hacc0 : accepted this0) by exact Hacc.
  assert (Hp0 : pending this0 = flat_map frameBytes ps ++ be32 n ++ rest).
  { rewrite <- Hp. unfold pending, this0. cbn [expectedLength buffer].
    destruct (expectedLength this); [apply app_assoc | reflexivity]. }
  assert (Hfuel : (rounds this0 <= 2 + length (buffer this0))%nat).
  { unfold rounds. destruct (expectedLength this0); lia. }
  pose proof (loop_deliver ps _ this0 s _ Hacc0 Hfits Hp0 Hfuel) as H.
  destruct (deliver ps s) as [s' [x|]]; [exact H|].
  destruct H as (fuel' & this' & -> & Hacc' & Hp' & Hfuel').
  pose proof (round_reject this' n rest Hacc' Hn Hbig Hp') as ER.
  destruct fuel' as [|fuel']; [unfold rounds in Hfuel';
    destruct (expectedLength this'); lia|].
  simpl. now rewrite ER.
Qed.

Lemma deliver_app (ps qs : list Buffer) (s : S) :
  deliver (ps ++ qs) s
  = match deliver ps s with
    | (s', None) => deliver qs s'
    | stop => stop
    end.
Proof.
  revert s. induction ps as [|p ps IH]; intros s; simpl; [reflexivity|].
  destruct (onFrame p s) as [s' [x|]]; [reflexivity | apply IH].
Qed.

(** The callback does not come back from one of the frames: [push] ends
    there, whatever follows that frame. *)
Lemma push_stops (this : FrameReader) (chunk : Buffer) (s s' : S)
    (ps : list Buffer) (rest : Buffer) (x : X) :
  accepted this -> Forall fits ps ->
  pending this ++ chunk = flat_map frameBytes ps ++ rest ->
  deliver ps s = (s', Some x) ->
  exists this', push onFrame this chunk s = Some (this', s', Stopped x).
Proof.
  intros Hacc Hfits Hp Hd. unfold push.
  set (this0 := {| buffer := buffer this ++ chunk;
                   expectedLength := expectedLength this |}).
  assert (Hacc0 : accepted this0) by exact Hacc.
  assert (Hp0 : pending this0 = flat_map frameBytes ps ++ rest).
  { rewrite <- Hp. unfold pending, this0. cbn [expectedLength buffer].
    destruct (expectedLength this); [apply app_assoc | reflexivity]. }
  assert (Hfuel : (rounds this0 <= 2 + length (buffer this0))%nat).
  { unfold rounds. destruct (expectedLength this0); lia. }
  pose proof (loop_deliver ps _ this0 s rest Hacc0 Hfits Hp0 Hfuel) as H.
  now rewrite Hd in H.
Qed.

(** [push] always comes to an end. *)
Lemma push_total (this : FrameReader) (chunk : Buffer) (s : S) :
  is_Some (push onFrame this chunk s).
Proof.
  unfold push. apply loop_total. unfold rounds. simpl.
  destruct (expectedLength this); lia.
Qed.

End Rounds.

(** *** Chunks *)

Lemma deliver_record (ps log : list Buffer) :
  deliver record ps log = (log ++ ps, None).
Proof.
  revert log. induction ps as [|p ps IH]; intros log; simpl.
  - now rewrite app_nil_r.
  - rewrite IH. now rewrite <- app_assoc.
Qed.

Lemma incomplete_prefix (w tail : Buffer) :
  incomplete (w ++ tail) -> incomplete w.
Proof.
  intros (p & tail' & Hfit & Hne & E). exists p, (tail ++ tail').
  repeat split; [assumption | | now rewrite app_assoc].
  intros [_ ->]%app_eq_nil. congruence.
Qed.

(** A reader that holds only part of a frame holds no whole frame. *)
Lemma incomplete_no_frame (p rest : Buffer) :
  fits p -> incomplete (frameBytes p ++ rest) -> False.
Proof.
  intros Hfit (q & tail & Hq & Hne & E).
  unfold frameBytes in E. rewrite <- !app_assoc in E.
  apply be32_inj in E as [Hlen E]; [|now apply fits_uint32..].
  apply (f_equal (@length byte)) in E. rewrite !length_app in E.
  destruct tail; [congruence | simpl in E; lia].
Qed.

Lemma frames_cons (p : Buffer) (ps : list Buffer) :
  flat_map frameBytes (p :: ps) = frameBytes p ++ flat_map frameBytes ps.
Proof. reflexivity. Qed.

(** Cutting a stream anywhere leaves whole frames and part of one before
    the cut. *)
Lemma split_stream (ps : list Buffer) :
  forall (surplus w tail : Buffer),
  Forall fits ps -> incomplete surplus ->
  w ++ tail = flat_map frameBytes ps ++ surplus ->
  exists ps1 ps2 s1,
    ps = ps1 ++ ps2 /\ incomplete s1 /\
    w = flat_map frameBytes ps1 ++ s1 /\
    s1 ++ tail = flat_map frameBytes ps2 ++ surplus.
Proof.
  induction ps as [|p ps IH]; intros surplus w tail Hfits Hinc E.
  - simpl in E. exists [], [], w. repeat split; [|assumption].
    rewrite <- E in Hinc. now apply incomplete_prefix in Hinc.
  - inversion Hfits as [|? ? Hfit Hfits']; subst.
    rewrite frames_cons, <- app_assoc in E.
    apply app_eq_app in E as [z [[Hw Hz] | [Hf Hz]]].
    + symmetry in Hz.
      destruct (IH surplus z tail Hfits' Hinc Hz)
        as (ps1 & ps2 & s1 & -> & Hs1 & -> & Hrest).
      exists (p :: ps1), ps2, s1. repeat split; try assumption.
      rewrite Hw, frames_cons. now rewrite <- app_assoc.
    + destruct z as [|b z].
      * rewrite app_nil_r in Hf. simpl in Hz. subst w.
        exists [p], ps, []. repeat split; [apply incomplete_nil | | exact Hz].
        simpl. now rewrite !app_nil_r.
      * exists [], (p :: ps), w. repeat split.
        -- exists p, (b :: z). repeat split; [assumption | discriminate |].
           now symmetry.
        -- rewrite frames_cons, <- app_assoc, Hf, <- app_assoc.
           now rewrite Hz.
Qed.

Lemma feed_frames (chunks : list Buffer) :
  forall (this : FrameReader) (log ps : list Buffer) (surplus : Buffer),
  accepted this -> incomplete (pending this) ->
  Forall fits ps -> incomplete surplus ->
  pending this ++ concat chunks = flat_map frameBytes ps ++ surplus ->
  exists this',
    feed chunks this log = Some (this', log ++ ps, Returned) /\
    accepted this' /\ pending this' = surplus.
Proof.
  induction chunks as [|chunk chunks IH];
    intros this log ps surplus Hacc Hidle Hfits Hinc E.
  - simpl in E. rewrite app_nil_r in E. exists this.
    destruct ps as [|p ps].
    + rewrite app_nil_r. split; [reflexivity | split; [exact Hacc | exact E]].
    + exfalso. inversion Hfits; subst.
      rewrite E, frames_cons, <- app_assoc in Hidle.
      eapply incomplete_no_frame; eassumption.
  - simpl in E. rewrite app_assoc in E.
    destruct (split_stream ps surplus _ _ Hfits Hinc E)
      as (ps1 & ps2 & s1 & -> & Hs1 & Hw & Hrest).
    apply Forall_app in Hfits as [Hfits1 Hfits2].
    pose proof (push_frames record this chunk log ps1 s1 Hacc Hfits1 Hs1 Hw)
      as H.
    rewrite deliver_record in H. destruct H as (this1 & EP & Hacc1 & Hp1).
    simpl. rewrite EP.
    rewrite <- Hp1 in Hrest, Hs1.
    destruct (IH this1 (log ++ ps1) ps2 surplus Hacc1 Hs1 Hfits2 Hinc Hrest)
      as (this' & EF & Hacc' & Hp').
    exists this'. rewrite app_assoc. split; [exact EF | split; assumption].
Qed.

Lemma pending_nil (this : FrameReader) :
  pending this = [] -> this = newFrameReader.
Proof.
  destruct this as [buf [n|]]; unfold pending; cbn [expectedLength buffer].
  - intros E. apply (f_equal (@length byte)) in E.
    rewrite length_app, length_be32 in E. discriminate.
  - now intros ->.
Qed.

Lemma accepted_new : accepted newFrameReader.
Proof. intros n [=]. Qed.

(** One byte per chunk. *)
Definition bytewise (bytes : Buffer) : list Buffer :=
  map (fun b => [b]) bytes.

Lemma concat_bytewise (bytes : Buffer) : concat (bytewise bytes) = bytes.
Proof. induction bytes as [|b bytes IH]; simpl; congruence. Qed.

(** C2: however the bytes of a stream of frames are cut into chunks, the
    callback is called once per frame, in order, with the frame's payload,
    and what follows the last whole frame stays with the reader for the
    next one; in particular a frame fed one byte at a time gives one
    callback with its payload, and two frames in one chunk give two
    callbacks.  [frameBytes] is what [encodeFrame] builds. *)
Theorem frames_survive_chunking :
  (forall p : Buffer, fits p -> encodeFrame p = Some (frameBytes p)) /\
  (forall (ps chunks : list Buffer) (surplus : Buffer),
     Forall fits ps -> incomplete surplus ->
     concat chunks = flat_map frameBytes ps ++ surplus ->
     exists this',
       feed chunks newFrameReader [] = Some (this', ps, Returned) /\
       pending this' = surplus) /\
  (forall p : Buffer, fits p ->
     feed (bytewise (frameBytes p)) newFrameReader []
     = Some (newFrameReader, [p], Returned)) /\
  (forall (p1 p2 surplus : Buffer),
     fits p1 -> fits p2 -> incomplete surplus ->
     exists this',
       push record newFrameReader
            (frameBytes p1 ++ frameBytes p2 ++ surplus) []
       = Some (this', [p1; p2], Returned) /\
       pending this' = surplus).
Proof.
  assert (Hidle : incomplete (pending newFrameReader)) by apply incomplete_nil.
  split; [exact encodeFrame_fits | split; [|split]].
  - intros ps chunks surplus Hfits Hinc E.
    destruct (feed_frames chunks newFrameReader [] ps surplus)
      as (this' & EF & _ & Hp); try assumption; [apply accepted_new|].
    now exists this'.
  - intros p Hfit.
    destruct (feed_frames (bytewise (frameBytes p)) newFrameReader [] [p] [])
      as (this' & EF & _ & Hp); try assumption.
    + apply accepted_new.
    + now repeat constructor.
    + rewrite concat_bytewise, frames_cons. simpl. now rewrite !app_nil_r.
    + apply pending_nil in Hp. now subst this'.
  - intros p1 p2 surplus Hfit1 Hfit2 Hinc.
    pose proof (push_frames record newFrameReader
      (frameBytes p1 ++ frameBytes p2 ++ surplus) [] [p1; p2] surplus
      accepted_new) as H.
    rewrite deliver_record in H.
    destruct H as (this' & EP & _ & Hp); try assumption.
    + now repeat constructor.
    + rewrite !frames_cons, <- !app_assoc. reflexivity.
    + now exists this'.
Qed.

Lemma frames_survive_chunking_witness :
  fits [x68; x69] /\
  feed (bytewise (frameBytes [x68; x69])) newFrameReader []
  = Some (newFrameReader, [[x68; x69]], Returned).
Proof.
  assert (Hfit : fits [x68; x69]) by (unfold fits, MAX_FRAME; simpl; lia).
  split; [exact Hfit|].
  exact (proj1 (proj2 (proj2 frames_survive_chunking)) [x68; x69] Hfit).
Defined.

(** C3: the ceiling is 4 MiB, 4194304 bytes.  As soon as the four bytes of
    a length above 4194304 are pending, [push] throws, whatever follows
    them and however little of it has arrived; the callback has then been
    called for the whole frames before that header and for nothing else.
    A length of exactly 4194304 is not refused: its header is taken and
    the reader waits, and the frame is handed over when all of it is
    there. *)
Theorem oversized_frame_rejected :
  MAX_FRAME = 4194304 /\
  (forall (this : FrameReader) (chunk : Buffer) (log ps : list Buffer)
          (n : Z) (rest : Buffer),
     accepted this -> Forall fits ps -> uint32 n -> 4194304 < n ->
     pending this ++ chunk = flat_map frameBytes ps ++ be32 n ++ rest ->
     push record this chunk log
     = Some ({| buffer := rest; expectedLength := Some n |}, log ++ ps,
             Threw (FrameTooLarge n))) /\
  push record newFrameReader (be32 4194304) []
  = Some ({| buffer := []; expectedLength := Some 4194304 |}, [],
          Returned) /\
  (forall p : Buffer, Z.of_nat (length p) = 4194304 ->
     push record newFrameReader (frameBytes p) []
     = Some (newFrameReader, [p], Returned)).
Proof.
  split; [reflexivity | split; [|split]].
  - intros this chunk log ps n rest Hacc Hfits Hn Hbig E.
    pose proof (push_reject record this chunk log ps n rest
                  Hacc Hfits Hn Hbig E) as H.
    now rewrite deliver_record in H.
  - reflexivity.
  - intros p Hlen.
    assert (Hfit : fits p) by (unfold fits, MAX_FRAME; lia).
    pose proof (push_frames record newFrameReader (frameBytes p) [] [p] []
      accepted_new) as H.
    rewrite deliver_record in H.
    destruct H as (this' & EP & _ & Hp).
    + now repeat constructor.
    + apply incomplete_nil.
    + simpl. now rewrite !app_nil_r.
    + apply pending_nil in Hp. now subst this'.
Qed.

Lemma oversized_frame_rejected_witness :
  (accepted newFrameReader /\ uint32 4194305 /\ 4194304 < 4194305 /\
   push record newFrameReader [x00; x40; x00; x01; x68] []
   = Some ({| buffer := [x68]; expectedLength := Some 4194305 |}, [],
           Threw (FrameTooLarge 4194305))) /\
  (Z.of_nat (length (repeat x00 (Z.to_nat 4194304))) = 4194304 /\
   push record newFrameReader (frameBytes (repeat x00 (Z.to_nat 4194304))) []
   = Some (newFrameReader, [repeat x00 (Z.to_nat 4194304)], Returned)).
Proof.
  assert (Hn : uint32 4194305) by (unfold uint32; lia).
  assert (Hbig : 4194304 < 4194305) by lia.
  assert (Hlen : Z.of_nat (length (repeat x00 (Z.to_nat 4194304))) = 4194304).
  { rewrite repeat_length. apply Z2Nat.id. lia. }
  split.
  - split; [apply accepted_new | split; [exact Hn | split; [exact Hbig|]]].
    exact (proj1 (proj2 oversized_frame_rejected) newFrameReader
             [x00; x40; x00; x01; x68] [] [] 4194305 [x68]
             accepted_new (List.Forall_nil _) Hn Hbig eq_refl).
  - split; [exact Hlen|].
    exact (proj2 (proj2 (proj2 oversized_frame_rejected)) _ Hlen).
Defined.

(** *** Decoded values and [normalize]

    What [cbor.decodeFirstSync] may hand back and what [normalize] makes
    of it, as far as [normalize] and [main] tell values apart.  A [Buffer]
    is a [Uint8Array] for which [Buffer.isBuffer] holds.  A [Map] keeps
    its entries in insertion order and takes any value as a key.  An
    object has own properties with string keys, listed here in the order
    in which the runtime enumerates them, and a prototype: [VObject] is
    an object whose prototype is [Object.prototype], which is what the
    literal [{}] makes; [VInherits] is an object whose prototype has been
    replaced, by [null] ([None]) or by another object. *)

#[local] Unset Elimination Schemes.

Inductive value :=
| VUndefined
| VNull
| VBoolean (b : bool)
| VNumber (n : Z)
| VString (s : string)
| VUint8Array (isBuffer : bool) (bytes : Buffer)
| VArray (items : list value)
| VMap (entries : list (value * value))
| VObject (props : list (string * value))
| VInherits (proto : option value) (props : list (string * value)).

#[local] Set Elimination Schemes.

(** Induction that reaches the values inside arrays, maps and objects,
    and the prototype of an object. *)
Section ValueInd.

Variable P : value -> Prop.
Hypothesis HUndefined : P VUndefined.
Hypothesis HNull : P VNull.
Hypothesis HBoolean : forall b, P (VBoolean b).
Hypothesis HNumber : forall n, P (VNumber n).
Hypothesis HString : forall s, P (VString s).
Hypothesis HUint8Array : forall isBuffer bytes, P (VUint8Array isBuffer bytes).
Hypothesis HArray : forall items, Forall P items -> P (VArray items).
Hypothesis HMap :
  forall entries, Forall (fun kv => P (snd kv)) entries -> P (VMap entries).
Hypothesis HObject :
  forall props, Forall (fun kv => P (snd kv)) props -> P (VObject props).
Hypothesis HInherits :
  forall proto props,
    match proto with Some p => P p | None => True end ->
    Forall (fun kv => P (snd kv)) props -> P (VInherits proto props).

Fixpoint value_ind (v : value) : P v :=
  match v with
  | VUndefined => HUndefined
  | VNull => HNull
  | VBoolean b => HBoolean b
  | VNumber n => HNumber n
  | VString s => HString s
  | VUint8Array isBuffer bytes => HUint8Array isBuffer bytes
  | VArray items =>
    HArray items
      ((fix all (l : list value) : Forall P l :=
          match l with
          | [] => @List.Forall_nil _ _
          | x :: l => @List.Forall_cons _ P x l (value_ind x) (all l)
          end) items)
  | VMap entries =>
    HMap entries
      ((fix all (l : list (value * value)) : Forall (fun kv => P (snd kv)) l :=
          match l with
          | [] => @List.Forall_nil _ _
          | (k, x) :: l =>
            @List.Forall_cons _ (fun kv => P (snd kv)) (k, x) l
              (value_ind x) (all l)
          end) entries)
  | VObject props =>
    HObject props
      ((fix all (l : list (string * value)) : Forall (fun kv => P (snd kv)) l :=
          match l with
          | [] => @List.Forall_nil _ _
          | (k, x) :: l =>
            @List.Forall_cons _ (fun kv => P (snd kv)) (k, x) l
              (value_ind x) (all l)
          end) props)
  | VInherits proto props =>
    HInherits proto props
      (match proto return match proto with Some p => P p | None => True end
       with
       | Some p => value_ind p
       | None => I
       end)
      ((fix all (l : list (string * value)) : Forall (fun kv => P (snd kv)) l :=
          match l with
          | [] => @List.Forall_nil _ _
          | (k, x) :: l =>
            @List.Forall_cons _ (fun kv => P (snd kv)) (k, x) l
              (value_ind x) (all l)
          end) props)
  end.

End ValueInd.

(** [typeof v === "object"] and [v !== null]: what can be a prototype. *)
Definition isObject (v : value) : bool :=
  match v with
  | VUint8Array _ _ | VArray _ | VMap _ | VObject _ | VInherits _ _ => true
  | _ => false
  end.

(** [v instanceof Map], [v instanceof Uint8Array], [Buffer.isBuffer(v)]
    (which is [v instanceof Buffer]): the object is one, or has one among
    its prototypes. *)
Fixpoint isMap (v : value) : bool :=
  match v with
  | VMap _ => true
  | VInherits (Some proto) _ => isMap proto
  | _ => false
  end.

Fixpoint isUint8Array (v : value) : bool :=
  match v with
  | VUint8Array _ _ => true
  | VInherits (Some proto) _ => isUint8Array proto
  | _ => false
  end.

Fixpoint isBuffer (v : value) : bool :=
  match v with
  | VUint8Array isBuffer _ => isBuffer
  | VInherits (Some proto) _ => isBuffer proto
  | _ => false
  end.

(** *** Own properties and their order

    The runtime lists the own properties of an object with the array
    indices first, in ascending order, and the other names after them in
    the order in which they were created.  An array index is the decimal
    numeral, without leading zeros, of an integer from 0 to 2^32 - 2. *)
Definition digit (c : ascii) : option N :=
  let n := N_of_ascii c in
  if ((48 <=? n) && (n <=? 57))%N then Some (n - 48)%N else None.

Fixpoint numeral (s : string) (acc : N) : option N :=
  match s with
  | EmptyString => Some acc
  | String c s =>
    match digit c with
    | Some d => numeral s (10 * acc + d)%N
    | None => None
    end
  end.

Definition arrayIndex (s : string) : option N :=
  match s with
  | EmptyString => None
  | String c rest =>
    if Ascii.eqb c "0" then
      match rest with EmptyString => Some 0%N | _ => None end
    else
      match numeral s 0 with
      | Some n => if (n <? 4294967295)%N then Some n else None
      | None => None
      end
  end.

(** A new property [key] is listed before the existing property [k]. *)
Definition listedBefore (key k : string) : bool :=
  match arrayIndex key, arrayIndex k with
  | Some i, Some j => (i <? j)%N
  | Some _, None => true
  | None, _ => false
  end.

Definition hasOwn (props : list (string * value)) (key : string) : bool :=
  existsb (fun kv => String.eqb (fst kv) key) props.

(** The value of an own property is replaced; the property keeps its
    place. *)
Fixpoint setOwn (props : list (string * value)) (key : string) (v : value)
  : list (string * value) :=
  match props with
  | [] => []
  | (k, old) :: props =>
    if String.eqb k key then (k, v) :: props
    else (k, old) :: setOwn props key v
  end.

(** A property that the object does not have is created. *)
Fixpoint insertOwn (props : list (string * value)) (key : string) (v : value)
  : list (string * value) :=
  match props with
  | [] => [(key, v)]
  | (k, old) :: rest =>
    if listedBefore key k then (key, v) :: props
    else (k, old) :: insertOwn rest key v
  end.

Definition defineOwn (props : list (string * value)) (key : string)
    (v : value) : list (string * value) :=
  if hasOwn props key then setOwn props key v else insertOwn props key v.

Definition getOwn (props : list (string * value)) (name : string)
  : option value :=
  snd <$> List.find (fun kv => String.eqb (fst kv) name) props.

(** *** Assignment to a property

    [obj[key] = v] on an object that has no own property [key] asks the
    prototypes, nearest first, what to do. *)
Inductive Assignment :=
| Creates          (* the property is created on [obj] *)
| SetsPrototype    (* the setter of [Object.prototype.__proto__] is called *)
| Skips            (* nothing happens *)
| Fails.           (* the assignment fails: a [TypeError] in strict code *)

(** [Object.prototype] has one property with a setter, [__proto__]; its
    other properties are writable data properties. *)
Definition throughObjectPrototype (key : string) : Assignment :=
  if String.eqb key "__proto__" then SetsPrototype else Creates.

Section Assign.

(** What an assignment through a [Uint8Array] or [Buffer] in the
    prototype chain does for a key other than ["__proto__"]: this depends
    on the key (an index inside or outside the array, the name of a
    read-only accessor such as [length], any other name) and on the
    version of the runtime. *)
Variable typedArraySet : bool -> Buffer -> string -> Assignment.

(** The prototypes of [proto], [proto] first.  A data property found on
    the way is writable, so the property is created on the receiver.  An
    array and [Array.prototype] have data properties only; [Map.prototype]
    has the accessor [size], which has no setter; every chain that is not
    cut by [null] ends in [Object.prototype]. *)
Fixpoint inherited (proto : value) (key : string) : Assignment :=
  match proto with
  | VObject props =>
    if hasOwn props key then Creates else throughObjectPrototype key
  | VInherits proto props =>
    if hasOwn props key then Creates
    else
      match proto with
      | Some proto => inherited proto key
      | None => Creates
      end
  | VArray _ => throughObjectPrototype key
  | VMap _ =>
    if String.eqb key "size" then Fails else throughObjectPrototype key
  | VUint8Array isBuffer bytes =>
    if String.eqb key "__proto__" then SetsPrototype
    else typedArraySet isBuffer bytes key
  | _ => Creates
  end.

(** The setter of [__proto__]: an object or [null] becomes the prototype,
    any other value is ignored. *)
Definition setPrototypeOf (obj v : value) : value :=
  match obj with
  | VObject props | VInherits _ props =>
    match v with
    | VNull => VInherits None props
    | _ => if isObject v then VInherits (Some v) props else obj
    end
  | _ => obj
  end.

Definition carryOut (a : Assignment) (obj : value)
    (props : list (string * value)) (key : string) (v : value)
    (create : list (string * value) -> value) : value + Error :=
  match a with
  | Creates => inl (create (insertOwn props key v))
  | SetsPrototype => inl (setPrototypeOf obj v)
  | Skips => inl obj
  | Fails => inr TypeError
  end.

(** [obj[key] = v], in strict code, on an object that [normalize] is
    building. *)
Definition assign (obj : value) (key : string) (v : value) : value + Error :=
  match obj with
  | VObject props =>
    if hasOwn props key then inl (VObject (setOwn props key v))
    else carryOut (throughObjectPrototype key) obj props key v VObject
  | VInherits proto props =>
    if hasOwn props key then inl (VInherits proto (setOwn props key v))
    else
      carryOut (match proto with
               | Some proto => inherited proto key
               | None => Creates
               end)
              obj props key v (VInherits proto)
  | _ => inl obj
  end.

End Assign.

Section Normalize.

(** The runtime: [String(v)] (and [`${v}`]), which throws a [TypeError]
    for an object that cannot be converted ([None]); [Buffer.from(v)],
    which throws for what it cannot read ([None]); and the assignment
    through a typed array. *)
Variable ToString : value -> option string.
Variable Buffer_from : value -> option Buffer.
Variable typedArraySet : bool -> Buffer -> string -> Assignment.

Section Loops.

Variable normalize : value -> value + Error.

(** [for (const [key, entry] of value.entries()) obj[String(key)] =
    normalize(entry)]: the key is converted, then the entry is
    normalised, then the assignment is made. *)
Fixpoint assignEntries (entries : list (value * value)) (obj : value)
  : value + Error :=
  match entries with
  | [] => inl obj
  | (key, entry) :: entries =>
    match ToString key with
    | None => inr TypeError
    | Some name =>
      match normalize entry with
      | inr e => inr e
      | inl v =>
        match assign typedArraySet obj name v with
        | inr e => inr e
        | inl obj => assignEntries entries obj
        end
      end
    end
  end.

(** [value.map((entry) => normalize(entry))] *)
Fixpoint mapEntries (items : list value) : list value + Error :=
  match items with
  | [] => inl []
  | entry :: items =>
    match normalize entry with
    | inr e => inr e
    | inl v =>
      match mapEntries items with
      | inr e => inr e
      | inl vs => inl (v :: vs)
      end
    end
  end.

End Loops.

(** An object that has a [Map] among its prototypes without being one
    passes [instanceof Map], and [value.entries()] then throws a
    [TypeError]; one that has a bare [Uint8Array] among its prototypes is
    given to [Buffer.from]. *)
Fixpoint normalize (v : value) : value + Error :=
  match v with
  | VMap entries => assignEntries normalize entries (VObject [])
  | VArray items =>
    match mapEntries normalize items with
    | inr e => inr e
    | inl vs => inl (VArray vs)
    end
  | VUint8Array false bytes => inl (VUint8Array true bytes)
  | VInherits _ _ =>
    if isMap v then inr TypeError
    else if isUint8Array v && negb (isBuffer v) then
      match Buffer_from v with
      | Some bytes => inl (VUint8Array true bytes)
      | None => inr TypeError
      end
    else inl v
  | _ => inl v
  end.

End Normalize.

(** [r.then(f)] for a computation that may throw. *)
Definition andThen {A B : Type} (r : A + Error) (f : A -> B + Error)
  : B + Error :=
  match r with
  | inl a => f a
  | inr e => inr e
  end.

(** *** [main]: the handlers of the socket *)

(** [v[name]] for an object [v] and the property names that [main] and
    [buildExecRequest] use: the object's own property, or that of the
    nearest prototype that has one, or [undefined].  ([Object.prototype],
    [Array.prototype], [Map.prototype] and the prototypes of a [Buffer]
    have no property of one of these names.) *)
Fixpoint getProperty (v : value) (name : string) : value :=
  match v with
  | VObject props => default VUndefined (getOwn props name)
  | VInherits proto props =>
    match getOwn props name with
    | Some x => x
    | None =>
      match proto with
      | Some proto => getProperty proto name
      | None => VUndefined
      end
    end
  | _ => VUndefined
  end.

(** [value.name]: reading a property of [null] or [undefined] throws a
    [TypeError] ([None]). *)
Definition get (v : value) (name : string) : option value :=
  match v with
  | VUndefined | VNull => None
  | _ => Some (getProperty v name)
  end.

(** [v === "text"] *)
Definition isString (v : value) (text : string) : bool :=
  match v with
  | VString s => String.eqb s text
  | _ => false
  end.

(** [v ?? d] *)
Definition nullish (v d : value) : value :=
  match v with
  | VUndefined | VNull => d
  | _ => v
  end.

(** [v !== undefined] *)
Definition isDefined (v : value) : bool :=
  match v with
  | VUndefined => false
  | _ => true
  end.

(** What [parseArgs] returns. *)
Record Args := {
  sock : option string;
  cmd : option string;
  argv : list string;
  env : list string;
  cwd : option string;
  id : Z
}.

(** [!s] for an optional string: absent or empty. *)
Definition missing (s : option string) : bool :=
  match s with
  | None | Some "" => true
  | Some _ => false
  end.

Definition optString (s : option string) : value :=
  match s with
  | Some s => VString s
  | None => VUndefined
  end.

(** The assignments to [payload] create own properties: [Object.prototype]
    has no property named [argv], [env] or [cwd]. *)
Definition buildExecRequest (args : Args) : value :=
  let payload := [("cmd", optString (cmd args))] in
  let payload :=
    if (0 <? length (argv args))%nat
    then defineOwn payload "argv" (VArray (VString <$> argv args))
    else payload in
  let payload :=
    if (0 <? length (env args))%nat
    then defineOwn payload "env" (VArray (VString <$> env args))
    else payload in
  let payload :=
    if negb (missing (cwd args))
    then defineOwn payload "cwd" (optString (cwd args)) else payload in
  VObject [("v", VNumber 1); ("t", VString "exec_request");
           ("id", VNumber (id args)); ("p", VObject payload)].

(** What the process has written so far. *)
Inductive Output :=
| Line (text : string)      (* [console.log], [console.error] *)
| Bytes (data : Buffer).    (* [stream.write(data)] *)

Record IO := {
  stdout : list Output;
  stderr : list Output;
  sent : list Buffer;       (* [socket.write] *)
  ended : bool              (* [socket.end()] has been called *)
}.

Definition console_log (text : string) (io : IO) : IO :=
  {| stdout := stdout io ++ [Line text]; stderr := stderr io;
     sent := sent io; ended := ended io |}.

Definition console_error (text : string) (io : IO) : IO :=
  {| stdout := stdout io; stderr := stderr io ++ [Line text];
     sent := sent io; ended := ended io |}.

Definition stdout_write (data : Buffer) (io : IO) : IO :=
  {| stdout := stdout io ++ [Bytes data]; stderr := stderr io;
     sent := sent io; ended := ended io |}.

Definition stderr_write (data : Buffer) (io : IO) : IO :=
  {| stdout := stdout io; stderr := stderr io ++ [Bytes data];
     sent := sent io; ended := ended io |}.

Definition socket_write (data : Buffer) (io : IO) : IO :=
  {| stdout := stdout io; stderr := stderr io;
     sent := sent io ++ [data]; ended := ended io |}.

Definition socket_end (io : IO) : IO :=
  {| stdout := stdout io; stderr := stderr io;
     sent := sent io; ended := true |}.

(** How the process stops: [process.exit(code)], or an exception that no
    handler catches. *)
Inductive Halt :=
| Exit (code : value)
| Uncaught (e : Error).

Definition usage (io : IO) : IO :=
  console_log
    "Usage: node dist/exec.js --sock PATH --cmd CMD [--arg ARG] [--env KEY=VALUE] [--cwd PATH]"
    io.

Section Main.

(** The runtime and the [cbor] package.  [stream_write] is what
    [stream.write] makes of an object that has a [Buffer] among its
    prototypes without being one ([None]: it throws). *)
Variable ToString : value -> option string.
Variable Buffer_from : value -> option Buffer.
Variable typedArraySet : bool -> Buffer -> string -> Assignment.
Variable stream_write : value -> option Buffer.
Variable cbor_encode : value -> Buffer.
Variable cbor_decodeFirstSync : Buffer -> value + Error.

Definition uncaught (io : IO) : IO * option Halt :=
  (io, Some (Uncaught TypeError)).

(** The bytes that [stream.write(Buffer.isBuffer(d) ? d : Buffer.from(d))]
    writes; [None] when the expression throws.  [Buffer.from] copies a
    [Uint8Array]. *)
Definition chunkOf (d : value) : option Buffer :=
  match d with
  | VUint8Array _ bytes => Some bytes
  | _ => if isBuffer d then stream_write d else Buffer_from d
  end.

(** The body of the callback given to [reader.push], from the decoded
    value on. *)
Definition onMessage (raw : value) (io : IO) : IO * option Halt :=
  match normalize ToString Buffer_from typedArraySet raw with
  | inr e => (io, Some (Uncaught e))
  | inl message =>
    match get message "t" with
    | None => uncaught io
    | Some t =>
      if isString t "exec_output" then
        match get message "p" with
        | None => uncaught io
        | Some p =>
          match get p "data", get p "stream" with
          | Some d, Some stream =>
            match chunkOf d with
            | None => uncaught io
            | Some data =>
              if isString stream "stdout" then (stdout_write data io, None)
              else (stderr_write data io, None)
            end
          | _, _ => uncaught io
          end
        end
      else if isString t "exec_response" then
        match get message "p" with
        | None => uncaught io
        | Some p =>
          match get p "exit_code", get p "signal" with
          | Some exit_code, Some signal =>
            let code := nullish exit_code (VNumber 1) in
            if isDefined signal then
              match ToString signal with
              | None => uncaught io
              | Some text =>
                let io :=
                  console_error
                    ("process exited due to signal " ++ text)%string io in
                (socket_end io, Some (Exit code))
              end
            else (socket_end io, Some (Exit code))
          | _, _ => uncaught io
          end
        end
      else if isString t "error" then
        match get message "p" with
        | None => uncaught io
        | Some p =>
          match get p "code", get p "message" with
          | Some code, Some msg =>
            match ToString code, ToString msg with
            | Some code, Some msg =>
              let io :=
                console_error ("error " ++ code ++ ": " ++ msg)%string io in
              (socket_end io, Some (Exit (VNumber 1)))
            | _, _ => uncaught io
            end
          | _, _ => uncaught io
          end
        end
      else (io, None)
    end
  end.

Definition onFrame (frame : Buffer) (io : IO) : IO * option Halt :=
  match cbor_decodeFirstSync frame with
  | inr e => (io, Some (Uncaught e))
  | inl raw => onMessage raw io
  end.

Inductive State :=
| Running (reader : FrameReader) (io : IO)
| Halted (io : IO) (h : Halt).

Inductive Event :=
| Connect
| Data (chunk : Buffer)
| SocketError (message : string)
| End.

(** [main] up to the registration of the handlers. *)
Definition main (args : Args) : State :=
  let io := {| stdout := []; stderr := []; sent := []; ended := false |} in
  if missing (sock args) || missing (cmd args)
  then Halted (usage io) (Exit (VNumber 1))
  else Running newFrameReader io.

Definition onConnect (args : Args) (reader : FrameReader) (io : IO) : State :=
  let io :=
    console_log ("connected to " ++ default "" (sock args))%string io in
  let message := buildExecRequest args in
  let payload := cbor_encode message in
  match encodeFrame payload with
  | None => Halted io (Uncaught RangeError)
  | Some bytes => Running reader (socket_write bytes io)
  end.

Definition onData (chunk : Buffer) (reader : FrameReader) (io : IO)
  : option State :=
  '(reader, io, completion) ← push onFrame reader chunk io;
  Some match completion with
       | Returned => Running reader io
       | Threw e => Halted io (Uncaught e)
       | Stopped h => Halted io h
       end.

Definition onError (message : string) (io : IO) : State :=
  Halted (console_error ("socket error: " ++ message)%string io)
         (Exit (VNumber 1)).

Definition onEnd (io : IO) : State := Halted io (Exit (VNumber 1)).

(** One event of the socket; a process that has stopped stays as it is.
    [None] would be [push] running out of rounds, which does not happen
    ([step_total]). *)
Definition step (args : Args) (st : State) (ev : Event) : option State :=
  match st with
  | Halted _ _ => Some st
  | Running reader io =>
    match ev with
    | Connect => Some (onConnect args reader io)
    | Data chunk => onData chunk reader io
    | SocketError message => Some (onError message io)
    | End => Some (onEnd io)
    end
  end.

Fixpoint run (args : Args) (st : State) (evs : list Event) : option State :=
  match evs with
  | [] => Some st
  | ev :: evs => st ← step args st ev; run args st evs
  end.

End Main.

(** The status the process ends with, on a POSIX system.  [process.exit]
    with a safe integer (at most 2^53 - 1 in absolute value) gives the
    parent the integer modulo 256; what it does with any other value
    depends on the version of the runtime ([None]).  A process in which an exception was
    not caught ends with status 1, after the runtime has printed the
    exception on the standard error stream. *)
Definition exitStatus (h : Halt) : option Z :=
  match h with
  | Exit (VNumber n) =>
    if Z.abs n <=? 9007199254740991 then Some (n mod 256) else None
  | Exit _ => None
  | Uncaught _ => Some 1
  end.

(** *** Facts about [normalize] *)

Lemma getOwn_setOwn props key v name :
  hasOwn props key = true ->
  getOwn (setOwn props key v) name
  = if String.eqb key name then Some v else getOwn props name.
Proof.
  unfold getOwn, hasOwn. induction props as [|[k old] props IH]; simpl;
    [discriminate|].
  destruct (String.eqb_spec k key) as [->|Hk]; simpl.
  - intros _. now destruct (String.eqb key name).
  - intros H. destruct (String.eqb_spec k name) as [->|Hn]; simpl.
    + apply String.eqb_neq in Hk. rewrite String.eqb_sym in Hk.
      now rewrite Hk.
    + now apply IH.
Qed.

Lemma getOwn_insertOwn props key v name :
  hasOwn props key = false ->
  getOwn (insertOwn props key v) name
  = if String.eqb key name then Some v else getOwn props name.
Proof.
  unfold getOwn, hasOwn. induction props as [|[k old] props IH]; simpl.
  - intros _. now destruct (String.eqb key name).
  - intros [Hk H]%orb_false_iff.
    destruct (listedBefore key k); simpl.
    + now destruct (String.eqb key name).
    + destruct (String.eqb_spec k name) as [->|Hn]; simpl.
      * rewrite String.eqb_sym in Hk. now rewrite Hk.
      * now apply IH.
Qed.

(** After [obj[key] = v] has made or changed an own property, reading the
    property gives [v], and the other properties are as they were. *)
Lemma getOwn_defineOwn props key v name :
  getOwn (defineOwn props key v) name
  = if String.eqb key name then Some v else getOwn props name.
Proof.
  unfold defineOwn. destruct (hasOwn props key) eqn:E.
  - now apply getOwn_setOwn.
  - now apply getOwn_insertOwn.
Qed.

(** A value that [normalize] gives back as it is found: it passes neither
    [instanceof Map] nor the test for a bare [Uint8Array]. *)
Definition kept (v : value) : bool :=
  negb (isMap v) && (negb (isUint8Array v) || isBuffer v).

(** An object as [normalize] builds it from a [Map]. *)
Definition built (obj : value) : Prop :=
  match obj with
  | VObject _ => True
  | VInherits _ _ => kept obj = true
  | _ => False
  end.

Lemma kept_setPrototypeOf (obj v : value) :
  built obj -> kept v = true -> built (setPrototypeOf obj v).
Proof.
  destruct obj as [| | | | | | | |props|proto props]; try easy;
    intros Hobj Hv; simpl;
    destruct v as [| | | | |b bytes|items|entries|ps|q ps]; simpl;
    try exact Hobj; try reflexivity; exact Hv.
Qed.

Section NormalizeFacts.

Variable ToString : value -> option string.
Variable Buffer_from : value -> option Buffer.
Variable typedArraySet : bool -> Buffer -> string -> Assignment.

Abbreviation norm := (normalize ToString Buffer_from typedArraySet).

Lemma built_assign (obj : value) (key : string) (v obj' : value) :
  built obj -> kept v = true ->
  assign typedArraySet obj key v = inl obj' -> built obj'.
Proof.
  intros Hobj Hv.
  destruct obj as [| | | | | | | |props|proto props]; try easy; simpl.
  - destruct (hasOwn props key); [now intros [= <-]|].
    destruct (throughObjectPrototype key); simpl; intros [= <-];
      try exact I.
    now apply (kept_setPrototypeOf (VObject props)).
  - destruct (hasOwn props key); [intros [= <-]; exact Hobj|].
    destruct (match proto with
              | Some p => inherited typedArraySet p key
              | None => Creates
              end); simpl; try discriminate; intros [= <-];
      try exact Hobj.
    now apply (kept_setPrototypeOf (VInherits proto props)).
Qed.

Lemma built_kept (obj : value) : built obj -> kept obj = true /\ norm obj = inl obj.
Proof.
  destruct obj as [| | | | | | | |props|proto props]; try easy.
  intros H. split; [exact H|].
  unfold built, kept in H. apply andb_true_iff in H as [Hm Hu].
  cbn [normalize].
  destruct (isMap (VInherits proto props)); [discriminate|].
  destruct (isUint8Array (VInherits proto props));
    destruct (isBuffer (VInherits proto props)); try reflexivity.
  discriminate.
Qed.

(** What [normalize] returns is kept as it is by [normalize], and every
    exception of [normalize] is a [TypeError]. *)
Lemma normalize_result (v : value) :
  match norm v with
  | inl w => kept w = true /\ norm w = inl w
  | inr e => e = TypeError
  end.
Proof.
  induction v as [| | | | |b bytes|items IH|entries IH|props IH|proto props _ _]
    using value_ind; try (split; reflexivity).
  - destruct b; split; reflexivity.
  - cbn [normalize].
    assert (H : match mapEntries norm items with
                | inl ws => mapEntries norm ws = inl ws
                | inr e => e = TypeError
                end).
    { induction IH as [|x items Hx _ IHitems]; [reflexivity|]. simpl.
      destruct (norm x) as [w|e]; [|exact Hx].
      destruct (mapEntries norm items) as [ws|e]; [|exact IHitems].
      simpl. destruct Hx as [_ ->]. now rewrite IHitems. }
    destruct (mapEntries norm items) as [ws|e]; [|exact H].
    split; [reflexivity|]. cbn [normalize]. now rewrite H.
  - cbn [normalize].
    assert (H : forall obj, built obj ->
              match assignEntries ToString typedArraySet norm entries obj with
              | inl w => built w
              | inr e => e = TypeError
              end).
    { induction IH as [|[key entry] entries Hx _ IHentries]; intros obj Hobj;
        [exact Hobj|].
      simpl in Hx |- *. destruct (ToString key) as [name|]; [|reflexivity].
      destruct (norm entry) as [w|e]; [|exact Hx].
      destruct Hx as [Hw _].
      destruct (assign typedArraySet obj name w) as [obj'|e] eqn:Ea.
      - apply IHentries. exact (built_assign obj name w obj' Hobj Hw Ea).
      - destruct obj as [| | | | | | | |ps|q ps]; try easy; simpl in Ea.
        + destruct (hasOwn ps name); [discriminate|].
          destruct (throughObjectPrototype name); simpl in Ea; congruence.
        + destruct (hasOwn ps name); [discriminate|].
          destruct (match q with
                    | Some p => inherited typedArraySet p name
                    | None => Creates
                    end); simpl in Ea; congruence. }
    specialize (H (VObject []) I).
    destruct (assignEntries ToString typedArraySet norm entries (VObject []))
      as [w|e]; [|exact H].
    now apply built_kept.
  - cbn [normalize].
    destruct (isMap (VInherits proto props)) eqn:Em; [reflexivity|].
    destruct (isUint8Array (VInherits proto props)) eqn:Eu;
      destruct (isBuffer (VInherits proto props)) eqn:Eb; simpl.
    + apply built_kept. unfold built, kept. now rewrite Em, Eu, Eb.
    + destruct (Buffer_from (VInherits proto props)); [|reflexivity].
      split; reflexivity.
    + apply built_kept. unfold built, kept. now rewrite Em, Eu, Eb.
    + apply built_kept. unfold built, kept. now rewrite Em, Eu, Eb.
Qed.

End NormalizeFacts.

(** A conversion to strings for the examples, which convert scalars and
    plain objects only: numbers in decimal, strings as they are. *)
Definition showValue (v : value) : option string :=
  match v with
  | VUndefined => Some "undefined"
  | VNull => Some "null"
  | VBoolean true => Some "true"
  | VBoolean false => Some "false"
  | VNumber n => Some (pretty n)
  | VString s => Some s
  | _ => Some "[object Object]"
  end.

Definition noBuffer (_ : value) : option Buffer := None.

(** An assignment through a typed array, for the examples. *)
Definition plainSet (_ : bool) (_ : Buffer) (_ : string) : Assignment :=
  Creates.

(** C5: [normalize] has no case for a plain object, so the decoder's
    object for a map with string keys comes back as it is, with the [Map]
    and the bare [Uint8Array] inside it, whatever the runtime; the same
    [Map] inside an array is converted.  And the entry of a [Map] under
    the key ["__proto__"] is not a property of the object made from the
    [Map]: a number is dropped, an object becomes the prototype. *)
Theorem normalize_skips_plain_objects :
  (forall ToString Buffer_from typedArraySet props,
     normalize ToString Buffer_from typedArraySet (VObject props)
     = inl (VObject props)) /\
  normalize showValue noBuffer plainSet
    (VObject [("p", VMap [(VNumber 1, VUint8Array false [x68])])])
  = inl (VObject [("p", VMap [(VNumber 1, VUint8Array false [x68])])]) /\
  normalize showValue noBuffer plainSet
    (VArray [VMap [(VNumber 1, VUint8Array false [x68])]])
  = inl (VArray [VObject [("1", VUint8Array true [x68])]]) /\
  normalize showValue noBuffer plainSet
    (VMap [(VString "__proto__", VNumber 1)])
  = inl (VObject []) /\
  normalize showValue noBuffer plainSet
    (VMap [(VNumber 1, VNumber 0);
           (VString "__proto__", VMap [(VString "exit_code", VNumber 7)])])
  = inl (VInherits (Some (VObject [("exit_code", VNumber 7)]))
                   [("1", VNumber 0)]).
Proof. repeat split. Qed.

(** *** Facts about [main] *)

(** The normalised message is an [exec_response] with these two fields
    ([VUndefined] for a field that is not there). *)
Definition execResponse (message exit_code signal : value) : Prop :=
  exists t p,
    get message "t" = Some t /\ isString t "exec_response" = true /\
    get message "p" = Some p /\
    get p "exit_code" = Some exit_code /\ get p "signal" = Some signal.

(** The normalised message is an [error] with these two fields. *)
Definition errorMessage (message code msg : value) : Prop :=
  exists t p,
    get message "t" = Some t /\ isString t "error" = true /\
    get message "p" = Some p /\
    get p "code" = Some code /\ get p "message" = Some msg.

Lemma isString_inv (v : value) (text : string) :
  isString v text = true -> v = VString text.
Proof.
  destruct v; simpl; try discriminate. now intros ->%String.eqb_eq.
Qed.

Section MainFacts.

Variable ToString : value -> option string.
Variable Buffer_from : value -> option Buffer.
Variable typedArraySet : bool -> Buffer -> string -> Assignment.
Variable stream_write : value -> option Buffer.
Variable cbor_encode : value -> Buffer.
Variable cbor_decodeFirstSync : Buffer -> value + Error.

Abbreviation normalize' := (normalize ToString Buffer_from typedArraySet).
Abbreviation onMessage' :=
  (onMessage ToString Buffer_from typedArraySet stream_write).
Abbreviation onFrame' :=
  (onFrame ToString Buffer_from typedArraySet stream_write
           cbor_decodeFirstSync).
Abbreviation step' :=
  (step ToString Buffer_from typedArraySet stream_write cbor_encode
        cbor_decodeFirstSync).
Abbreviation run' :=
  (run ToString Buffer_from typedArraySet stream_write cbor_encode
       cbor_decodeFirstSync).

Lemma onMessage_exec_response (raw message exit_code signal : value)
    (text : string) (io : IO) :
  normalize' raw = inl message ->
  execResponse message exit_code signal ->
  (isDefined signal = true -> ToString signal = Some text) ->
  onMessage' raw io
  = (socket_end
       (if isDefined signal
        then console_error
               ("process exited due to signal " ++ text)%string io
        else io),
     Some (Exit (nullish exit_code (VNumber 1)))).
Proof.
  intros Hn (t & p & Ht & ->%isString_inv & Hp & Hc & Hs) Htext.
  unfold onMessage. rewrite Hn, Ht. simpl. rewrite Hp, Hc, Hs.
  destruct (isDefined signal); [|reflexivity].
  now rewrite Htext.
Qed.

Lemma onMessage_error (raw message code msg : value) (c m : string)
    (io : IO) :
  normalize' raw = inl message ->
  errorMessage message code msg ->
  ToString code = Some c -> ToString msg = Some m ->
  onMessage' raw io
  = (socket_end (console_error ("error " ++ c ++ ": " ++ m)%string io),
     Some (Exit (VNumber 1))).
Proof.
  intros Hn (t & p & Ht & ->%isString_inv & Hp & Hc & Hm) Ec Em.
  unfold onMessage. rewrite Hn, Ht. simpl. now rewrite Hp, Hc, Hm, Ec, Em.
Qed.

(** The frames in front have been handled and the callback stops the
    process at the next one. *)
Lemma onData_stops (chunk : Buffer) (reader : FrameReader) (io io1 io2 : IO)
    (before : list Buffer) (frame rest : Buffer) (h : Halt) :
  accepted reader -> Forall fits before -> fits frame ->
  pending reader ++ chunk
  = flat_map frameBytes before ++ frameBytes frame ++ rest ->
  deliver onFrame' before io = (io1, None) ->
  onFrame' frame io1 = (io2, Some h) ->
  onData ToString Buffer_from typedArraySet stream_write
         cbor_decodeFirstSync chunk reader io
  = Some (Halted io2 h).
Proof.
  intros Hacc Hbefore Hfit Hp Hd Hf. unfold onData.
  destruct (push_stops onFrame' reader chunk io io2 (before ++ [frame])
              rest h Hacc) as (this' & ->).
  - apply Forall_app. split; [exact Hbefore | now repeat constructor].
  - rewrite Hp, flat_map_app, <- app_assoc. simpl. now rewrite app_nil_r.
  - rewrite deliver_app, Hd. simpl. now rewrite Hf.
  - reflexivity.
Qed.

Lemma step_total (args : Args) (st : State) (ev : Event) :
  is_Some (step' args st ev).
Proof.
  destruct st as [reader io|io h]; [|now eexists].
  destruct ev; simpl; try now eexists.
  unfold onData.
  destruct (push_total onFrame' reader chunk io) as [[[r io'] c] ->].
  now eexists.
Qed.

Lemma run_app (args : Args) (evs1 evs2 : list Event) (st : State) :
  run' args st (evs1 ++ evs2)
  = st' ← run' args st evs1; run' args st' evs2.
Proof.
  revert st. induction evs1 as [|ev evs1 IH]; intros st; simpl.
  - reflexivity.
  - destruct (step' args st ev) as [st'|]; simpl; [apply IH | reflexivity].
Qed.

(** C6, as the code has it: when a chunk brings the end of a frame, the
    frames before it having been handled, and the frame is an
    [exec_response], the process calls [process.exit] with the exit code
    the peer reported (with 1 when it reported none), signal or no
    signal, having written nothing to the standard output and the signal,
    if there is one, to the standard error stream; the status is that
    code modulo 256, so the code itself from 0 to 255.  When the frame is
    an [error], the process writes the error to the standard error stream
    and exits with 1.  A declared length above 4194304, or a frame the
    decoder refuses, ends the process by an exception that nothing
    catches, which the runtime reports as status 1. *)
Theorem cli_exit_status :
  (forall args reader io io1 chunk before frame rest raw message exit_code
          signal text,
     accepted reader -> Forall fits before -> fits frame ->
     pending reader ++ chunk
     = flat_map frameBytes before ++ frameBytes frame ++ rest ->
     deliver onFrame' before io = (io1, None) ->
     cbor_decodeFirstSync frame = inl raw ->
     normalize' raw = inl message ->
     execResponse message exit_code signal ->
     (isDefined signal = true -> ToString signal = Some text) ->
     exists io',
       step' args (Running reader io) (Data chunk)
       = Some (Halted io' (Exit (nullish exit_code (VNumber 1)))) /\
       stdout io' = stdout io1 /\
       stderr io'
       = stderr io1 ++
         (if isDefined signal
          then [Line ("process exited due to signal " ++ text)%string]
          else []) /\
       (forall n, exit_code = VNumber n -> Z.abs n <= 9007199254740991 ->
          exitStatus (Exit (nullish exit_code (VNumber 1)))
          = Some (n mod 256)) /\
       (forall n, exit_code = VNumber n -> 0 <= n < 256 ->
          exitStatus (Exit (nullish exit_code (VNumber 1))) = Some n) /\
       (exit_code = VUndefined \/ exit_code = VNull ->
          exitStatus (Exit (nullish exit_code (VNumber 1))) = Some 1)) /\
  (forall args reader io io1 chunk before frame rest raw message code msg
          c m,
     accepted reader -> Forall fits before -> fits frame ->
     pending reader ++ chunk
     = flat_map frameBytes before ++ frameBytes frame ++ rest ->
     deliver onFrame' before io = (io1, None) ->
     cbor_decodeFirstSync frame = inl raw ->
     normalize' raw = inl message ->
     errorMessage message code msg ->
     ToString code = Some c -> ToString msg = Some m ->
     exists io',
       step' args (Running reader io) (Data chunk)
       = Some (Halted io' (Exit (VNumber 1))) /\
       stdout io' = stdout io1 /\
       stderr io' = stderr io1 ++ [Line ("error " ++ c ++ ": " ++ m)%string] /\
       exitStatus (Exit (VNumber 1)) = Some 1) /\
  (forall args reader io io1 chunk before n rest,
     accepted reader -> Forall fits before -> uint32 n -> 4194304 < n ->
     pending reader ++ chunk = flat_map frameBytes before ++ be32 n ++ rest ->
     deliver onFrame' before io = (io1, None) ->
     step' args (Running reader io) (Data chunk)
     = Some (Halted io1 (Uncaught (FrameTooLarge n))) /\
     exitStatus (Uncaught (FrameTooLarge n)) = Some 1) /\
  (forall args reader io io1 chunk before frame rest e,
     accepted reader -> Forall fits before -> fits frame ->
     pending reader ++ chunk
     = flat_map frameBytes before ++ frameBytes frame ++ rest ->
     deliver onFrame' before io = (io1, None) ->
     cbor_decodeFirstSync frame = inr e ->
     step' args (Running reader io) (Data chunk)
     = Some (Halted io1 (Uncaught e)) /\
     exitStatus (Uncaught e) = Some 1).
Proof.
  split; [|split; [|split]].
  - intros args reader io io1 chunk before frame rest raw message exit_code
      signal text Hacc Hbefore Hfit Hp Hd Hdec Hnorm Hmsg Htext.
    eexists. split; [|split; [|split; [|split; [|split]]]].
    + simpl. apply (onData_stops chunk reader io io1 _ before frame rest);
        try assumption.
      unfold onFrame. rewrite Hdec.
      exact (onMessage_exec_response raw message exit_code signal text io1
               Hnorm Hmsg Htext).
    + now destruct (isDefined signal).
    + destruct (isDefined signal); simpl; [reflexivity|].
      now rewrite app_nil_r.
    + intros n -> Hn. simpl.
      destruct (Z.leb_spec (Z.abs n) 9007199254740991); [reflexivity | lia].
    + intros n -> Hn. simpl.
      destruct (Z.leb_spec (Z.abs n) 9007199254740991); [|lia].
      now rewrite Z.mod_small.
    + intros [-> | ->]; reflexivity.
  - intros args reader io io1 chunk before frame rest raw message code msg
      c m Hacc Hbefore Hfit Hp Hd Hdec Hnorm Hmsg Ec Em.
    eexists. split; [|split; [|split]].
    + simpl. apply (onData_stops chunk reader io io1 _ before frame rest);
        try assumption.
      unfold onFrame. rewrite Hdec.
      exact (onMessage_error raw message code msg c m io1 Hnorm Hmsg Ec Em).
    + reflexivity.
    + reflexivity.
    + reflexivity.
  - intros args reader io io1 chunk before n rest Hacc Hbefore Hn Hbig Hp Hd.
    split; [|reflexivity]. simpl. unfold onData.
    pose proof (push_reject onFrame' reader chunk io before n rest
                  Hacc Hbefore Hn Hbig Hp) as H.
    rewrite Hd in H. now rewrite H.
  - intros args reader io io1 chunk before frame rest e
      Hacc Hbefore Hfit Hp Hd Hdec.
    split; [|reflexivity]. simpl.
    apply (onData_stops chunk reader io io1 _ before frame rest);
      try assumption.
    unfold onFrame. now rewrite Hdec.
Qed.

(** C7: while the process is still running, which is to say that no
    [exec_response] and no [error] has arrived, for whatever request, the
    end of the stream and an error of the socket both make it exit with
    status 1 at once. *)
Theorem transport_close_exits :
  (forall args reader io,
     step' args (Running reader io) End
     = Some (Halted io (Exit (VNumber 1)))) /\
  (forall args reader io message,
     step' args (Running reader io) (SocketError message)
     = Some (Halted (console_error ("socket error: " ++ message)%string io)
                    (Exit (VNumber 1)))) /\
  (forall args evs reader io close,
     run' args (main args) evs = Some (Running reader io) ->
     close = End \/ (exists message, close = SocketError message) ->
     exists io',
       run' args (main args) (evs ++ [close])
       = Some (Halted io' (Exit (VNumber 1))) /\
       stdout io' = stdout io) /\
  exitStatus (Exit (VNumber 1)) = Some 1.
Proof.
  split; [reflexivity | split; [reflexivity | split; [|reflexivity]]].
  intros args evs reader io close Hrun Hclose.
  rewrite run_app, Hrun. simpl.
  destruct Hclose as [-> | [message ->]]; eexists; split; reflexivity.
Qed.

End MainFacts.

(** A stand-in for the decoder: frame [01] is an [exec_response] for a
    process killed by signal 9 whose exit code is reported as 0, frame
    [02] is an [error], frame [03] is an [exec_response] for a request
    with another id, frame [04] is an [exec_response] whose payload is a
    [Map] with the exit code under ["__proto__"]; anything else is
    refused. *)
Definition killed : value :=
  VObject [("v", VNumber 1); ("t", VString "exec_response");
           ("id", VNumber 1);
           ("p", VObject [("exit_code", VNumber 0); ("signal", VNumber 9)])].

Definition failed : value :=
  VObject [("v", VNumber 1); ("t", VString "error"); ("id", VNumber 1);
           ("p", VObject [("code", VString "ENOENT");
                          ("message", VString "no such file")])].

Definition stray : value :=
  VObject [("v", VNumber 1); ("t", VString "exec_response");
           ("id", VNumber 2); ("p", VObject [("exit_code", VNumber 0)])].

Definition shadowed : value :=
  VMap [(VNumber 0, VNumber 1); (VString "t", VString "exec_response");
        (VString "p",
         VMap [(VNumber 1, VNumber 0);
               (VString "__proto__",
                VMap [(VString "exit_code", VNumber 7)])])].

Definition toyDecode (frame : Buffer) : value + Error :=
  match frame with
  | [x01] => inl killed
  | [x02] => inl failed
  | [x03] => inl stray
  | [x04] => inl shadowed
  | _ => inr (DecodeError "unexpected end of input")
  end.

Definition toyEncode (_ : value) : Buffer := [xa0].

Definition someArgs : Args :=
  {| sock := Some "/tmp/gondolin.sock"; cmd := Some "/bin/true";
     argv := []; env := []; cwd := None; id := 1 |}.

Definition io0 : IO :=
  {| stdout := []; stderr := []; sent := []; ended := false |}.

(** The client with the stand-ins for the runtime and the decoder. *)
Definition toyStep : Args -> State -> Event -> option State :=
  step showValue noBuffer plainSet noBuffer toyEncode toyDecode.

Definition toyRun : Args -> State -> list Event -> option State :=
  run showValue noBuffer plainSet noBuffer toyEncode toyDecode.

(** C6, the failure: an [exec_response] that carries signal 9 and exit
    code 0 makes the process exit with status 0.  And the status is not
    always the exit code that was reported: [process.exit(256)] ends the
    process with status 0. *)
Lemma signal_exit_can_be_zero :
  normalize showValue noBuffer plainSet killed = inl killed /\
  execResponse killed (VNumber 0) (VNumber 9) /\
  toyStep someArgs (Running newFrameReader io0) (Data (frameBytes [x01]))
  = Some (Halted
            {| stdout := [];
               stderr := [Line "process exited due to signal 9"];
               sent := []; ended := true |}
            (Exit (VNumber 0))) /\
  exitStatus (Exit (VNumber 0)) = Some 0 /\
  exitStatus (Exit (VNumber 256)) = Some 0.
Proof.
  split; [reflexivity | split; [|repeat split]].
  exists (VString "exec_response"),
         (VObject [("exit_code", VNumber 0); ("signal", VNumber 9)]).
  repeat split.
Qed.

(** An exit code that the payload only inherits is the exit code: the
    handler reads [p.exit_code] through the prototype. *)
Lemma inherited_exit_code :
  toyStep someArgs (Running newFrameReader io0) (Data (frameBytes [x04]))
  = Some (Halted {| stdout := []; stderr := []; sent := []; ended := true |}
                 (Exit (VNumber 7))).
Proof. reflexivity. Qed.

(** C7, the failure: the handler does not read the [id] of a message.
    The request has id 1; an [exec_response] for id 2 with exit code 0
    arrives, and the process exits with status 0, before and whether or
    not the stream ends, without a message for its own request. *)
Lemma response_for_another_request :
  id someArgs = 1 /\
  toyDecode [x03] = inl stray /\ get stray "id" = Some (VNumber 2) /\
  toyRun someArgs (main someArgs) [Connect; Data (frameBytes [x03]); End]
  = Some (Halted
            {| stdout := [Line "connected to /tmp/gondolin.sock"];
               stderr := [];
               sent := [[x00; x00; x00; x01; xa0]];
               ended := true |}
            (Exit (VNumber 0))) /\
  exitStatus (Exit (VNumber 0)) = Some 0.
Proof. repeat split. Qed.

Lemma cli_exit_status_witness :
  (accepted newFrameReader /\ fits [x02] /\
   toyDecode [x02] = inl failed /\
   normalize showValue noBuffer plainSet failed = inl failed /\
   errorMessage failed (VString "ENOENT") (VString "no such file") /\
   exists io',
     toyStep someArgs (Running newFrameReader io0)
             (Data (frameBytes [x02] ++ [x00]))
     = Some (Halted io' (Exit (VNumber 1))) /\
     stdout io' = [] /\
     stderr io' = [Line "error ENOENT: no such file"] /\
     exitStatus (Exit (VNumber 1)) = Some 1) /\
  (uint32 4194305 /\ 4194304 < 4194305 /\
   toyStep someArgs (Running newFrameReader io0) (Data [x00; x40; x00; x01])
   = Some (Halted io0 (Uncaught (FrameTooLarge 4194305)))) /\
  (fits [x04] /\ toyDecode [x04] = inl shadowed /\
   exists io',
     toyStep someArgs (Running newFrameReader io0) (Data (frameBytes [x04]))
     = Some (Halted io' (Exit (VNumber 7))) /\
     exitStatus (Exit (VNumber 7)) = Some 7).
Proof.
  assert (Hfit : forall b, fits [b])
    by (intros b; unfold fits, MAX_FRAME; simpl; lia).
  assert (Hmsg : errorMessage failed
                   (VString "ENOENT") (VString "no such file")).
  { exists (VString "error"),
           (VObject [("code", VString "ENOENT");
                     ("message", VString "no such file")]).
    repeat split. }
  assert (Hn : uint32 4194305) by (unfold uint32; lia).
  assert (Hbig : 4194304 < 4194305) by lia.
  pose proof (cli_exit_status showValue noBuffer plainSet noBuffer toyEncode
                toyDecode) as (Hresp & Herr & Hbigframe & _).
  split; [|split].
  - split; [apply accepted_new | split; [apply Hfit | split;
      [reflexivity | split; [reflexivity | split; [exact Hmsg|]]]]].
    exact (Herr someArgs newFrameReader io0 io0 (frameBytes [x02] ++ [x00])
             [] [x02] [x00] failed failed
             (VString "ENOENT") (VString "no such file")
             "ENOENT" "no such file"
             accepted_new (List.Forall_nil _) (Hfit x02) eq_refl eq_refl
             eq_refl eq_refl Hmsg eq_refl eq_refl).
  - split; [exact Hn | split; [exact Hbig|]].
    exact (proj1 (Hbigframe someArgs newFrameReader io0 io0
                    [x00; x40; x00; x01] [] 4194305 []
                    accepted_new (List.Forall_nil _) Hn Hbig eq_refl
                    eq_refl)).
  - split; [apply Hfit | split; [reflexivity|]].
    destruct (Hresp someArgs newFrameReader io0 io0 (frameBytes [x04])
                [] [x04] [] shadowed
                (VObject
                   [("0", VNumber 1); ("t", VString "exec_response");
                    ("p", VInherits
                            (Some (VObject [("exit_code", VNumber 7)]))
                            [("1", VNumber 0)])])
                (VNumber 7) VUndefined ""
                accepted_new (List.Forall_nil _) (Hfit x04) eq_refl eq_refl
                eq_refl)
      as (io' & Hstep & _ & _ & _ & Hstatus & _).
    + reflexivity.
    + exists (VString "exec_response"),
             (VInherits (Some (VObject [("exit_code", VNumber 7)]))
                        [("1", VNumber 0)]).
      repeat split.
    + discriminate.
    + exists io'. split; [exact Hstep|].
      apply (Hstatus 7); [reflexivity | lia].
Defined.

Lemma transport_close_exits_witness :
  toyRun someArgs (main someArgs) [Connect; Data [x00; x00]]
  = Some (Running {| buffer := [x00; x00]; expectedLength := None |}
            {| stdout := [Line "connected to /tmp/gondolin.sock"];
               stderr := [];
               sent := [[x00; x00; x00; x01; xa0]];
               ended := false |}) /\
  exists io',
    toyRun someArgs (main someArgs) ([Connect; Data [x00; x00]] ++ [End])
    = Some (Halted io' (Exit (VNumber 1))) /\
    stdout io' = [Line "connected to /tmp/gondolin.sock"].
Proof.
  split; [reflexivity|].
  exact (proj1 (proj2 (proj2
           (transport_close_exits showValue noBuffer plainSet noBuffer
              toyEncode toyDecode)))
           someArgs [Connect; Data [x00; x00]] _ _ End
           eq_refl (or_introl eq_refl)).
Defined.

(** *** More about the reader: any bytes, any callback *)

(** The reader with more bytes behind the ones it holds. *)
Definition extend (more : Buffer) (this : FrameReader) : FrameReader :=
  {| buffer := buffer this ++ more; expectedLength := expectedLength this |}.

Lemma readUInt32BE_app (buf more : Buffer) (n : Z) :
  readUInt32BE buf = Some n -> readUInt32BE (buf ++ more) = Some n.
Proof.
  destruct buf as [|b0 [|b1 [|b2 [|b3 rest]]]]; try discriminate.
  intros H. exact H.
Qed.

Lemma readUInt32BE_is_Some (buf : Buffer) :
  (4 <= length buf)%nat -> is_Some (readUInt32BE buf).
Proof.
  destruct buf as [|b0 [|b1 [|b2 [|b3 rest]]]]; simpl; try lia. eauto.
Qed.

Section Extend.

Context {S X : Type}.
Variable onFrame : Buffer -> S -> S * option X.

(** A round that has a whole frame still has it when more bytes follow. *)
Lemma frame_extend (buf more : Buffer) (n : Z) :
  (Z.of_nat (length buf) <? n) = false ->
  (Z.of_nat (length (buf ++ more)) <? n) = false /\
  take (Z.to_nat n) (buf ++ more) = take (Z.to_nat n) buf /\
  drop (Z.to_nat n) (buf ++ more) = drop (Z.to_nat n) buf ++ more.
Proof.
  intros H%Z.ltb_ge. split; [|split].
  - apply Z.ltb_ge. rewrite length_app. lia.
  - apply take_app_le. lia.
  - apply drop_app_le. lia.
Qed.

(** What more bytes change in one round: nothing, except that a round
    that left for want of bytes goes on. *)
Lemma round_extend (more : Buffer) (this : FrameReader) :
  match round (X:=X) this with
  | Frame this' frame =>
    round (X:=X) (extend more this) = Frame (extend more this') frame
  | Leave this' Returned =>
    round (X:=X) (extend more this) = round (extend more this')
  | Leave this' (Threw e) =>
    round (X:=X) (extend more this) = Leave (extend more this') (Threw e)
  | Leave this' (Stopped _) => False
  end.
Proof.
  destruct this as [buf [n|]]; unfold round, extend;
    cbn [expectedLength buffer].
  - destruct (Z.of_nat (length buf) <? n) eqn:E; [reflexivity|].
    destruct (frame_extend buf more n E) as (E1 & E2 & E3).
    cbn [expectedLength buffer]. now rewrite E1, E2, E3.
  - destruct (length buf <? 4)%nat eqn:E4; [reflexivity|].
    apply Nat.ltb_ge in E4.
    destruct (readUInt32BE_is_Some buf E4) as [n En].
    rewrite En, (readUInt32BE_app buf more n En).
    replace (length (buf ++ more) <? 4)%nat with false
      by (symmetry; apply Nat.ltb_ge; rewrite length_app; lia).
    rewrite (drop_app_le buf more 4 E4).
    destruct (n >? MAX_FRAME); [reflexivity|].
    cbn [expectedLength buffer].
    destruct (Z.of_nat (length (drop 4 buf)) <? n) eqn:E; [reflexivity|].
    destruct (frame_extend (drop 4 buf) more n E) as (E1 & E2 & E3).
    cbn [expectedLength buffer]. now rewrite E1, E2, E3.
Qed.

Lemma loop_fuel (fuel fuel' : nat) (this : FrameReader) (s : S) r :
  loop onFrame fuel this s = Some r -> (fuel <= fuel')%nat ->
  loop onFrame fuel' this s = Some r.
Proof.
  revert fuel' this s. induction fuel as [|fuel IH]; intros fuel' this s;
    [discriminate|].
  intros H Hle. destruct fuel' as [|fuel']; [lia|]. simpl in *.
  destruct (round this) as [r' c | r' frame]; [exact H|].
  destruct (onFrame frame s) as [s' [x|]]; [exact H|].
  apply IH; [exact H | lia].
Qed.

(** The loop does not end by returning: with more bytes it ends the same
    way, after the same calls of the callback. *)
Lemma loop_extend_stop (more : Buffer) (fuel : nat) :
  forall (this this1 : FrameReader) (s s1 : S) (c : Completion X),
  loop onFrame fuel this s = Some (this1, s1, c) -> c <> Returned ->
  loop onFrame fuel (extend more this) s = Some (extend more this1, s1, c).
Proof.
  induction fuel as [|fuel IH]; intros this this1 s s1 c H Hc;
    [discriminate|].
  simpl in *. pose proof (round_extend more this) as HR.
  destruct (round this) as [r' c' | r' frame].
  - injection H as -> -> ->.
    destruct c as [|e|x]; [congruence | now rewrite HR | contradiction].
  - rewrite HR. destruct (onFrame frame s) as [s' [x|]].
    + now injection H as <- <- <-.
    + now apply IH.
Qed.

(** The loop ends by returning: with more bytes it goes on as the loop of
    the next call does. *)
Lemma loop_extend_return (more : Buffer) (fuel : nat) :
  forall (this this1 : FrameReader) (s s1 : S),
  loop onFrame fuel this s = Some (this1, s1, Returned) ->
  forall fuel1 r, loop onFrame fuel1 (extend more this1) s1 = Some r ->
  exists fuel', loop onFrame fuel' (extend more this) s = Some r.
Proof.
  induction fuel as [|fuel IH]; intros this this1 s s1 H fuel1 r H1;
    [discriminate|].
  simpl in H. pose proof (round_extend more this) as HR.
  destruct (round this) as [r' c' | r' frame].
  - injection H as -> -> ->.
    destruct fuel1 as [|fuel1]; [discriminate|].
    exists (Datatypes.S fuel1). simpl in *. now rewrite HR.
  - destruct (onFrame frame s) as [s' [x|]] eqn:EF; [discriminate|].
    destruct (IH _ _ _ _ H fuel1 r H1) as [fuel' H'].
    exists (Datatypes.S fuel'). simpl. now rewrite HR, EF.
Qed.

Lemma round_length (this : FrameReader) :
  match round (X:=X) this with
  | Frame this' _ | Leave this' _ =>
    (length (buffer this') <= length (buffer this))%nat
  end.
Proof.
  destruct this as [buf [n|]]; unfold round; cbn [expectedLength buffer].
  - destruct (Z.of_nat (length buf) <? n); simpl; [lia|].
    rewrite length_drop. lia.
  - destruct (length buf <? 4)%nat; simpl; [lia|].
    destruct (readUInt32BE buf) as [n|]; simpl; [|lia].
    destruct (n >? MAX_FRAME); simpl; [rewrite length_drop; lia|].
    destruct (Z.of_nat (length (drop 4 buf)) <? n); simpl;
      rewrite ?length_drop; lia.
Qed.

Lemma loop_length (fuel : nat) :
  forall (this this' : FrameReader) (s s' : S) (c : Completion X),
  loop onFrame fuel this s = Some (this', s', c) ->
  (length (buffer this') <= length (buffer this))%nat.
Proof.
  induction fuel as [|fuel IH]; intros this this' s s' c H; [discriminate|].
  simpl in H. pose proof (round_length this) as HL.
  destruct (round this) as [r c' | r frame].
  - now injection H as -> _ _.
  - destruct (onFrame frame s) as [s1 [x|]].
    + now injection H as -> _ _.
    + apply IH in H. lia.
Qed.

(** X5: whatever the reader holds, whatever the chunk and whatever the
    callback does, the [while (true)] loop of [push] comes to an end: the
    call returns, throws, or is stopped by its callback; and the reader
    never holds more bytes afterwards than it held before plus the
    chunk. *)
Theorem push_terminates (this : FrameReader) (chunk : Buffer) (s : S) :
  exists (this' : FrameReader) (s' : S) (c : Completion X),
    push onFrame this chunk s = Some (this', s', c) /\
    (length (buffer this') <= length (buffer this) + length chunk)%nat.
Proof.
  destruct (push_total onFrame this chunk s) as [[[this' s'] c] E].
  exists this', s', c. split; [exact E|].
  unfold push in E. apply loop_length in E. simpl in E.
  rewrite length_app in E. exact E.
Qed.

(** X6: where the chunks are cut does not matter, whatever the bytes are
    and whatever the reader holds: pushing [a] and, when that call
    returns, pushing [b] gives what pushing [a ++ b] at once gives: the
    same calls of the callback and the same reader.  When the call for
    [a] throws, or its callback stops the process, the call for [a ++ b]
    ends in the same way after the same calls of the callback, with [b]
    left in the buffer. *)
Theorem push_chunk_boundary (this : FrameReader) (a b : Buffer) (s : S) :
  match push onFrame this a s with
  | Some (this1, s1, Returned) =>
    push onFrame this (a ++ b) s = push onFrame this1 b s1
  | Some (this1, s1, c) =>
    push onFrame this (a ++ b) s
    = Some ({| buffer := buffer this1 ++ b;
               expectedLength := expectedLength this1 |}, s1, c)
  | None => False
  end.
Proof.
  destruct (push_total onFrame this a s) as [[[this1 s1] c] E]. rewrite E.
  destruct (push_total onFrame this (a ++ b) s) as [r Er].
  assert (Eab : forall fuel r',
            loop onFrame fuel
              (extend b {| buffer := buffer this ++ a;
                           expectedLength := expectedLength this |}) s
            = Some r' -> r = r').
  { intros fuel r' H. unfold push in Er. unfold extend in H.
    cbn [expectedLength buffer] in *. rewrite <- app_assoc in H.
    apply (loop_fuel _ (fuel + (2 + length (buffer this ++ a ++ b)))) in H;
      [|lia].
    apply (loop_fuel _ (fuel + (2 + length (buffer this ++ a ++ b)))) in Er;
      [|lia].
    congruence. }
  unfold push in E.
  assert (Hstop : c <> Returned ->
            push onFrame this (a ++ b) s = Some (extend b this1, s1, c)).
  { intros Hc. rewrite Er. f_equal.
    apply (Eab _ _ (loop_extend_stop b _ _ _ _ _ _ E Hc)). }
  destruct c as [|e|x]; [|now apply Hstop..].
  destruct (push_total onFrame this1 b s1) as [r1 E1]. rewrite Er, E1.
  f_equal. unfold push in E1.
  destruct (loop_extend_return b _ _ _ _ _ E _ _ E1) as [fuel' H].
  exact (Eab _ _ H).
Qed.

End Extend.

(** *** More about [normalize] *)

(** X20: normalising twice is normalising once: what [normalize] returns
    it returns unchanged when it is given it again, whatever the value
    and whatever the runtime; and when [normalize] throws there is
    nothing to give it again. *)
Theorem normalize_idempotent (ToString : value -> option string)
    (Buffer_from : value -> option Buffer)
    (typedArraySet : bool -> Buffer -> string -> Assignment) (v : value) :
  andThen (normalize ToString Buffer_from typedArraySet v)
          (normalize ToString Buffer_from typedArraySet)
  = normalize ToString Buffer_from typedArraySet v.
Proof.
  pose proof (normalize_result ToString Buffer_from typedArraySet v) as H.
  destruct (normalize ToString Buffer_from typedArraySet v) as [w|e];
    [|reflexivity].
  simpl. apply H.
Qed.

(** *** More about [main]: what is relayed, what is refused *)

(** What the callback does with a message that does not end the process:
    its bytes go to one of the two streams, or nothing happens. *)
Inductive Relayed :=
| ToStdout (data : Buffer)
| ToStderr (data : Buffer)
| Ignored.

Definition relay (io : IO) (out : Relayed) : IO :=
  match out with
  | ToStdout data => stdout_write data io
  | ToStderr data => stderr_write data io
  | Ignored => io
  end.

Definition toStdout (out : Relayed) : option Output :=
  match out with ToStdout data => Some (Bytes data) | _ => None end.

Definition toStderr (out : Relayed) : option Output :=
  match out with ToStderr data => Some (Bytes data) | _ => None end.

Lemma relay_all (outs : list Relayed) (io : IO) :
  stdout (fold_left relay outs io) = stdout io ++ omap toStdout outs /\
  stderr (fold_left relay outs io) = stderr io ++ omap toStderr outs /\
  sent (fold_left relay outs io) = sent io /\
  ended (fold_left relay outs io) = ended io.
Proof.
  revert io. induction outs as [|out outs IH]; intros io.
  - simpl. now rewrite !app_nil_r.
  - simpl fold_left. destruct (IH (relay io out)) as (H1 & H2 & H3 & H4).
    rewrite H1, H2, H3, H4.
    destruct out; simpl; rewrite <- ?app_assoc; repeat split.
Qed.

Lemma get_defined (v : value) (name name' : string) (x : value) :
  get v name = Some x -> is_Some (get v name').
Proof. destruct v; simpl; try discriminate; eauto. Qed.

Lemma getOwn_is_Some (props : list (string * value)) (name : string) :
  is_Some (getOwn props name) -> name ∈ (fst <$> props).
Proof.
  unfold getOwn. induction props as [|[k v] props IH]; simpl.
  - intros [? [=]].
  - destruct (String.eqb_spec k name) as [->|_];
      [intros _; apply list_elem_of_here|].
    intros H. apply list_elem_of_further, IH, H.
Qed.

Section Relay.

Variable ToString : value -> option string.
Variable Buffer_from : value -> option Buffer.
Variable typedArraySet : bool -> Buffer -> string -> Assignment.
Variable stream_write : value -> option Buffer.
Variable cbor_encode : value -> Buffer.
Variable cbor_decodeFirstSync : Buffer -> value + Error.

Abbreviation bytesOf := (chunkOf Buffer_from stream_write).

(** The normalised message is an [exec_output] for one of the streams
    (every [stream] but ["stdout"] means the standard error stream), or a
    message of a type the callback has no case for. *)
Definition relays (message : value) (out : Relayed) : Prop :=
  exists t,
    get message "t" = Some t /\
    match out with
    | Ignored =>
      isString t "exec_output" = false /\
      isString t "exec_response" = false /\ isString t "error" = false
    | ToStdout data =>
      isString t "exec_output" = true /\
      exists p d stream,
        get message "p" = Some p /\ get p "data" = Some d /\
        get p "stream" = Some stream /\ bytesOf d = Some data /\
        isString stream "stdout" = true
    | ToStderr data =>
      isString t "exec_output" = true /\
      exists p d stream,
        get message "p" = Some p /\ get p "data" = Some d /\
        get p "stream" = Some stream /\ bytesOf d = Some data /\
        isString stream "stdout" = false
    end.

(** The frame decodes to a value that [normalize] makes into a message
    that is relayed as [out]. *)
Definition carries (frame : Buffer) (out : Relayed) : Prop :=
  exists raw message,
    cbor_decodeFirstSync frame = inl raw /\
    normalize ToString Buffer_from typedArraySet raw = inl message /\
    relays message out.

Lemma onMessage_relays (raw message : value) (out : Relayed) (io : IO) :
  normalize ToString Buffer_from typedArraySet raw = inl message ->
  relays message out ->
  onMessage ToString Buffer_from typedArraySet stream_write raw io
  = (relay io out, None).
Proof.
  intros Hn (t & Ht & H). unfold onMessage. rewrite Hn, Ht.
  destruct out as [data|data|].
  - destruct H as (-> & p & d & stream & -> & -> & -> & -> & ->).
    reflexivity.
  - destruct H as (-> & p & d & stream & -> & -> & -> & -> & ->).
    reflexivity.
  - destruct H as (-> & -> & ->). reflexivity.
Qed.

Lemma deliver_relays (frames : list Buffer) (outs : list Relayed) :
  Forall2 carries frames outs ->
  forall io,
    deliver (onFrame ToString Buffer_from typedArraySet stream_write
                     cbor_decodeFirstSync) frames io
    = (fold_left relay outs io, None).
Proof.
  induction 1 as [|frame out frames outs (raw & message & Hd & Hn & Hr) _ IH];
    intros io; [reflexivity|].
  simpl. unfold onFrame at 1. rewrite Hd.
  rewrite (onMessage_relays raw message out io Hn Hr). apply IH.
Qed.

Lemma run_relays (args : Args) (chunks : list Buffer) :
  forall (reader : FrameReader) (io : IO) (frames : list Buffer)
         (outs : list Relayed) (surplus : Buffer),
  accepted reader -> incomplete (pending reader) ->
  Forall fits frames -> Forall2 carries frames outs -> incomplete surplus ->
  pending reader ++ concat chunks = flat_map frameBytes frames ++ surplus ->
  exists reader',
    run ToString Buffer_from typedArraySet stream_write cbor_encode
        cbor_decodeFirstSync args
        (Running reader io) (Data <$> chunks)
    = Some (Running reader' (fold_left relay outs io)) /\
    pending reader' = surplus.
Proof.
  induction chunks as [|chunk chunks IH];
    intros reader io frames outs surplus Hacc Hidle Hfits Hcar Hinc E.
  - simpl in E. rewrite app_nil_r in E. exists reader.
    destruct Hcar as [|frame out frames outs _ _].
    + split; [reflexivity | exact E].
    + exfalso. inversion Hfits; subst.
      rewrite E, frames_cons, <- app_assoc in Hidle.
      eapply incomplete_no_frame; eassumption.
  - simpl in E. rewrite app_assoc in E.
    destruct (split_stream frames surplus _ _ Hfits Hinc E)
      as (ps1 & ps2 & s1 & -> & Hs1 & Hw & Hrest).
    apply Forall_app in Hfits as [Hfits1 Hfits2].
    apply Forall2_app_inv_l in Hcar as (outs1 & outs2 & Hc1 & Hc2 & ->).
    pose proof (push_frames
                  (onFrame ToString Buffer_from typedArraySet stream_write
                           cbor_decodeFirstSync)
                  reader chunk io ps1 s1 Hacc Hfits1 Hs1 Hw) as H.
    rewrite (deliver_relays ps1 outs1 Hc1) in H.
    destruct H as (reader1 & EP & Hacc1 & Hp1).
    rewrite <- Hp1 in Hrest, Hs1.
    destruct (IH reader1 (fold_left relay outs1 io) ps2 outs2 surplus
                 Hacc1 Hs1 Hfits2 Hc2 Hinc Hrest) as (reader' & ER & Hp').
    exists reader'. split; [|exact Hp'].
    rewrite fold_left_app.
    change (Data <$> chunk :: chunks) with (Data chunk :: (Data <$> chunks)).
    cbn [run step]. unfold onData. rewrite EP. exact ER.
Qed.

(** X10: the output of the command reaches the two streams whole and in
    order, however the messages that carry it are cut into chunks: after
    the chunks of a stream of frames that are [exec_output] messages, or
    messages of a type the client does not know, the process is still
    running, the data of the messages for ["stdout"] have been written to
    the standard output in the order of the frames, the data of all the
    other [exec_output] messages to the standard error stream in that
    order, the unknown messages have left no trace, and nothing has been
    sent.  The type, the payload and its fields are what the handler
    reads: own properties of the normalised message or properties of its
    prototypes. *)
Theorem output_relayed_in_order (args : Args) (frames chunks : list Buffer)
    (outs : list Relayed) (surplus : Buffer) (io : IO) :
  Forall fits frames -> Forall2 carries frames outs -> incomplete surplus ->
  concat chunks = flat_map frameBytes frames ++ surplus ->
  exists reader' io',
    run ToString Buffer_from typedArraySet stream_write cbor_encode
        cbor_decodeFirstSync args
        (Running newFrameReader io) (Data <$> chunks)
    = Some (Running reader' io') /\
    pending reader' = surplus /\
    stdout io' = stdout io ++ omap toStdout outs /\
    stderr io' = stderr io ++ omap toStderr outs /\
    sent io' = sent io /\ ended io' = ended io.
Proof.
  intros Hfits Hcar Hinc E.
  destruct (run_relays args chunks newFrameReader io frames outs surplus)
    as (reader' & ER & Hp); try assumption;
    [apply accepted_new | apply incomplete_nil|].
  exists reader', (fold_left relay outs io).
  split; [exact ER | split; [exact Hp | apply relay_all]].
Qed.

(** A message from which the callback does not come back: reading [t]
    fails, or the message is of one of the three types and reading a
    field of its [p] fails, or it is an [exec_output] whose data cannot
    be written. *)
Definition malformed (message : value) : Prop :=
  get message "t" = None \/
  (exists t p,
     get message "t" = Some t /\
     isString t "exec_output" || isString t "exec_response"
       || isString t "error" = true /\
     get message "p" = Some p /\ (p = VNull \/ p = VUndefined)) \/
  (exists t p d,
     get message "t" = Some t /\ isString t "exec_output" = true /\
     get message "p" = Some p /\ get p "data" = Some d /\
     bytesOf d = None).

(** The decoded value does not get through the callback: [normalize]
    throws, or the normalised message is malformed. *)
Definition refused (raw : value) : Prop :=
  (exists e, normalize ToString Buffer_from typedArraySet raw = inr e) \/
  (exists message,
     normalize ToString Buffer_from typedArraySet raw = inl message /\
     malformed message).

Lemma onMessage_refused (raw : value) (io : IO) :
  refused raw ->
  onMessage ToString Buffer_from typedArraySet stream_write raw io
  = (io, Some (Uncaught TypeError)).
Proof.
  unfold onMessage. intros [[e He] | (message & -> & Hbad)].
  - pose proof (normalize_result ToString Buffer_from typedArraySet raw) as H.
    rewrite He in H |- *. now subst e.
  - destruct Hbad
      as [-> | [(t & p & -> & Ht & -> & Hp)
               | (t & p & d & -> & -> & -> & Hd & Hb)]].
    + reflexivity.
    + assert (Hget : forall name, get p name = None)
        by (intros name; destruct Hp as [-> | ->]; reflexivity).
      rewrite !Hget.
      destruct (isString t "exec_output"); [reflexivity|].
      destruct (isString t "exec_response"); [reflexivity|].
      destruct (isString t "error"); [reflexivity | discriminate].
    + rewrite Hd.
      destruct (get_defined p "data" "stream" d Hd) as [stream ->].
      now rewrite Hb.
Qed.

(** X11: a value that [normalize] cannot convert, a message that is
    [null] or [undefined], a message of one of the three known types
    whose [p] is missing or [null], and an [exec_output] whose data
    cannot be made into a [Buffer] all end the process by a [TypeError]
    that nothing catches: the frames before it have been handled, nothing
    is written for the message itself, the socket is not ended by the
    client, and the status is 1. *)
Theorem malformed_message_uncaught (args : Args) (reader : FrameReader)
    (io io1 : IO) (chunk : Buffer) (before : list Buffer)
    (frame rest : Buffer) (raw : value) :
  accepted reader -> Forall fits before -> fits frame ->
  pending reader ++ chunk
  = flat_map frameBytes before ++ frameBytes frame ++ rest ->
  deliver (onFrame ToString Buffer_from typedArraySet stream_write
                   cbor_decodeFirstSync) before io
  = (io1, None) ->
  cbor_decodeFirstSync frame = inl raw ->
  refused raw ->
  step ToString Buffer_from typedArraySet stream_write cbor_encode
       cbor_decodeFirstSync args
       (Running reader io) (Data chunk)
  = Some (Halted io1 (Uncaught TypeError)) /\
  exitStatus (Uncaught TypeError) = Some 1.
Proof.
  intros Hacc Hbefore Hfit Hp Hd Hdec Hbad. split; [|reflexivity].
  simpl. apply (onData_stops ToString Buffer_from typedArraySet stream_write
                  cbor_decodeFirstSync
                  chunk reader io io1 _ before frame rest);
    try assumption.
  unfold onFrame. rewrite Hdec. now apply onMessage_refused.
Qed.

(** X12: the [connect] handler announces the connection on the standard
    output and writes one thing to the socket: the four bytes of the
    length of the encoded request followed by the encoded request.  A
    [FrameReader] at the other end, fed these bytes in chunks of any
    sizes, calls its callback once, with the encoded request.  The
    request has the command under [p.cmd], and [p.argv], [p.env] and
    [p.cwd] only when there is an argument, a variable, a directory that
    is not the empty string. *)
Theorem request_is_one_frame (args : Args) (reader : FrameReader) (io : IO) :
  (fits (cbor_encode (buildExecRequest args)) ->
   step ToString Buffer_from typedArraySet stream_write cbor_encode
        cbor_decodeFirstSync args
        (Running reader io) Connect
   = Some (Running reader
             {| stdout :=
                  stdout io
                  ++ [Line ("connected to " ++ default "" (sock args))%string];
                stderr := stderr io;
                sent := sent io
                        ++ [frameBytes (cbor_encode (buildExecRequest args))];
                ended := ended io |}) /\
   forall chunks : list Buffer,
     concat chunks = frameBytes (cbor_encode (buildExecRequest args)) ->
     feed chunks newFrameReader []
     = Some (newFrameReader, [cbor_encode (buildExecRequest args)],
             Returned)) /\
  exists payload : list (string * value),
    buildExecRequest args
    = VObject [("v", VNumber 1); ("t", VString "exec_request");
               ("id", VNumber (id args)); ("p", VObject payload)] /\
    getOwn payload "cmd" = Some (optString (cmd args)) /\
    getOwn payload "argv"
    = match argv args with
      | [] => None
      | _ => Some (VArray (VString <$> argv args))
      end /\
    getOwn payload "env"
    = match env args with
      | [] => None
      | _ => Some (VArray (VString <$> env args))
      end /\
    getOwn payload "cwd"
    = (if missing (cwd args) then None else Some (optString (cwd args))) /\
    forall name, is_Some (getOwn payload name) ->
      name ∈ ["cmd"; "argv"; "env"; "cwd"].
Proof.
  split.
  - intros Hfit. split.
    + simpl. unfold onConnect. now rewrite (encodeFrame_fits _ Hfit).
    + intros chunks E.
      destruct (feed_frames chunks newFrameReader []
                  [cbor_encode (buildExecRequest args)] [])
        as (this' & EF & _ & Hp).
      * apply accepted_new.
      * apply incomplete_nil.
      * now repeat constructor.
      * apply incomplete_nil.
      * rewrite E, frames_cons. simpl. now rewrite !app_nil_r.
      * apply pending_nil in Hp. now subst this'.
  - eexists. split; [reflexivity|].
    destruct args as [sock cmd [|a argv] [|e env] [[|c cwd]|] id];
      cbn [Exec.argv Exec.env Exec.cwd Exec.cmd length Nat.ltb Nat.leb
           missing negb];
      (repeat split; try reflexivity;
       intros name H%getOwn_is_Some; vm_compute fmap in H;
       repeat rewrite elem_of_cons in H; rewrite elem_of_nil in H;
       repeat rewrite elem_of_cons; tauto).
Qed.

End Relay.

(** A stand-in for the decoder, for the messages that are relayed: the
    first byte of a frame names the stream, the other bytes are the
    data; an empty frame is a message of a type unknown to the client.
    The message for the standard error stream is a [Map] with the payload
    under ["__proto__"], so that the client finds [p] in the prototype of
    the normalised message. *)
Definition outputDecode (frame : Buffer) : value + Error :=
  match frame with
  | [] => inl (VObject [("t", VString "ping")])
  | b :: data =>
    if Byte.eqb b x01 then
      inl (VObject
             [("t", VString "exec_output");
              ("p", VObject [("stream", VString "stdout");
                             ("data", VUint8Array true data)])])
    else
      inl (VMap
             [(VNumber 1, VNumber 0);
              (VString "t", VString "exec_output");
              (VString "__proto__",
               VMap [(VString "p",
                      VMap [(VString "stream", VString "stderr");
                            (VString "data", VUint8Array false data)])])])
  end.

Lemma output_relayed_in_order_witness :
  Forall fits [[x01; x68]; []; [x02; x69]] /\
  Forall2 (carries showValue noBuffer plainSet noBuffer outputDecode)
          [[x01; x68]; []; [x02; x69]]
          [ToStdout [x68]; Ignored; ToStderr [x69]] /\
  incomplete [x00] /\
  exists reader' io',
    run showValue noBuffer plainSet noBuffer toyEncode outputDecode someArgs
        (Running newFrameReader io0)
        (Data <$> bytewise
                    (flat_map frameBytes [[x01; x68]; []; [x02; x69]]
                     ++ [x00]))
    = Some (Running reader' io') /\
    pending reader' = [x00] /\
    stdout io' = [Bytes [x68]] /\ stderr io' = [Bytes [x69]] /\
    sent io' = [] /\ ended io' = false.
Proof.
  assert (Hfit : forall p : Buffer, (length p <= 2)%nat -> fits p).
  { intros p Hp. unfold fits, MAX_FRAME. lia. }
  assert (Hfits : Forall fits [[x01; x68]; []; [x02; x69]])
    by (repeat constructor; apply Hfit; simpl; lia).
  assert (Hcar : Forall2 (carries showValue noBuffer plainSet noBuffer
                                  outputDecode)
                   [[x01; x68]; []; [x02; x69]]
                   [ToStdout [x68]; Ignored; ToStderr [x69]]).
  { repeat constructor.
    - do 2 eexists. split; [reflexivity | split; [reflexivity|]].
      eexists. split; [reflexivity|].
      split; [reflexivity|]. do 3 eexists. repeat split.
    - do 2 eexists. split; [reflexivity | split; [reflexivity|]].
      eexists. split; [reflexivity|]. repeat split.
    - do 2 eexists. split; [reflexivity | split; [reflexivity|]].
      eexists. split; [reflexivity|].
      split; [reflexivity|]. do 3 eexists. repeat split. }
  assert (Hinc : incomplete [x00]).
  { exists [], [x00; x00; x00]. repeat split; [apply Hfit; simpl; lia|].
    discriminate. }
  split; [exact Hfits | split; [exact Hcar | split; [exact Hinc|]]].
  exact (output_relayed_in_order showValue noBuffer plainSet noBuffer
           toyEncode outputDecode
           someArgs _ _ _ [x00] io0 Hfits Hcar Hinc (concat_bytewise _)).
Defined.

(** The same conversion, which throws for an object whose own [toString]
    hides the one of [Object.prototype]: the examples give such an object
    a number under that name, and [String] cannot call a number. *)
Definition unprintable (v : value) : option string :=
  match v with
  | VObject props => if hasOwn props "toString" then None else showValue v
  | _ => showValue v
  end.

Lemma malformed_message_uncaught_witness :
  accepted newFrameReader /\ fits [x03] /\
  refused unprintable noBuffer plainSet noBuffer
          (VMap [(VObject [("toString", VNumber 1)], VNumber 0)]) /\
  step unprintable noBuffer plainSet noBuffer toyEncode
       (fun _ => inl (VMap [(VObject [("toString", VNumber 1)], VNumber 0)]))
       someArgs
       (Running newFrameReader io0) (Data (frameBytes [x03]))
  = Some (Halted io0 (Uncaught TypeError)) /\
  refused showValue noBuffer plainSet noBuffer VNull /\
  step showValue noBuffer plainSet noBuffer toyEncode (fun _ => inl VNull)
       someArgs
       (Running newFrameReader io0) (Data (frameBytes [x03]))
  = Some (Halted io0 (Uncaught TypeError)).
Proof.
  assert (Hfit : fits [x03]) by (unfold fits, MAX_FRAME; simpl; lia).
  assert (Hbad : refused unprintable noBuffer plainSet noBuffer
                   (VMap [(VObject [("toString", VNumber 1)], VNumber 0)]))
    by (left; now exists TypeError).
  assert (Hnull : refused showValue noBuffer plainSet noBuffer VNull)
    by (right; exists VNull; split; [reflexivity | now left]).
  split; [apply accepted_new | split; [exact Hfit | split; [exact Hbad|]]].
  split; [|split; [exact Hnull|]].
  - exact (proj1 (malformed_message_uncaught unprintable noBuffer plainSet
                    noBuffer toyEncode
                    (fun _ => inl (VMap [(VObject [("toString", VNumber 1)],
                                          VNumber 0)]))
                    someArgs newFrameReader io0 io0
                    (frameBytes [x03]) [] [x03] [] _
                    accepted_new (List.Forall_nil _) Hfit eq_refl eq_refl
                    eq_refl Hbad)).
  - exact (proj1 (malformed_message_uncaught showValue noBuffer plainSet
                    noBuffer toyEncode
                    (fun _ => inl VNull) someArgs newFrameReader io0 io0
                    (frameBytes [x03]) [] [x03] [] VNull
                    accepted_new (List.Forall_nil _) Hfit eq_refl eq_refl
                    eq_refl Hnull)).
Defined.

Lemma request_is_one_frame_witness :
  fits (toyEncode (buildExecRequest someArgs)) /\
  feed (bytewise (frameBytes (toyEncode (buildExecRequest someArgs))))
       newFrameReader []
  = Some (newFrameReader, [toyEncode (buildExecRequest someArgs)], Returned).
Proof.
  assert (Hfit : fits (toyEncode (buildExecRequest someArgs)))
    by (unfold fits, MAX_FRAME; simpl; lia).
  split; [exact Hfit|].
  exact (proj2 (proj1 (request_is_one_frame showValue noBuffer plainSet
                         noBuffer toyEncode
                         toyDecode someArgs newFrameReader io0) Hfit)
           _ (concat_bytewise _)).
Defined.

End Exec.

(* ===================================================================== *)
(** ** host/src/exec.ts: the command line *)
(* ===================================================================== *)

Module CommandLine.
Import Exec.

(** [args.id] is the literal [1] or [Number(argv[++i])]; the conversion is
    the runtime's and is kept as it is written. *)
Inductive Id :=
| One
| NumberOf (text : option string).

(** What [parseArgs] builds.  [argv[++i]] is [undefined] when the option
    is the last word of the command line, so every value is optional, the
    elements of [argv] and [env] included. *)
Record Args := {
  sock : option string;
  cmd : option string;
  argv : list (option string);
  env : list (option string);
  cwd : option string;
  id : Id
}.

(** The [for] loop of [parseArgs], from the word at index [i] on: [arg]
    is [argv[i]], and [next] is what the cases with [argv[++i]] do: they
    take the word after [arg] and go on behind it, and take [undefined]
    when [arg] is the last word, after which the loop ends. *)
Fixpoint loop (words : list string) (args : Args) (io : IO)
  : IO * (Args + Halt) :=
  match words with
  | [] => (io, inl args)
  | arg :: rest =>
    let next (assign : option string -> Args) :=
      match rest with
      | [] => (io, inl (assign None))
      | value :: rest => loop rest (assign (Some value)) io
      end in
    if String.eqb arg "--sock" then
      next (fun value =>
              {| sock := value; cmd := cmd args; argv := argv args;
                 env := env args; cwd := cwd args; id := id args |})
    else if String.eqb arg "--cmd" then
      next (fun value =>
              {| sock := sock args; cmd := value; argv := argv args;
                 env := env args; cwd := cwd args; id := id args |})
    else if String.eqb arg "--arg" then
      next (fun value =>
              {| sock := sock args; cmd := cmd args;
                 argv := argv args ++ [value];
                 env := env args; cwd := cwd args; id := id args |})
    else if String.eqb arg "--env" then
      next (fun value =>
              {| sock := sock args; cmd := cmd args; argv := argv args;
                 env := env args ++ [value]; cwd := cwd args;
                 id := id args |})
    else if String.eqb arg "--cwd" then
      next (fun value =>
              {| sock := sock args; cmd := cmd args; argv := argv args;
                 env := env args; cwd := value; id := id args |})
    else if String.eqb arg "--id" then
      next (fun value =>
              {| sock := sock args; cmd := cmd args; argv := argv args;
                 env := env args; cwd := cwd args; id := NumberOf value |})
    else if String.eqb arg "--help" || String.eqb arg "-h" then
      (usage io, inr (Exit (VNumber 0)))
    else
      (usage (console_error ("Unknown argument: " ++ arg)%string io),
       inr (Exit (VNumber 1)))
  end.

Definition parseArgs (words : list string) (io : IO) : IO * (Args + Halt) :=
  loop words
       {| sock := None; cmd := None; argv := []; env := []; cwd := None;
          id := One |}
       io.

(** [main] up to [net.createConnection]: [None] when it goes on to
    connect. *)
Definition main (process_argv : list string) : IO * option Halt :=
  let io := {| stdout := []; stderr := []; sent := []; ended := false |} in
  match parseArgs (drop 2 process_argv) io with
  | (io, inr halt) => (io, Some halt)
  | (io, inl args) =>
    if missing (sock args) || missing (cmd args)
    then (usage io, Some (Exit (VNumber 1)))
    else (io, None)
  end.

(** *** Command lines made of options and values *)

Inductive Flag := FSock | FCmd | FArg | FEnv | FCwd | FId.

#[local] Instance Flag_eq_dec : EqDecision Flag.
Proof. solve_decision. Defined.

Definition flagName (f : Flag) : string :=
  match f with
  | FSock => "--sock"
  | FCmd => "--cmd"
  | FArg => "--arg"
  | FEnv => "--env"
  | FCwd => "--cwd"
  | FId => "--id"
  end.

(** The words of a list of options, each followed by its value. *)
Definition render (opts : list (Flag * string)) : list string :=
  flat_map (fun '(f, value) => [flagName f; value]) opts.

(** The values given to one option, in the order of the command line. *)
Definition values (f : Flag) (opts : list (Flag * string)) : list string :=
  omap (fun '(g, value) => if decide (g = f) then Some value else None) opts.

(** What the case of option [f] assigns. *)
Definition assigned (f : Flag) (value : option string) (args : Args) : Args :=
  match f with
  | FSock => {| sock := value; cmd := cmd args; argv := argv args;
                env := env args; cwd := cwd args; id := id args |}
  | FCmd => {| sock := sock args; cmd := value; argv := argv args;
               env := env args; cwd := cwd args; id := id args |}
  | FArg => {| sock := sock args; cmd := cmd args;
               argv := argv args ++ [value];
               env := env args; cwd := cwd args; id := id args |}
  | FEnv => {| sock := sock args; cmd := cmd args; argv := argv args;
               env := env args ++ [value]; cwd := cwd args; id := id args |}
  | FCwd => {| sock := sock args; cmd := cmd args; argv := argv args;
               env := env args; cwd := value; id := id args |}
  | FId => {| sock := sock args; cmd := cmd args; argv := argv args;
              env := env args; cwd := cwd args; id := NumberOf value |}
  end.

Lemma loop_flag (f : Flag) (rest : list string) (args : Args) (io : IO) :
  loop (flagName f :: rest) args io
  = match rest with
    | [] => (io, inl (assigned f None args))
    | value :: rest => loop rest (assigned f (Some value) args) io
    end.
Proof. destruct f, rest; reflexivity. Qed.

Lemma loop_render (opts : list (Flag * string)) (rest : list string) :
  forall (args : Args) (io : IO),
  loop (render opts ++ rest) args io
  = loop rest
         (fold_left (fun args '(f, value) => assigned f (Some value) args)
                    opts args)
         io.
Proof.
  induction opts as [|[f value] opts IH]; intros args io; [reflexivity|].
  change (render ((f, value) :: opts) ++ rest)
    with (flagName f :: value :: (render opts ++ rest)).
  rewrite loop_flag. apply IH.
Qed.

(** The last value wins for the options that are assigned, and the values
    of the options that are pushed pile up in order. *)
Definition latest (given : list string) (before : option string)
  : option string :=
  match last given with
  | Some value => Some value
  | None => before
  end.

Lemma latest_cons (value : string) (given : list string)
    (before : option string) :
  latest (value :: given) before = latest given (Some value).
Proof. unfold latest. rewrite last_cons. now destruct (last given). Qed.

Lemma assigned_all (opts : list (Flag * string)) :
  forall args : Args,
  let args' :=
    fold_left (fun args '(f, value) => assigned f (Some value) args)
              opts args in
  sock args' = latest (values FSock opts) (sock args) /\
  cmd args' = latest (values FCmd opts) (cmd args) /\
  argv args' = argv args ++ (Some <$> values FArg opts) /\
  env args' = env args ++ (Some <$> values FEnv opts) /\
  cwd args' = latest (values FCwd opts) (cwd args) /\
  id args' = match last (values FId opts) with
             | Some value => NumberOf (Some value)
             | None => id args
             end.
Proof.
  induction opts as [|[f value] opts IH]; intros args.
  - simpl. now rewrite !app_nil_r.
  - simpl fold_left. cbv zeta.
    destruct (IH (assigned f (Some value) args))
      as (H1 & H2 & H3 & H4 & H5 & H6).
    rewrite H1, H2, H3, H4, H5, H6.
    destruct f; simpl; rewrite ?latest_cons, ?last_cons, <- ?app_assoc;
      repeat split; try reflexivity;
      now destruct (last (values FId opts)).
Qed.

(** X7: a command line made of options, each followed by a value, is
    accepted whatever the values are: a value that reads like an option,
    or like [--help], is a value all the same.  Nothing is printed; of the
    values given to [--sock], [--cmd], [--cwd] and [--id] the last one
    counts, and the values given to [--arg] and to [--env] are collected
    in the order in which they were given. *)
Theorem parseArgs_options (opts : list (Flag * string)) (io : IO) :
  exists args : Args,
    parseArgs (render opts) io = (io, inl args) /\
    sock args = last (values FSock opts) /\
    cmd args = last (values FCmd opts) /\
    argv args = Some <$> values FArg opts /\
    env args = Some <$> values FEnv opts /\
    cwd args = last (values FCwd opts) /\
    id args = match last (values FId opts) with
              | Some value => NumberOf (Some value)
              | None => One
              end.
Proof.
  eexists. split.
  - unfold parseArgs. rewrite <- (app_nil_r (render opts)).
    rewrite loop_render. reflexivity.
  - destruct (assigned_all opts
                {| sock := None; cmd := None; argv := []; env := [];
                   cwd := None; id := One |})
      as (H1 & H2 & H3 & H4 & H5 & H6).
    rewrite H1, H2, H3, H4, H5, H6. unfold latest. simpl.
    repeat split;
      match goal with |- context [last ?l] => now destruct (last l) end.
Qed.

(** X8: the first word that stands where an option is expected and is
    not one of the six options ends the run, whatever follows it:
    [--help] and [-h] print the usage line and exit with 0, any other
    word is reported on the standard error stream, the usage line is
    printed, and the exit code is 1. *)
Theorem parseArgs_stops (opts : list (Flag * string)) (arg : string)
    (rest : list string) (io : IO) :
  (forall f : Flag, arg <> flagName f) ->
  parseArgs (render opts ++ arg :: rest) io
  = if bool_decide (arg = "--help" \/ arg = "-h")
    then (usage io, inr (Exit (VNumber 0)))
    else (usage (console_error ("Unknown argument: " ++ arg)%string io),
          inr (Exit (VNumber 1))).
Proof.
  intros Hno. unfold parseArgs. rewrite loop_render.
  set (args := fold_left _ opts _). clearbody args.
  assert (Hf : forall f, String.eqb arg (flagName f) = false)
    by (intros f; apply String.eqb_neq, Hno).
  pose proof (Hf FSock) as E1. pose proof (Hf FCmd) as E2.
  pose proof (Hf FArg) as E3. pose proof (Hf FEnv) as E4.
  pose proof (Hf FCwd) as E5. pose proof (Hf FId) as E6.
  simpl in E1, E2, E3, E4, E5, E6.
  cbn [loop]. rewrite E1, E2, E3, E4, E5, E6.
  destruct (String.eqb_spec arg "--help") as [->|H1];
    [now rewrite bool_decide_eq_true_2 by now left|].
  destruct (String.eqb_spec arg "-h") as [->|H2];
    [now rewrite bool_decide_eq_true_2 by now right|].
  now rewrite bool_decide_eq_false_2 by (intros [?|?]; congruence).
Qed.

Lemma parseArgs_stops_witness :
  (forall f : Flag, "--verbose" <> flagName f) /\
  parseArgs (render [(FSock, "/tmp/s")] ++ "--verbose" :: ["--cmd"; "ls"]) io0
  = (usage (console_error "Unknown argument: --verbose" io0),
     inr (Exit (VNumber 1))).
Proof.
  assert (Hno : forall f : Flag, "--verbose" <> flagName f)
    by (intros []; discriminate).
  split; [exact Hno|].
  exact (parseArgs_stops [(FSock, "/tmp/s")] "--verbose" ["--cmd"; "ls"]
           io0 Hno).
Defined.

(** X9: [main] goes on to connect exactly when the last [--sock] and the
    last [--cmd] both have a value that is not the empty string; otherwise
    it prints the usage line and exits with 1 before any connection is
    made.  An option that is the last word of the command line takes
    [undefined] as its value, so a [--sock] or a [--cmd] at the very end
    undoes one given before it and the run ends in the same way. *)
Theorem main_needs_sock_and_cmd :
  (forall (node script : string) (opts : list (Flag * string)),
     main (node :: script :: render opts)
     = if missing (last (values FSock opts))
          || missing (last (values FCmd opts))
       then (usage io0, Some (Exit (VNumber 1)))
       else (io0, None)) /\
  (forall (node script : string) (opts : list (Flag * string)) (f : Flag),
     f = FSock \/ f = FCmd ->
     main (node :: script :: render opts ++ [flagName f])
     = (usage io0, Some (Exit (VNumber 1)))).
Proof.
  split.
  - intros node script opts. unfold main.
    change (drop 2 (node :: script :: render opts)) with (render opts).
    unfold parseArgs. rewrite <- (app_nil_r (render opts)), loop_render.
    destruct (assigned_all opts
                {| sock := None; cmd := None; argv := []; env := [];
                   cwd := None; id := One |}) as (H1 & H2 & _).
    cbn [loop]. rewrite H1, H2. unfold latest. simpl.
    destruct (last (values FSock opts)), (last (values FCmd opts));
      reflexivity.
  - intros node script opts f Hf. unfold main, parseArgs.
    change (drop 2 (node :: script :: render opts ++ [flagName f]))
      with (render opts ++ [flagName f]).
    rewrite loop_render, loop_flag.
    destruct Hf as [-> | ->]; simpl; [reflexivity|].
    now rewrite orb_true_r.
Qed.

Lemma main_needs_sock_and_cmd_witness :
  (FCmd = FSock \/ FCmd = FCmd) /\
  main ("node" :: "exec.js" :: render [(FSock, "/tmp/s"); (FCmd, "ls")])
  = (io0, None) /\
  main ("node" :: "exec.js" :: render [(FSock, "/tmp/s"); (FCmd, "ls")]
          ++ [flagName FCmd])
  = (usage io0, Some (Exit (VNumber 1))).
Proof.
  split; [now right | split].
  - exact (proj1 main_needs_sock_and_cmd "node" "exec.js"
             [(FSock, "/tmp/s"); (FCmd, "ls")]).
  - exact (proj2 main_needs_sock_and_cmd "node" "exec.js"
             [(FSock, "/tmp/s"); (FCmd, "ls")] FCmd (or_intror eq_refl)).
Defined.

End CommandLine.

(* ===================================================================== *)
(** ** host/test/helpers/vm-fixture.ts *)
(* ===================================================================== *)

Module VmFixture.

(** JavaScript runs one piece of code at a time: an [async] function runs
    without interruption from one [await] to the next.  The model has one
    event for each such piece; the scheduler, the virtual machines and the
    callers choose the order of the events. *)

(** *** [Semaphore]

    A resolver in the queue is written as the number of the task that
    waits for it. *)
Record Semaphore := {
  count : Z;
  queue : list nat
}.

(** [acquire()] called by task [t]: the gate is taken at once, or the
    task's resolver joins the queue. *)
Definition acquire (t : nat) (s : Semaphore) : Semaphore * bool :=
  if 0 <? count s then ({| count := count s - 1; queue := queue s |}, true)
  else ({| count := count s; queue := queue s ++ [t] |}, false).

(** [release()]: the first resolver of the queue is called, or the count
    goes up. *)
Definition release (s : Semaphore) : Semaphore * option nat :=
  match queue s with
  | next :: rest => ({| count := count s; queue := rest |}, Some next)
  | [] => ({| count := count s + 1; queue := [] |}, None)
  end.

(** *** The pool

    A JavaScript [Map] keeps its keys in the order in which they were
    first set; setting a key again keeps its place, deleting it gives the
    place up.  The pool is a finite map together with that order. *)

(** Objects are told apart by where they were made: a [VM] by the call of
    [VM.create] that made it, a semaphore by its place among the
    semaphores made so far. *)
Record VmEntry := {
  vm : nat;
  semaphore : nat
}.

(** Modelled from the spec: [VM.create] and [vm.stop] come from [src/vm],
    which is not among the sources.  [VM.create] is the pool's factory: an
    asynchronous call that later gives a new handle or fails, so its
    outcome reaches the pool as an event of its own ([CreateSettles]),
    some time after the call.

    The promise [created] of one call of [VM.create]: *)
Inductive Settlement :=
| InFlight
| Fulfilled (entry : VmEntry)
| Rejected.

Record Creation := {
  ckey : string;
  settled : Settlement
}.

(** What [getEntry] returns: a promise for the entry it found in the
    pool, or one that follows the creation with that number. *)
Inductive EntryPromise :=
| Existing (entry : VmEntry)
| Created (c : nat).

(** Where a call of [withVm] stands. *)
Inductive Stage :=
| AwaitEntry (p : EntryPromise)                  (* [await getEntry(...)] *)
| AwaitAcquire (entry : VmEntry) (granted : bool) (* [await ...acquire()] *)
| InCallback (entry : VmEntry)                   (* [await fn(entry.vm)] *)
| Finished (ok : bool).                          (* returned, or threw *)

Record Task := {
  tkey : string;
  stage : Stage
}.

Record World := {
  pool : gmap string VmEntry;
  pending : gmap string nat;
  order : list string;           (* the keys of [pool], oldest first *)
  creations : list Creation;     (* one for each call of [VM.create] *)
  semaphores : list Semaphore;   (* one for each [new Semaphore(1)] *)
  tasks : list Task;             (* one for each call of [withVm] *)
  stopped : list nat             (* the [VM]s that were told to stop *)
}.

Definition empty : World :=
  {| pool := ∅; pending := ∅; creations := []; semaphores := [];
     tasks := []; stopped := []; order := [] |}.

Definition getEntry (key : string) (w : World) : World * EntryPromise :=
  match pool w !! key with
  | Some existing => (w, Existing existing)
  | None =>
    match pending w !! key with
    | Some inFlight => (w, Created inFlight)
    | None =>
      let c := length (creations w) in
      ({| pool := pool w;
          pending := <[key := c]> (pending w);
          creations := creations w ++ [{| ckey := key; settled := InFlight |}];
          semaphores := semaphores w;
          tasks := tasks w;
          stopped := stopped w; order := order w |},
       Created c)
    end
  end.

(** The rest of the function inside [getEntry], once [VM.create] has
    settled. *)
Definition createSettles (c : nat) (ok : bool) (w : World) : World :=
  match creations w !! c with
  | Some {| ckey := key; settled := InFlight |} =>
    if ok then
      let entry := {| vm := c; semaphore := length (semaphores w) |} in
      {| pool := <[key := entry]> (pool w);
         pending := delete key (pending w);
         creations :=
           <[c := {| ckey := key; settled := Fulfilled entry |}]> (creations w);
         semaphores := semaphores w ++ [{| count := 1; queue := [] |}];
         tasks := tasks w;
         stopped := stopped w;
         order := match pool w !! key with
                  | Some _ => order w
                  | None => order w ++ [key]
                  end |}
    else
      {| pool := pool w;
         pending := delete key (pending w);
         creations :=
           <[c := {| ckey := key; settled := Rejected |}]> (creations w);
         semaphores := semaphores w;
         tasks := tasks w;
         stopped := stopped w; order := order w |}
  | _ => w
  end.

Definition setStage (t : nat) (st : Stage) (ts : list Task) : list Task :=
  match ts !! t with
  | Some task => <[t := {| tkey := tkey task; stage := st |}]> ts
  | None => ts
  end.

(** [withVm(key, options, fn)] up to its first [await]. *)
Definition callWithVm (key : string) (w : World) : World :=
  let '(w, p) := getEntry key w in
  {| pool := pool w; pending := pending w; creations := creations w;
     semaphores := semaphores w;
     tasks := tasks w ++ [{| tkey := key; stage := AwaitEntry p |}];
     stopped := stopped w; order := order w |}.

(** [withVm] from [await getEntry(...)] to [await ...acquire()]. *)
Definition enter (t : nat) (entry : VmEntry) (w : World) : World :=
  match semaphores w !! semaphore entry with
  | Some s =>
    let '(s, granted) := acquire t s in
    {| pool := pool w; pending := pending w; creations := creations w;
       semaphores := <[semaphore entry := s]> (semaphores w);
       tasks := setStage t (AwaitAcquire entry granted) (tasks w);
       stopped := stopped w; order := order w |}
  | None => w
  end.

Definition setTasks (ts : list Task) (w : World) : World :=
  {| pool := pool w; pending := pending w; creations := creations w;
     semaphores := semaphores w; tasks := ts; stopped := stopped w;
     order := order w |}.

(** The task goes on from the [await] it is suspended at, if what it
    waits for has settled. *)
Definition resume (t : nat) (w : World) : World :=
  match tasks w !! t with
  | Some {| stage := AwaitEntry (Existing entry) |} => enter t entry w
  | Some {| stage := AwaitEntry (Created c) |} =>
    match settled <$> creations w !! c with
    | Some (Fulfilled entry) => enter t entry w
    | Some Rejected => setTasks (setStage t (Finished false) (tasks w)) w
    | _ => w
    end
  | Some {| stage := AwaitAcquire entry true |} =>
    setTasks (setStage t (InCallback entry) (tasks w)) w
  | _ => w
  end.

(** The resolver of a queued task is called. *)
Definition grant (t : nat) (ts : list Task) : list Task :=
  match ts !! t with
  | Some {| stage := AwaitAcquire entry false |} =>
    setStage t (AwaitAcquire entry true) ts
  | _ => ts
  end.

(** [withVm] after [await fn(entry.vm)]: the [finally] block, then the
    result or the exception of [fn]. *)
Definition callbackSettles (t : nat) (ok : bool) (w : World) : World :=
  match tasks w !! t with
  | Some {| stage := InCallback entry |} =>
    match semaphores w !! semaphore entry with
    | Some s =>
      let '(s, next) := release s in
      let ts := setStage t (Finished ok) (tasks w) in
      {| pool := pool w; pending := pending w; creations := creations w;
         semaphores := <[semaphore entry := s]> (semaphores w);
         tasks := match next with Some n => grant n ts | None => ts end;
         stopped := stopped w; order := order w |}
    | None => w
    end
  | _ => w
  end.

Definition closeVm (key : string) (w : World) : World :=
  match pool w !! key with
  | None =>
    {| pool := pool w; pending := delete key (pending w);
       creations := creations w; semaphores := semaphores w;
       tasks := tasks w; stopped := stopped w; order := order w |}
  | Some entry =>
    {| pool := delete key (pool w); pending := delete key (pending w);
       creations := creations w; semaphores := semaphores w;
       tasks := tasks w; stopped := stopped w ++ [vm entry];
       order := filter (fun k => k <> key) (order w) |}
  end.

(** [Array.from(pool.values())]: the entries, oldest key first. *)
Definition values (w : World) : list VmEntry :=
  omap (fun key => pool w !! key) (order w).

Definition closeAllVms (w : World) : World :=
  {| pool := ∅; pending := ∅;
     creations := creations w; semaphores := semaphores w;
     tasks := tasks w;
     stopped := stopped w ++ (vm <$> values w); order := [] |}.

Inductive Event :=
| CallWithVm (key : string)
| CreateSettles (c : nat) (ok : bool)
| Resume (t : nat)
| CallbackSettles (t : nat) (ok : bool)
| CloseVm (key : string)
| CloseAllVms.

Definition step (w : World) (ev : Event) : World :=
  match ev with
  | CallWithVm key => callWithVm key w
  | CreateSettles c ok => createSettles c ok w
  | Resume t => resume t w
  | CallbackSettles t ok => callbackSettles t ok w
  | CloseVm key => closeVm key w
  | CloseAllVms => closeAllVms w
  end.

Definition run (w : World) (evs : list Event) : World :=
  fold_left step evs w.

(** [n] calls of [getEntry] for the same key, one after the other. *)
Fixpoint getEntries (key : string) (n : nat) (w : World)
  : World * list EntryPromise :=
  match n with
  | O => (w, [])
  | S n =>
    let '(w, p) := getEntry key w in
    let '(w, ps) := getEntries key n w in
    (w, p :: ps)
  end.

(** *** Who holds a gate, who waits for it *)

(** The gate a task holds at this stage: from the moment [acquire] lets
    it through to the [finally] block. *)
Definition held (st : Stage) : option nat :=
  match st with
  | AwaitAcquire entry true | InCallback entry => Some (semaphore entry)
  | _ => None
  end.

(** The gate in whose queue the task's resolver is. *)
Definition awaited (st : Stage) : option nat :=
  match st with
  | AwaitAcquire entry false => Some (semaphore entry)
  | _ => None
  end.

(** The entry a task has in hand. *)
Definition entryOf (st : Stage) : option VmEntry :=
  match st with
  | AwaitEntry (Existing entry) | AwaitAcquire entry _ | InCallback entry =>
    Some entry
  | _ => None
  end.

Definition atStage (f : Stage -> option nat) (ts : list Task) (t i : nat)
  : Prop :=
  exists task, ts !! t = Some task /\ f (stage task) = Some i.

Abbreviation holds := (atStage held).
Abbreviation waits := (atStage awaited).

Lemma setStage_lookup (t t' : nat) (st : Stage) (ts : list Task) :
  setStage t st ts !! t'
  = if decide (t = t')
    then (fun task => {| tkey := tkey task; stage := st |}) <$> ts !! t
    else ts !! t'.
Proof.
  unfold setStage. destruct (ts !! t) as [task|] eqn:E.
  - destruct (decide (t = t')) as [<-|Hne].
    + rewrite list_lookup_insert_eq; [reflexivity|].
      now apply lookup_lt_Some in E.
    + now rewrite list_lookup_insert_ne.
  - destruct (decide (t = t')) as [<-|Hne]; [now rewrite ?E | reflexivity].
Qed.

Lemma setStage_length (t : nat) (st : Stage) (ts : list Task) :
  length (setStage t st ts) = length ts.
Proof.
  unfold setStage. destruct (ts !! t); [apply length_insert | reflexivity].
Qed.

Lemma atStage_setStage f (ts : list Task) (t : nat) (st : Stage) (t' i : nat) :
  atStage f (setStage t st ts) t' i <->
  (t' = t /\ is_Some (ts !! t) /\ f st = Some i) \/
  (t' <> t /\ atStage f ts t' i).
Proof.
  unfold atStage. rewrite setStage_lookup.
  destruct (decide (t = t')) as [<-|Hne].
  - split.
    + intros (task & E & Hf). left.
      destruct (ts !! t) as [old|]; [|discriminate].
      injection E as <-. simpl in Hf. eauto.
    + intros [(_ & [old ->] & Hf) | [Hne _]]; [|congruence].
      eexists. split; [reflexivity | exact Hf].
  - split.
    + intros H. right. split; [congruence | exact H].
    + intros [(-> & _) | [_ H]]; [congruence | exact H].
Qed.

Lemma atStage_app f (ts : list Task) (task : Task) (t i : nat) :
  atStage f (ts ++ [task]) t i <->
  atStage f ts t i \/ (t = length ts /\ f (stage task) = Some i).
Proof.
  unfold atStage. split.
  - intros (task' & E & Hf).
    apply lookup_app_Some in E as [E | [Hge E]]; [eauto|].
    right. destruct (t - length ts)%nat eqn:Ed; [|destruct n; discriminate].
    injection E as <-. split; [lia | exact Hf].
  - intros [(task' & E & Hf) | [-> Hf]].
    + exists task'. split; [|exact Hf]. apply lookup_app_Some. now left.
    + exists task. split; [|exact Hf].
      rewrite lookup_app_r, Nat.sub_diag by lia. reflexivity.
Qed.

Lemma atStage_setStage_same f (ts : list Task) (t : nat) (st : Stage)
    (task : Task) :
  ts !! t = Some task -> f (stage task) = f st ->
  forall t' j, atStage f (setStage t st ts) t' j <-> atStage f ts t' j.
Proof.
  intros E Hf t' j. rewrite atStage_setStage. split.
  - intros [(-> & _ & Hst) | [_ H]]; [|exact H].
    exists task. split; [exact E | congruence].
  - intros (task' & E' & Hf').
    destruct (decide (t' = t)) as [->|Hne].
    + left. split; [reflexivity | split; [eauto | congruence]].
    + right. split; [exact Hne | now exists task'].
Qed.

Lemma atStage_setStage_other f (ts : list Task) (t : nat) (st : Stage)
    (task : Task) (j : nat) :
  ts !! t = Some task -> f (stage task) <> Some j -> f st <> Some j ->
  forall t', atStage f (setStage t st ts) t' j <-> atStage f ts t' j.
Proof.
  intros E Hold Hnew t'. rewrite atStage_setStage. split.
  - intros [(_ & _ & Hst) | [_ H]]; [congruence | exact H].
  - intros (task' & E' & Hf'). right. split; [|now exists task'].
    intros ->. congruence.
Qed.

Lemma held_entryOf (st : Stage) (i : nat) :
  held st = Some i ->
  exists entry, entryOf st = Some entry /\ semaphore entry = i.
Proof.
  destruct st as [p|entry [|]|entry|ok]; simpl; try discriminate;
    intros [= <-]; eauto.
Qed.

Lemma awaited_entryOf (st : Stage) (i : nat) :
  awaited st = Some i ->
  exists entry, entryOf st = Some entry /\ semaphore entry = i.
Proof.
  destruct st as [p|entry [|]|entry|ok]; simpl; try discriminate;
    intros [= <-]; eauto.
Qed.

(** *** The invariant of the gates

    A gate is free (count 1, nobody queued, nobody holding it) or taken
    (count 0, exactly one task holding it); its queue lists, once each,
    the tasks that wait for it. *)
Definition gateOk (ts : list Task) (i : nat) (s : Semaphore) : Prop :=
  NoDup (queue s) /\
  (forall t, t ∈ queue s <-> waits ts t i) /\
  ((count s = 1 /\ queue s = [] /\ forall t, ~ holds ts t i) \/
   (count s = 0 /\
    exists t, holds ts t i /\ forall t', holds ts t' i -> t' = t)).

(** Every entry that can be reached has its semaphore. *)
Definition refsOk (w : World) : Prop :=
  (forall t task entry,
     tasks w !! t = Some task -> entryOf (stage task) = Some entry ->
     (semaphore entry < length (semaphores w))%nat) /\
  (forall c cr entry,
     creations w !! c = Some cr -> settled cr = Fulfilled entry ->
     (semaphore entry < length (semaphores w))%nat) /\
  (forall key entry,
     pool w !! key = Some entry ->
     (semaphore entry < length (semaphores w))%nat).

Definition gatesOk (w : World) : Prop :=
  refsOk w /\
  forall i s, semaphores w !! i = Some s -> gateOk (tasks w) i s.

Lemma gateOk_frame (ts ts' : list Task) (i : nat) (s : Semaphore) :
  (forall t, holds ts' t i <-> holds ts t i) ->
  (forall t, waits ts' t i <-> waits ts t i) ->
  gateOk ts i s -> gateOk ts' i s.
Proof.
  intros Hh Hw (Hnd & Hq & Hc). split; [exact Hnd | split].
  - intros t. now rewrite Hq, Hw.
  - destruct Hc as [(Hc & He & Hno) | (Hc & t & Ht & Hu)]; [left | right].
    + split; [exact Hc | split; [exact He|]]. intros t. now rewrite Hh.
    + split; [exact Hc|]. exists t. split; [now apply Hh|].
      intros t' Ht'. apply Hu. now apply Hh.
Qed.

Lemma gatesOk_empty : gatesOk empty.
Proof.
  split; [repeat split|]; simpl; intros *; try rewrite lookup_nil;
    try rewrite lookup_empty; discriminate.
Qed.

Lemma getEntry_shape (key : string) (w : World) :
  let '(w', p) := getEntry key w in
  pool w' = pool w /\ semaphores w' = semaphores w /\ tasks w' = tasks w /\
  stopped w' = stopped w /\
  (forall entry, p = Existing entry -> pool w !! key = Some entry) /\
  (creations w' = creations w \/
   creations w'
   = creations w ++ [{| ckey := key; settled := InFlight |}]).
Proof.
  unfold getEntry. destruct (pool w !! key) as [existing|] eqn:Ep.
  - repeat split; auto. now intros entry [= ->].
  - destruct (pending w !! key) as [c|]; simpl; repeat split; auto;
      discriminate.
Qed.

Lemma gatesOk_callWithVm (key : string) (w : World) :
  gatesOk w -> gatesOk (callWithVm key w).
Proof.
  intros [(Rt & Rc & Rp) Hg]. unfold callWithVm.
  pose proof (getEntry_shape key w) as H.
  destruct (getEntry key w) as [w' p].
  destruct H as (Ep & Es & Et & _ & Hp & Hc).
  split; [split; [|split] |]; simpl; rewrite ?Es, ?Et, ?Ep.
  - intros t task entry E He.
    apply lookup_app_Some in E as [E | [Hge E]]; [eauto|].
    destruct (t - length (tasks w))%nat; [|destruct n; discriminate].
    injection E as <-. simpl in He.
    destruct p as [existing|c]; [|discriminate]. injection He as ->.
    eapply Rp, Hp. reflexivity.
  - intros c cr entry E He. destruct Hc as [Hc | Hc]; rewrite Hc in E.
    + eauto.
    + apply lookup_app_Some in E as [E | [Hge E]]; [eauto|].
      destruct (c - length (creations w))%nat; [|destruct n; discriminate].
      injection E as <-. discriminate.
  - exact Rp.
  - intros i s E. apply (gateOk_frame (tasks w)); [| |now apply Hg];
      intros t; rewrite atStage_app; simpl; intuition congruence.
Qed.

Lemma gatesOk_createSettles (c : nat) (ok : bool) (w : World) :
  gatesOk w -> gatesOk (createSettles c ok w).
Proof.
  intros [(Rt & Rc & Rp) Hg]. unfold createSettles.
  destruct (creations w !! c) as [[key [| |]]|] eqn:Ec;
    try (split; [repeat split|]; assumption).
  destruct ok; (split; [split; [|split] |]); simpl.
  - intros t task entry E He. rewrite length_app. simpl.
    specialize (Rt _ _ _ E He). lia.
  - intros c' cr entry E He. rewrite length_app. simpl.
    destruct (decide (c = c')) as [<-|Hne].
    + rewrite list_lookup_insert_eq in E by now apply lookup_lt_Some in Ec.
      injection E as <-. simpl in He. injection He as <-. simpl. lia.
    + rewrite list_lookup_insert_ne in E by assumption.
      specialize (Rc _ _ _ E He). lia.
  - intros key' entry E. rewrite length_app. simpl.
    apply lookup_insert_Some in E as [[_ <-] | [_ E]]; simpl; [lia|].
    specialize (Rp _ _ E). lia.
  - intros i s E.
    apply lookup_app_Some in E as [E | [Hge E]]; [now apply Hg|].
    destruct (i - length (semaphores w))%nat eqn:Ei;
      [|destruct n; discriminate].
    injection E as <-.
    assert (Hi : i = length (semaphores w)) by lia.
    assert (Hnone : forall f, (forall st j, f st = Some j ->
              exists entry, entryOf st = Some entry /\ semaphore entry = j) ->
              forall t, ~ atStage f (tasks w) t i).
    { intros f Hf t (task & Et & Hst).
      destruct (Hf _ _ Hst) as (entry & He & Hs).
      specialize (Rt _ _ _ Et He). lia. }
    split; [constructor | split].
    + intros t. simpl. split; [intros []%elem_of_nil|].
      intros H. exfalso. revert H. apply Hnone, awaited_entryOf.
    + left. split; [reflexivity | split; [reflexivity|]].
      apply Hnone, held_entryOf.
  - exact Rt.
  - intros c' cr entry E He.
    destruct (decide (c = c')) as [<-|Hne].
    + rewrite list_lookup_insert_eq in E by now apply lookup_lt_Some in Ec.
      injection E as <-. discriminate.
    + rewrite list_lookup_insert_ne in E by assumption. eauto.
  - exact Rp.
  - exact Hg.
Qed.

Lemma gatesOk_close (w : World) :
  gatesOk w -> (forall key, gatesOk (closeVm key w)) /\ gatesOk (closeAllVms w).
Proof.
  intros [(Rt & Rc & Rp) Hg]. split.
  - intros key. unfold closeVm.
    destruct (pool w !! key); (split; [repeat split|]); simpl; try assumption.
    intros key' entry [_ E]%lookup_delete_Some. eauto.
  - split; [repeat split|]; simpl; try assumption.
    intros key entry. rewrite lookup_empty. discriminate.
Qed.

Lemma refsOk_setStage (w : World) (t : nat) (st : Stage)
    (sems : list Semaphore) :
  refsOk w -> length sems = length (semaphores w) ->
  (forall entry, entryOf st = Some entry ->
     (semaphore entry < length (semaphores w))%nat) ->
  refsOk {| pool := pool w; pending := pending w; creations := creations w;
            semaphores := sems; tasks := setStage t st (tasks w);
            stopped := stopped w; order := order w |}.
Proof.
  intros (Rt & Rc & Rp) Hlen Hst. split; [|split]; simpl; rewrite Hlen.
  - intros t' task entry E He. rewrite setStage_lookup in E.
    destruct (decide (t = t')) as [<-|Hne]; [|eauto].
    destruct (tasks w !! t); [|discriminate].
    injection E as <-. simpl in He. auto.
  - exact Rc.
  - exact Rp.
Qed.

(** A task moves to a stage at which it holds and awaits what it did
    before. *)
Lemma gatesOk_restage (w : World) (t : nat) (st : Stage) (task : Task) :
  gatesOk w -> tasks w !! t = Some task ->
  held (stage task) = held st -> awaited (stage task) = awaited st ->
  (forall entry, entryOf st = Some entry ->
     (semaphore entry < length (semaphores w))%nat) ->
  gatesOk (setTasks (setStage t st (tasks w)) w).
Proof.
  intros [R Hg] Et Hh Hw Hst. split.
  - now apply refsOk_setStage.
  - intros i s E. simpl in E.
    apply (gateOk_frame (tasks w)); [| |now apply Hg]; intros t'; simpl.
    + now apply atStage_setStage_same with task.
    + now apply atStage_setStage_same with task.
Qed.

(** A task that holds nothing and waits for nothing calls [acquire]. *)
Lemma gatesOk_enter (w : World) (t : nat) (entry : VmEntry) (task : Task) :
  gatesOk w -> tasks w !! t = Some task ->
  held (stage task) = None -> awaited (stage task) = None ->
  (semaphore entry < length (semaphores w))%nat ->
  gatesOk (enter t entry w).
Proof.
  intros [R Hg] Et Hh Hw Hlt. unfold enter.
  destruct (semaphores w !! semaphore entry) as [s|] eqn:Es; [|now split].
  destruct (Hg _ _ Es) as (Hnd & Hq & Hc).
  assert (Hother : forall granted j s', j <> semaphore entry ->
            semaphores w !! j = Some s' ->
            gateOk (setStage t (AwaitAcquire entry granted) (tasks w)) j s').
  { intros granted j s' Hj Ej.
    apply (gateOk_frame (tasks w)); [| |now apply Hg]; intros t'.
    - apply atStage_setStage_other with task; [assumption | congruence |].
      destruct granted; simpl; congruence.
    - apply atStage_setStage_other with task; [assumption | congruence |].
      destruct granted; simpl; congruence. }
  unfold acquire. destruct (0 <? count s) eqn:Ecount.
  - (* the gate is free: the task takes it *)
    destruct Hc as [(Hc & Hempty & Hno) | (Hc & _)]; [|lia].
    split; [apply refsOk_setStage; simpl;
            [assumption | apply length_insert | now intros ? [= <-]]|].
    simpl. intros j s' Ej.
    destruct (decide (semaphore entry = j)) as [<-|Hj].
    + rewrite list_lookup_insert_eq in Ej by assumption. injection Ej as <-.
      split; [exact Hnd | split]; simpl.
      * intros t'. rewrite Hq.
        symmetry. now apply atStage_setStage_same with task.
      * right. split; [lia|]. exists t. split.
        -- apply atStage_setStage. left. eauto.
        -- intros t' [(-> & _) | (_ & H)]%atStage_setStage; [reflexivity|].
           now apply Hno in H.
    + rewrite list_lookup_insert_ne in Ej by assumption.
      apply Hother; [congruence | assumption].
  - (* the gate is taken: the task joins the queue *)
    destruct Hc as [(Hc & _) | (Hc & Hholder)]; [lia|].
    assert (Hnot : t ∉ queue s).
    { intros (task' & Et' & Hw')%Hq. congruence. }
    split; [apply refsOk_setStage; simpl;
            [assumption | apply length_insert | now intros ? [= <-]]|].
    simpl. intros j s' Ej.
    destruct (decide (semaphore entry = j)) as [<-|Hj].
    + rewrite list_lookup_insert_eq in Ej by assumption. injection Ej as <-.
      split; [|split]; simpl.
      * apply NoDup_app. split; [exact Hnd | split].
        -- intros t' Hin ->%list_elem_of_singleton. contradiction.
        -- apply NoDup_singleton.
      * intros t'. rewrite elem_of_app, list_elem_of_singleton, Hq,
          atStage_setStage. simpl. split.
        -- intros [H | ->]; [right | left; eauto].
           split; [|exact H]. intros ->. destruct H as (? & ? & ?).
           congruence.
        -- intros [(-> & _) | (_ & H)]; [now right | now left].
      * right. split; [exact Hc|].
        destruct Hholder as (h & Hh' & Hu). exists h. split.
        -- now apply (atStage_setStage_same held (tasks w) t
                        (AwaitAcquire entry false) task).
        -- intros t' Ht'. apply Hu.
           now apply (atStage_setStage_same held (tasks w) t
                        (AwaitAcquire entry false) task) in Ht'.
    + rewrite list_lookup_insert_ne in Ej by assumption.
      apply Hother; [congruence | assumption].
Qed.

Lemma gatesOk_resume (t : nat) (w : World) : gatesOk w -> gatesOk (resume t w).
Proof.
  intros Hok. pose proof Hok as [(Rt & Rc & Rp) Hg]. unfold resume.
  destruct (tasks w !! t) as [[key [[entry|c]|entry [|]|entry|ok]]|] eqn:Et;
    try exact Hok.
  - apply gatesOk_enter
      with {| tkey := key; stage := AwaitEntry (Existing entry) |};
      try easy.
    now apply (Rt _ _ _ Et).
  - destruct (creations w !! c) as [[key' [|entry|]]|] eqn:Ec; simpl;
      try exact Hok.
    + apply gatesOk_enter
        with {| tkey := key; stage := AwaitEntry (Created c) |};
        try easy.
      now apply (Rc _ _ _ Ec).
    + now apply gatesOk_restage
        with {| tkey := key; stage := AwaitEntry (Created c) |}.
  - apply gatesOk_restage
      with {| tkey := key; stage := AwaitAcquire entry true |}; try easy.
    intros e [= <-]. now apply (Rt _ _ _ Et).
Qed.

Lemma waits_inv (ts : list Task) (t i : nat) :
  waits ts t i ->
  exists key entry,
    ts !! t = Some {| tkey := key; stage := AwaitAcquire entry false |} /\
    semaphore entry = i.
Proof.
  intros ([key [p|entry [|]|entry|ok]] & Et & Hw); simpl in Hw;
    try discriminate.
  injection Hw as <-. eauto.
Qed.

(** The [finally] block of a task that is in its callback. *)
Lemma gatesOk_callbackSettles (t : nat) (ok : bool) (w : World) :
  gatesOk w -> gatesOk (callbackSettles t ok w).
Proof.
  intros Hok. pose proof Hok as [R Hg]. unfold callbackSettles.
  destruct (tasks w !! t) as [[key [p|e g|entry|fin]]|] eqn:Et; try exact Hok.
  destruct (semaphores w !! semaphore entry) as [s|] eqn:Es; [|exact Hok].
  pose (task := {| tkey := key; stage := InCallback entry |}).
  set (ts1 := setStage t (Finished ok) (tasks w)).
  destruct (Hg _ _ Es) as (Hnd & Hq & Hc).
  assert (Hholds : holds (tasks w) t (semaphore entry))
    by (exists task; now split).
  destruct Hc as [(_ & _ & Hno) | (Hc & h & _ & Hu)];
    [now apply Hno in Hholds|].
  assert (Hh1 : forall t', ~ holds ts1 t' (semaphore entry)).
  { intros t' [(_ & _ & H) | (Hne & H)]%atStage_setStage; [discriminate|].
    apply Hu in H. apply Hu in Hholds. congruence. }
  assert (Hw1 : forall t' j, waits ts1 t' j <-> waits (tasks w) t' j).
  { intros t' j. now apply atStage_setStage_same with task. }
  assert (Hother1 : forall j t', j <> semaphore entry ->
            holds ts1 t' j <-> holds (tasks w) t' j).
  { intros j t' Hj. apply atStage_setStage_other with task;
      [assumption | simpl; congruence | discriminate]. }
  assert (R1 : refsOk (setTasks ts1 w)).
  { apply refsOk_setStage; [assumption | reflexivity | discriminate]. }
  unfold release. destruct (queue s) as [|next rest] eqn:Equeue.
  - (* nobody waits: the gate is free again *)
    split.
    + destruct R1 as (Rt & Rc & Rp).
      split; [|split]; simpl; rewrite length_insert; assumption.
    + simpl. intros j s' Ej.
      destruct (decide (semaphore entry = j)) as [<-|Hj].
      * rewrite list_lookup_insert_eq in Ej
          by now apply lookup_lt_Some in Es.
        injection Ej as <-. split; [constructor | split]; simpl.
        -- intros t'. now rewrite Hw1, <- Hq.
        -- left. split; [lia | split; [reflexivity | exact Hh1]].
      * rewrite list_lookup_insert_ne in Ej by assumption.
        apply (gateOk_frame (tasks w)); [| |now apply Hg]; intros t'.
        -- apply Hother1. congruence.
        -- apply Hw1.
  - (* the first of the queue is let through *)
    assert (Hnext : waits (tasks w) next (semaphore entry))
      by (apply Hq; now left).
    apply waits_inv in Hnext as (nkey & nentry & En & Hsem).
    assert (Hne : t <> next) by (intros ->; congruence).
    assert (En1 : ts1 !! next
                  = Some {| tkey := nkey; stage := AwaitAcquire nentry false |}).
    { unfold ts1. rewrite setStage_lookup.
      now destruct (decide (t = next)). }
    assert (Egrant : grant next ts1
                     = setStage next (AwaitAcquire nentry true) ts1).
    { unfold grant. now rewrite En1. }
    rewrite Egrant.
    pose (ntask := {| tkey := nkey; stage := AwaitAcquire nentry false |}).
    apply NoDup_cons in Hnd as [Hnotin Hnd].
    split.
    + destruct R as (Rt & _).
      pose proof (Rt _ _ _ En eq_refl) as Hlt.
      pose proof (refsOk_setStage (setTasks ts1 w) next
                    (AwaitAcquire nentry true)
                    (<[semaphore entry :=
                         {| count := count s; queue := rest |}]>
                       (semaphores w))
                    R1) as H.
      apply H; [apply length_insert | now intros ? [= <-]].
    + simpl. intros j s' Ej.
      destruct (decide (semaphore entry = j)) as [<-|Hj].
      * rewrite list_lookup_insert_eq in Ej
          by now apply lookup_lt_Some in Es.
        injection Ej as <-. split; [exact Hnd | split]; simpl.
        -- intros t'. rewrite atStage_setStage, Hw1, <- Hq. simpl. split.
           ++ intros Hin. right. split; [|now right].
              intros ->. contradiction.
           ++ intros [(_ & _ & H) | (Hn & H)]; [discriminate|].
              apply elem_of_cons in H as [-> | H]; [contradiction | exact H].
        -- right. split; [exact Hc|]. exists next. split.
           ++ apply atStage_setStage. left.
              split; [reflexivity | split; [eauto|]]. simpl. congruence.
           ++ intros t' [(-> & _) | (_ & H)]%atStage_setStage;
                [reflexivity | now apply Hh1 in H].
      * rewrite list_lookup_insert_ne in Ej by assumption.
        apply (gateOk_frame (tasks w)); [| |now apply Hg]; intros t'.
        -- rewrite <- (Hother1 j t') by congruence.
           apply atStage_setStage_other with ntask;
             [assumption | discriminate | simpl; congruence].
        -- rewrite <- (Hw1 t' j).
           apply atStage_setStage_other with ntask;
             [assumption | simpl; congruence | discriminate].
Qed.

(** The invariant holds after every event, and so in every state that can
    be reached. *)
Lemma gatesOk_step (w : World) (ev : Event) : gatesOk w -> gatesOk (step w ev).
Proof.
  intros Hok. destruct ev; simpl.
  - now apply gatesOk_callWithVm.
  - now apply gatesOk_createSettles.
  - now apply gatesOk_resume.
  - now apply gatesOk_callbackSettles.
  - now apply gatesOk_close.
  - now apply gatesOk_close.
Qed.

Lemma gatesOk_run (evs : list Event) (w : World) :
  gatesOk w -> gatesOk (run w evs).
Proof.
  revert w. induction evs as [|ev evs IH]; intros w Hok; [exact Hok|].
  apply IH. now apply gatesOk_step.
Qed.

(** *** The invariant of a key, as long as the key is not torn down *)

(** The event takes [key] out of the pool. *)
Definition tearsDown (key : string) (ev : Event) : bool :=
  match ev with
  | CloseVm k => bool_decide (k = key)
  | CloseAllVms => true
  | _ => false
  end.

(** A creation for [key] that is in flight is the one [pending] has for
    it; a creation for [key] that succeeded put into the pool the entry
    the pool still has for it; and what [pending] has for [key] is in
    flight, for that key, and the pool has nothing for the key yet. *)
Definition poolOk (key : string) (w : World) : Prop :=
  (forall c cr,
     creations w !! c = Some cr -> ckey cr = key -> settled cr = InFlight ->
     pending w !! key = Some c) /\
  (forall c cr entry,
     creations w !! c = Some cr -> ckey cr = key ->
     settled cr = Fulfilled entry ->
     pool w !! key = Some entry /\ vm entry = c) /\
  (forall c,
     pending w !! key = Some c ->
     pool w !! key = None /\
     exists cr, creations w !! c = Some cr /\ ckey cr = key /\
                settled cr = InFlight).

(** The entry a task of [key] has in hand is the one the pool has for
    [key], and the creation such a task waits for is one for [key]. *)
Definition tasksOk (key : string) (w : World) : Prop :=
  (forall t task entry,
     tasks w !! t = Some task -> tkey task = key ->
     entryOf (stage task) = Some entry ->
     pool w !! key = Some entry) /\
  (forall t task c,
     tasks w !! t = Some task -> tkey task = key ->
     stage task = AwaitEntry (Created c) ->
     exists cr, creations w !! c = Some cr /\ ckey cr = key).

Definition keyOk (key : string) (w : World) : Prop :=
  poolOk key w /\ tasksOk key w.

Lemma keyOk_empty (key : string) : keyOk key empty.
Proof.
  split; [split; [|split] | split]; simpl; intros *;
    try rewrite lookup_nil; try rewrite lookup_empty; discriminate.
Qed.

Lemma lookup_snoc_Some {A} (l : list A) (x y : A) (n : nat) :
  (l ++ [x]) !! n = Some y ->
  l !! n = Some y \/ (n = length l /\ y = x).
Proof.
  intros [E | [Hge E]]%lookup_app_Some; [now left | right].
  destruct (n - length l)%nat eqn:Ed; [|destruct n0; discriminate].
  injection E as <-. split; [lia | reflexivity].
Qed.

Section Key.

(** The key whose invariant is followed; [key'] is the key of the call or
    of the creation at hand. *)
Variable key : string.

Lemma getEntry_keys (key' : string) (w : World) :
  poolOk key w ->
  let '(w', p) := getEntry key' w in
  poolOk key w' /\ pool w' = pool w /\ tasks w' = tasks w /\
  (forall c cr, creations w !! c = Some cr -> creations w' !! c = Some cr) /\
  (key' = key ->
   match p with
   | Existing entry => pool w !! key = Some entry
   | Created c => exists cr, creations w' !! c = Some cr /\ ckey cr = key
   end).
Proof.
  intros HP. pose proof HP as (J1 & J2 & J3). unfold getEntry.
  destruct (pool w !! key') as [existing|] eqn:Ep.
  { split; [exact HP | repeat split; auto]. now intros <-. }
  destruct (pending w !! key') as [c|] eqn:Epend.
  { split; [exact HP | repeat split; auto]. intros <-.
    destruct (J3 _ Epend) as (_ & cr & Ec & Hk & _). eauto. }
  split; [split; [|split] | repeat split]; simpl.
  - intros c cr [E | [-> ->]]%lookup_snoc_Some Hk Hs.
    + specialize (J1 _ _ E Hk Hs).
      rewrite lookup_insert_ne; [exact J1 | congruence].
    + simpl in Hk. subst key'. apply lookup_insert_eq.
  - intros c cr entry [E | [-> ->]]%lookup_snoc_Some Hk Hs;
      [eauto | discriminate].
  - intros c [[<- <-] | [Hne E]]%lookup_insert_Some.
    + split; [exact Ep|].
      exists {| ckey := key'; settled := InFlight |}.
      split; [|split; reflexivity].
      now rewrite lookup_app_r, Nat.sub_diag.
    + destruct (J3 _ E) as (Hp & cr & Ec & Hk & Hs).
      split; [exact Hp|]. exists cr. split; [|now split].
      apply lookup_app_Some. now left.
  - intros c cr E. apply lookup_app_Some. now left.
  - intros <-. exists {| ckey := key'; settled := InFlight |}.
    split; [|reflexivity]. now rewrite lookup_app_r, Nat.sub_diag.
Qed.

Lemma keyOk_callWithVm (key' : string) (w : World) :
  keyOk key w -> keyOk key (callWithVm key' w).
Proof.
  intros [HP (J4 & J5)]. unfold callWithVm.
  pose proof (getEntry_keys key' w HP) as H.
  destruct (getEntry key' w) as [w' p].
  destruct H as (HP' & Epool & Etasks & Hcr & Hp).
  split; [exact HP'|]. split; simpl; rewrite Etasks, ?Epool.
  - intros t task entry [E | [-> ->]]%lookup_snoc_Some Hk He; [eauto|].
    simpl in *. specialize (Hp Hk).
    destruct p as [existing|c]; [|discriminate].
    now injection He as <-.
  - intros t task c [E | [-> ->]]%lookup_snoc_Some Hk Hs.
    + destruct (J5 _ _ _ E Hk Hs) as (cr & Ec & Hk'). eauto.
    + simpl in *. injection Hs as ->. now apply Hp.
Qed.

Lemma keyOk_createSettles (c : nat) (ok : bool) (w : World) :
  keyOk key w -> keyOk key (createSettles c ok w).
Proof.
  intros Hok. pose proof Hok as [(J1 & J2 & J3) (J4 & J5)].
  unfold createSettles.
  destruct (creations w !! c) as [[key' [| |]]|] eqn:Ec; try exact Hok.
  assert (Hlt : (c < length (creations w))%nat)
    by now apply lookup_lt_Some in Ec.
  (* when the creation is one for [key], it is the pending one and the
     pool has nothing for [key] *)
  assert (Hmine : key' = key ->
            pending w !! key = Some c /\ pool w !! key = None).
  { intros Hk. pose proof (J1 _ _ Ec Hk eq_refl) as Hpend.
    split; [exact Hpend | now apply (J3 _ Hpend)]. }
  assert (Hkeep : forall st c' cr',
            <[c := {| ckey := key'; settled := st |}]> (creations w) !! c'
            = Some cr' ->
            (c' = c /\ cr' = {| ckey := key'; settled := st |}) \/
            (c' <> c /\ creations w !! c' = Some cr')).
  { intros st c' cr' E. destruct (decide (c = c')) as [<-|Hne].
    - rewrite list_lookup_insert_eq in E by assumption.
      injection E as <-. now left.
    - rewrite list_lookup_insert_ne in E by assumption. right.
      split; [congruence | exact E]. }
  assert (Hpending : forall c' cr', c' <> c ->
            creations w !! c' = Some cr' -> ckey cr' = key ->
            settled cr' = InFlight ->
            delete key' (pending w) !! key = Some c').
  { intros c' cr' Hne E Hk Hs. pose proof (J1 _ _ E Hk Hs) as Hp.
    rewrite lookup_delete_ne; [exact Hp|].
    intros Hk'. destruct (Hmine Hk') as [Hp' _]. congruence. }
  assert (Hpool : forall entry new,
            pool w !! key = Some entry ->
            <[key' := new]> (pool w) !! key = Some entry).
  { intros entry new Hp. rewrite lookup_insert_ne; [exact Hp|].
    intros Hk'. destruct (Hmine Hk') as [_ Hp']. congruence. }
  assert (Hcreation : forall st c' cr',
            creations w !! c' = Some cr' -> ckey cr' = key ->
            exists cr'',
              <[c := {| ckey := key'; settled := st |}]> (creations w) !! c'
              = Some cr'' /\ ckey cr'' = key).
  { intros st c' cr' E Hk. destruct (decide (c = c')) as [<-|Hne].
    - rewrite list_lookup_insert_eq by assumption.
      eexists. split; [reflexivity|]. simpl.
      rewrite Ec in E. now injection E as <-.
    - rewrite list_lookup_insert_ne by assumption. eauto. }
  assert (Hpend3 : forall st c',
            delete key' (pending w) !! key = Some c' ->
            key' <> key /\ pool w !! key = None /\
            exists cr,
              <[c := {| ckey := key'; settled := st |}]> (creations w) !! c'
              = Some cr /\ ckey cr = key /\ settled cr = InFlight).
  { intros st c' [Hne E]%lookup_delete_Some.
    destruct (J3 _ E) as (Hp & cr' & Ec' & Hk & Hs).
    split; [exact Hne | split; [exact Hp|]]. exists cr'.
    split; [|now split]. rewrite list_lookup_insert_ne; [exact Ec'|].
    intros <-. rewrite Ec in Ec'. injection Ec' as <-. now simpl in Hk. }
  destruct ok; (split; [split; [|split] | split]); simpl.
  - intros c' cr' [[-> ->] | [Hne E]]%Hkeep Hk Hs; [discriminate | eauto].
  - intros c' cr' entry [[-> ->] | [Hne E]]%Hkeep Hk Hs.
    + simpl in *. injection Hs as <-. subst key'.
      split; [apply lookup_insert_eq | reflexivity].
    + destruct (J2 _ _ _ E Hk Hs) as [Hp Hvm]. split; [|exact Hvm].
      now apply Hpool.
  - intros c' Hc'.
    destruct (Hpend3 (Fulfilled {| vm := c; semaphore := length (semaphores w) |})
                _ Hc') as (Hne & Hp & Hcr).
    split; [now rewrite lookup_insert_ne | exact Hcr].
  - intros t task entry E Hk He. apply Hpool. eauto.
  - intros t task c' E Hk Hs. destruct (J5 _ _ _ E Hk Hs) as (cr' & Ec' & Hk').
    now apply Hcreation with cr'.
  - intros c' cr' [[-> ->] | [Hne E]]%Hkeep Hk Hs; [discriminate | eauto].
  - intros c' cr' entry [[-> ->] | [Hne E]]%Hkeep Hk Hs;
      [discriminate | eauto].
  - intros c' Hc'. destruct (Hpend3 Rejected _ Hc') as (Hne & Hp & Hcr).
    now split.
  - exact J4.
  - intros t task c' E Hk Hs. destruct (J5 _ _ _ E Hk Hs) as (cr' & Ec' & Hk').
    now apply Hcreation with cr'.
Qed.

Lemma poolOk_fields (w w' : World) :
  pool w' = pool w -> pending w' = pending w -> creations w' = creations w ->
  poolOk key w -> poolOk key w'.
Proof. unfold poolOk. now intros -> -> ->. Qed.

Lemma tasksOk_setStage (w w' : World) (t : nat) (st : Stage) (task : Task) :
  pool w' = pool w -> creations w' = creations w ->
  tasks w' = setStage t st (tasks w) ->
  tasksOk key w -> tasks w !! t = Some task ->
  (forall entry, tkey task = key -> entryOf st = Some entry ->
     pool w !! key = Some entry) ->
  (forall c, st <> AwaitEntry (Created c)) ->
  tasksOk key w'.
Proof.
  intros Ep Ec Et (J4 & J5) E He Hc. split; rewrite Et, ?Ep, ?Ec.
  - intros t' task' entry E' Hk He'. rewrite setStage_lookup in E'.
    destruct (decide (t = t')) as [<-|Hne]; [|eauto].
    rewrite E in E'. injection E' as <-. simpl in *. auto.
  - intros t' task' c E' Hk Hs. rewrite setStage_lookup in E'.
    destruct (decide (t = t')) as [<-|Hne]; [|eauto].
    rewrite E in E'. injection E' as <-. simpl in *. now apply Hc in Hs.
Qed.

Lemma keyOk_enter (w : World) (t : nat) (entry : VmEntry) (task : Task) :
  keyOk key w -> tasks w !! t = Some task ->
  (tkey task = key -> pool w !! key = Some entry) ->
  keyOk key (enter t entry w).
Proof.
  intros [HP HT] Et Hp. unfold enter.
  destruct (semaphores w !! semaphore entry) as [s|]; [|now split].
  destruct (acquire t s) as [s' granted]. split.
  - now apply (poolOk_fields w).
  - apply (tasksOk_setStage w _ t (AwaitAcquire entry granted) task);
      try easy.
    intros ? Hk [= <-]. auto.
Qed.

Lemma keyOk_resume (t : nat) (w : World) :
  keyOk key w -> keyOk key (resume t w).
Proof.
  intros Hok. pose proof Hok as [HP HT].
  pose proof HP as (_ & J2 & _). pose proof HT as (J4 & J5).
  unfold resume.
  destruct (tasks w !! t) as [[key' [[entry|c]|entry [|]|entry|ok]]|] eqn:Et;
    try exact Hok.
  - apply keyOk_enter
      with {| tkey := key'; stage := AwaitEntry (Existing entry) |};
      [assumption.. |].
    intros Hk. now apply (J4 _ _ _ Et).
  - destruct (creations w !! c) as [[ckey' [|entry|]]|] eqn:Ec; simpl;
      try exact Hok.
    + apply keyOk_enter
        with {| tkey := key'; stage := AwaitEntry (Created c) |};
        [assumption.. |].
      intros Hk. destruct (J5 _ _ _ Et Hk eq_refl) as (cr & Ec' & Hk').
      rewrite Ec in Ec'. injection Ec' as <-.
      now apply (J2 _ _ _ Ec).
    + split; [now apply (poolOk_fields w)|].
      now apply (tasksOk_setStage w _ t (Finished false)
                   {| tkey := key'; stage := AwaitEntry (Created c) |}).
  - split; [now apply (poolOk_fields w)|].
    apply (tasksOk_setStage w _ t (InCallback entry)
             {| tkey := key'; stage := AwaitAcquire entry true |});
      try easy.
    intros e Hk [= <-]. now apply (J4 _ _ _ Et).
Qed.

Lemma keyOk_callbackSettles (t : nat) (ok : bool) (w : World) :
  keyOk key w -> keyOk key (callbackSettles t ok w).
Proof.
  intros Hok. pose proof Hok as [HP HT]. unfold callbackSettles.
  destruct (tasks w !! t) as [[key' [p|e g|entry|fin]]|] eqn:Et;
    try exact Hok.
  destruct (semaphores w !! semaphore entry) as [s|]; [|exact Hok].
  destruct (release s) as [s' next].
  set (ts1 := setStage t (Finished ok) (tasks w)).
  assert (H1 : tasksOk key (setTasks ts1 w)).
  { now apply (tasksOk_setStage w _ t (Finished ok)
                 {| tkey := key'; stage := InCallback entry |}). }
  split; [now apply (poolOk_fields w)|].
  destruct next as [n|]; [|exact H1].
  unfold grant.
  destruct (ts1 !! n) as [[nkey [p|ne [|]|ne|fin]]|] eqn:En; try exact H1.
  apply (tasksOk_setStage (setTasks ts1 w) _ n (AwaitAcquire ne true)
           {| tkey := nkey; stage := AwaitAcquire ne false |});
    try easy.
  intros e Hk [= <-]. destruct H1 as (J4 & _). now apply (J4 _ _ _ En).
Qed.

(** Another key is taken out of the pool. *)
Lemma keyOk_closeVm (key' : string) (w : World) :
  key' <> key -> keyOk key w -> keyOk key (closeVm key' w).
Proof.
  intros Hne [(J1 & J2 & J3) (J4 & J5)]. unfold closeVm.
  destruct (pool w !! key');
    (split; [split; [|split] | split]); simpl;
    rewrite ?lookup_delete_ne by exact Hne; assumption.
Qed.

Lemma keyOk_run (evs : list Event) (w : World) :
  Forall (fun ev => tearsDown key ev = false) evs ->
  keyOk key w -> keyOk key (run w evs).
Proof.
  intros Hall. revert w.
  induction Hall as [|ev evs Hev _ IH]; intros w Hok; [exact Hok|].
  apply IH. destruct ev; try discriminate; simpl.
  - now apply keyOk_callWithVm.
  - now apply keyOk_createSettles.
  - now apply keyOk_resume.
  - now apply keyOk_callbackSettles.
  - apply keyOk_closeVm; [|exact Hok].
    simpl in Hev. now apply bool_decide_eq_false in Hev.
Qed.

End Key.

(** *** Single flight *)

Lemma getEntries_pending (key : string) (c : nat) (n : nat) (w : World) :
  pool w !! key = None -> pending w !! key = Some c ->
  getEntries key n w = (w, replicate n (Created c)).
Proof.
  intros Hpool Hpend. induction n as [|n IH]; simpl; [reflexivity|].
  unfold getEntry. now rewrite Hpool, Hpend, IH.
Qed.

Lemma getEntries_pool (key : string) (entry : VmEntry) (n : nat) (w : World) :
  pool w !! key = Some entry ->
  getEntries key n w = (w, replicate n (Existing entry)).
Proof.
  intros Hpool. induction n as [|n IH]; simpl; [reflexivity|].
  unfold getEntry. now rewrite Hpool, IH.
Qed.

(** C8: [n + 1] calls of [getEntry] for a key that is neither in the pool
    nor being created call [VM.create] once, and every caller gets the
    promise of that one creation; when it succeeds, the promise gives
    them all the same entry, the pool has it, and every later call gets
    that entry from the pool and calls [VM.create] no more.  And however
    calls of [withVm] and the events that follow them are interleaved, as
    long as the key is not torn down, two creations for it can only both
    exist if one of them failed, and two tasks of that key never have
    different entries in hand. *)
Theorem getEntry_single_flight :
  (forall (w : World) (key : string) (n : nat),
     pool w !! key = None -> pending w !! key = None ->
     let c := length (creations w) in
     let w1 := fst (getEntries key (S n) w) in
     let entry := {| vm := c; semaphore := length (semaphores w) |} in
     let w2 := createSettles c true w1 in
     creations w1 = creations w ++ [{| ckey := key; settled := InFlight |}] /\
     snd (getEntries key (S n) w) = replicate (S n) (Created c) /\
     creations w2
     = creations w ++ [{| ckey := key; settled := Fulfilled entry |}] /\
     pool w2 !! key = Some entry /\
     forall m, getEntries key m w2 = (w2, replicate m (Existing entry))) /\
  (forall (evs : list Event) (key : string) (c1 c2 : nat)
          (cr1 cr2 : Creation),
     Forall (fun ev => tearsDown key ev = false) evs ->
     creations (run empty evs) !! c1 = Some cr1 ->
     creations (run empty evs) !! c2 = Some cr2 ->
     ckey cr1 = key -> ckey cr2 = key ->
     settled cr1 <> Rejected -> settled cr2 <> Rejected ->
     c1 = c2) /\
  (forall (evs : list Event) (key : string) (t1 t2 : nat)
          (task1 task2 : Task) (entry1 entry2 : VmEntry),
     Forall (fun ev => tearsDown key ev = false) evs ->
     tasks (run empty evs) !! t1 = Some task1 ->
     tasks (run empty evs) !! t2 = Some task2 ->
     tkey task1 = key -> tkey task2 = key ->
     entryOf (stage task1) = Some entry1 ->
     entryOf (stage task2) = Some entry2 ->
     entry1 = entry2).
Proof.
  split; [|split].
  - intros w key n Hpool Hpend c w1 entry w2.
    set (w0 := {| pool := pool w;
                  pending := <[key := c]> (pending w);
                  creations :=
                    creations w ++ [{| ckey := key; settled := InFlight |}];
                  semaphores := semaphores w;
                  tasks := tasks w;
                  stopped := stopped w; order := order w |}).
    assert (E1 : getEntries key (S n) w = (w0, replicate (S n) (Created c))).
    { simpl. unfold getEntry at 1. rewrite Hpool, Hpend. fold c. fold w0.
      rewrite (getEntries_pending key c n w0);
        [reflexivity | exact Hpool | apply lookup_insert_eq]. }
    assert (Ec : creations w0 !! c
                 = Some {| ckey := key; settled := InFlight |}).
    { simpl. unfold c. now rewrite lookup_app_r, Nat.sub_diag. }
    subst w1 w2. rewrite E1. simpl fst. simpl snd.
    unfold createSettles. rewrite Ec. simpl.
    split; [reflexivity | split; [reflexivity | split; [|split]]].
    + unfold c. rewrite insert_app_r_alt, Nat.sub_diag by lia. reflexivity.
    + apply lookup_insert_eq.
    + intros m. apply getEntries_pool. simpl. apply lookup_insert_eq.
  - intros evs key c1 c2 cr1 cr2 Hall E1 E2 K1 K2 H1 H2.
    destruct (keyOk_run key evs empty Hall (keyOk_empty key))
      as [(J1 & J2 & J3) _].
    destruct (settled cr1) as [|e1|] eqn:S1; [| |congruence];
      destruct (settled cr2) as [|e2|] eqn:S2; try congruence.
    + pose proof (J1 _ _ E1 K1 S1) as P1. pose proof (J1 _ _ E2 K2 S2) as P2.
      congruence.
    + pose proof (J1 _ _ E1 K1 S1) as P1.
      destruct (J2 _ _ _ E2 K2 S2) as [P2 _].
      destruct (J3 _ P1) as [P3 _]. congruence.
    + pose proof (J1 _ _ E2 K2 S2) as P2.
      destruct (J2 _ _ _ E1 K1 S1) as [P1 _].
      destruct (J3 _ P2) as [P3 _]. congruence.
    + destruct (J2 _ _ _ E1 K1 S1) as [P1 V1].
      destruct (J2 _ _ _ E2 K2 S2) as [P2 V2].
      congruence.
  - intros evs key t1 t2 task1 task2 entry1 entry2 Hall E1 E2 K1 K2 He1 He2.
    destruct (keyOk_run key evs empty Hall (keyOk_empty key))
      as [_ (J4 & _)].
    pose proof (J4 _ _ _ E1 K1 He1) as P1.
    pose proof (J4 _ _ _ E2 K2 He2) as P2.
    congruence.
Qed.

(** *** Mutual exclusion *)

(** Task [t], a call of [withVm] for [key], is inside its callback. *)
Definition inCallback (w : World) (t : nat) (key : string) (entry : VmEntry)
  : Prop :=
  tasks w !! t = Some {| tkey := key; stage := InCallback entry |}.

Lemma inCallback_holds (w : World) (t : nat) (key : string) (entry : VmEntry) :
  inCallback w t key entry -> holds (tasks w) t (semaphore entry).
Proof. intros E. eexists. split; [exact E | reflexivity]. Qed.

Lemma gate_of_holder (w : World) (t i : nat) :
  gatesOk w -> holds (tasks w) t i ->
  exists s, semaphores w !! i = Some s /\ count s = 0 /\
    forall t', holds (tasks w) t' i -> t' = t.
Proof.
  intros [(Rt & _) Hg] Ht. pose proof Ht as (task & Et & Hh).
  destruct (held_entryOf _ _ Hh) as (entry & He & <-).
  destruct (lookup_lt_is_Some_2 (semaphores w) (semaphore entry)) as [s Es];
    [now apply (Rt _ _ _ Et)|].
  exists s. split; [exact Es|].
  destruct (Hg _ _ Es) as (_ & _ & [(_ & _ & Hno) | (Hc & h & _ & Hu)]).
  - now apply Hno in Ht.
  - split; [exact Hc|]. intros t' Ht'.
    rewrite (Hu _ Ht'). symmetry. now apply Hu.
Qed.

(** C9: in every state that calls of [withVm], settlements and teardowns
    can lead to, two tasks that are inside their callbacks do not share a
    gate; as long as their key is not torn down, they do not share the key
    either.
    When the callback of a task settles, by returning or by throwing, the
    task finishes and its gate is free again or, if tasks are queued for
    it, is held by the first of them.  And a task that waits for a gate
    is in the queue of that gate, which some task holds: the release
    above is coming. *)
Theorem withVm_mutual_exclusion :
  (forall (evs : list Event) (t1 t2 : nat) (key1 key2 : string)
          (entry1 entry2 : VmEntry),
     inCallback (run empty evs) t1 key1 entry1 ->
     inCallback (run empty evs) t2 key2 entry2 ->
     semaphore entry1 = semaphore entry2 ->
     t1 = t2) /\
  (forall (evs : list Event) (t1 t2 : nat) (key : string)
          (entry1 entry2 : VmEntry),
     Forall (fun ev => tearsDown key ev = false) evs ->
     inCallback (run empty evs) t1 key entry1 ->
     inCallback (run empty evs) t2 key entry2 ->
     t1 = t2) /\
  (forall (evs : list Event) (t : nat) (key : string) (entry : VmEntry)
          (ok : bool),
     inCallback (run empty evs) t key entry ->
     exists s s',
       semaphores (run empty evs) !! semaphore entry = Some s /\
       semaphores (step (run empty evs) (CallbackSettles t ok))
         !! semaphore entry = Some s' /\
       tasks (step (run empty evs) (CallbackSettles t ok)) !! t
       = Some {| tkey := key; stage := Finished ok |} /\
       match queue s with
       | [] => count s' = 1 /\ queue s' = []
       | next :: rest =>
         count s' = 0 /\ queue s' = rest /\
         holds (tasks (step (run empty evs) (CallbackSettles t ok)))
               next (semaphore entry)
       end) /\
  (forall (evs : list Event) (t i : nat),
     waits (tasks (run empty evs)) t i ->
     exists s h,
       semaphores (run empty evs) !! i = Some s /\
       t ∈ queue s /\ holds (tasks (run empty evs)) h i).
Proof.
  assert (Hinv : forall evs, gatesOk (run empty evs))
    by (intros evs; apply gatesOk_run, gatesOk_empty).
  split; [|split; [|split]].
  - intros evs t1 t2 key1 key2 entry1 entry2 H1 H2 Hs.
    apply inCallback_holds in H1, H2. rewrite <- Hs in H2.
    destruct (gate_of_holder _ _ _ (Hinv evs) H1) as (s & _ & _ & Hu).
    symmetry. now apply Hu.
  - intros evs t1 t2 key entry1 entry2 Hall H1 H2.
    destruct (keyOk_run key evs empty Hall (keyOk_empty key))
      as [_ (J4 & _)].
    pose proof (J4 _ _ _ H1 eq_refl eq_refl) as P1.
    pose proof (J4 _ _ _ H2 eq_refl eq_refl) as P2.
    simpl in P1, P2. rewrite P1 in P2. injection P2 as <-.
    apply inCallback_holds in H1, H2.
    destruct (gate_of_holder _ _ _ (Hinv evs) H1) as (s & _ & _ & Hu).
    symmetry. now apply Hu.
  - intros evs t key entry ok Hin.
    set (w := run empty evs) in *.
    pose proof (Hinv evs) as Hok. fold w in Hok.
    destruct (gate_of_holder _ _ _ Hok (inCallback_holds _ _ _ _ Hin))
      as (s & Es & Hc & _).
    destruct Hok as [_ Hg]. destruct (Hg _ _ Es) as (_ & Hq & _).
    assert (Hlt : (semaphore entry < length (semaphores w))%nat)
      by now apply lookup_lt_Some in Es.
    unfold inCallback in Hin. exists s.
    simpl step. unfold callbackSettles. rewrite Hin, Es. unfold release.
    set (ts1 := setStage t (Finished ok) (tasks w)).
    assert (E1 : ts1 !! t = Some {| tkey := key; stage := Finished ok |}).
    { unfold ts1. rewrite setStage_lookup, Hin.
      now destruct (decide (t = t)). }
    destruct (queue s) as [|next rest] eqn:Equeue.
    + eexists. split; [reflexivity|]. simpl.
      rewrite list_lookup_insert_eq by assumption.
      split; [reflexivity | split; [exact E1|]]. simpl.
      split; [lia | reflexivity].
    + assert (Hnext : waits (tasks w) next (semaphore entry))
        by (apply Hq; now left).
      apply waits_inv in Hnext as (nkey & nentry & En & Hsem).
      assert (Hne : t <> next) by (intros ->; congruence).
      assert (En1 : ts1 !! next
                = Some {| tkey := nkey; stage := AwaitAcquire nentry false |}).
      { unfold ts1. rewrite setStage_lookup.
        now destruct (decide (t = next)). }
      eexists. split; [reflexivity|]. simpl.
      rewrite list_lookup_insert_eq by assumption.
      split; [reflexivity|]. unfold grant. rewrite En1.
      split; [|split; [exact Hc | split; [reflexivity|]]].
      * rewrite setStage_lookup.
        destruct (decide (next = t)); [congruence | exact E1].
      * apply atStage_setStage. left.
        split; [reflexivity | split; [eauto|]]. simpl. congruence.
  - intros evs t i Hw.
    pose proof (Hinv evs) as [(Rt & _) Hg].
    pose proof Hw as (task & Et & Ha).
    destruct (awaited_entryOf _ _ Ha) as (entry & He & <-).
    destruct (lookup_lt_is_Some_2 (semaphores (run empty evs))
                (semaphore entry)) as [s Es];
      [now apply (Rt _ _ _ Et)|].
    destruct (Hg _ _ Es) as (_ & Hq & Hc).
    apply Hq in Hw.
    destruct Hc as [(_ & Hempty & _) | (_ & h & Hh & _)].
    + rewrite Hempty in Hw. now apply elem_of_nil in Hw.
    + now exists s, h.
Qed.

(** Two calls of [withVm] for one key: the machine is created once, the
    first task is in its callback and the second one waits.  Meanwhile a
    machine for another key is created and closed. *)
Definition contended : list Event :=
  [CallWithVm "a"; CallWithVm "a"; CreateSettles 0 true;
   Resume 0; Resume 1; Resume 0;
   CallWithVm "b"; CreateSettles 1 true; CloseVm "b"].

Lemma contended_no_teardown :
  Forall (fun ev => tearsDown "a" ev = false) contended.
Proof. repeat constructor. Qed.

Lemma getEntry_single_flight_witness :
  (pool empty !! "a" = None /\ pending empty !! "a" = None /\
   creations (fst (getEntries "a" 3 empty))
   = [{| ckey := "a"; settled := InFlight |}] /\
   snd (getEntries "a" 3 empty) = [Created 0; Created 0; Created 0] /\
   forall m,
     getEntries "a" m (createSettles 0 true (fst (getEntries "a" 3 empty)))
     = (createSettles 0 true (fst (getEntries "a" 3 empty)),
        replicate m (Existing {| vm := 0; semaphore := 0 |}))) /\
  (tasks (run empty contended) !! 0%nat
   = Some {| tkey := "a";
             stage := InCallback {| vm := 0; semaphore := 0 |} |} /\
   tasks (run empty contended) !! 1%nat
   = Some {| tkey := "a";
             stage := AwaitAcquire {| vm := 0; semaphore := 0 |} false |} /\
   {| vm := 0; semaphore := 0 |} = {| vm := 0; semaphore := 0 |}).
Proof.
  assert (H1 : pool empty !! "a" = None) by apply lookup_empty.
  assert (H2 : pending empty !! "a" = None) by apply lookup_empty.
  assert (T0 : tasks (run empty contended) !! 0%nat
               = Some {| tkey := "a";
                         stage := InCallback {| vm := 0; semaphore := 0 |} |})
    by (vm_compute; reflexivity).
  assert (T1 : tasks (run empty contended) !! 1%nat
               = Some {| tkey := "a";
                         stage := AwaitAcquire {| vm := 0; semaphore := 0 |}
                                               false |})
    by (vm_compute; reflexivity).
  destruct getEntry_single_flight as (Hcalls & _ & Hsame).
  split.
  - split; [exact H1 | split; [exact H2|]].
    destruct (Hcalls empty "a" 2%nat H1 H2) as (Hc & Hp & _ & _ & Hm).
    split; [exact Hc | split; [exact Hp | exact Hm]].
  - split; [exact T0 | split; [exact T1|]].
    exact (Hsame contended "a" 0%nat 1%nat _ _ _ _ contended_no_teardown
             T0 T1 eq_refl eq_refl eq_refl eq_refl).
Defined.

Lemma withVm_mutual_exclusion_witness :
  inCallback (run empty contended) 0 "a" {| vm := 0; semaphore := 0 |} /\
  0%nat = 0%nat /\
  waits (tasks (run empty contended)) 1 0 /\
  (exists s h,
     semaphores (run empty contended) !! 0%nat = Some s /\
     1%nat ∈ queue s /\ holds (tasks (run empty contended)) h 0) /\
  (exists s s',
     semaphores (run empty contended) !! 0%nat = Some s /\
     semaphores (step (run empty contended) (CallbackSettles 0 false))
       !! 0%nat = Some s' /\
     tasks (step (run empty contended) (CallbackSettles 0 false)) !! 0%nat
     = Some {| tkey := "a"; stage := Finished false |} /\
     match queue s with
     | [] => count s' = 1 /\ queue s' = []
     | next :: rest =>
       count s' = 0 /\ queue s' = rest /\
       holds (tasks (step (run empty contended) (CallbackSettles 0 false)))
             next 0
     end).
Proof.
  assert (Hin : inCallback (run empty contended) 0 "a"
                  {| vm := 0; semaphore := 0 |})
    by (vm_compute; reflexivity).
  assert (Hw : waits (tasks (run empty contended)) 1 0).
  { exists {| tkey := "a";
              stage := AwaitAcquire {| vm := 0; semaphore := 0 |} false |}.
    split; vm_compute; reflexivity. }
  destruct withVm_mutual_exclusion as (_ & Hkey & Hrelease & Hwait).
  split; [exact Hin | split; [|split; [exact Hw | split]]].
  - exact (Hkey contended 0%nat 0%nat "a" _ _ contended_no_teardown Hin Hin).
  - exact (Hwait contended 1%nat 0%nat Hw).
  - exact (Hrelease contended 0%nat "a" {| vm := 0; semaphore := 0 |}
             false Hin).
Defined.

(** A call of [withVm] for a key is inside its callback when the key is
    closed; the next call for the key makes a new machine with a new gate
    and goes into its callback as well. *)
Definition reopened : list Event :=
  [CallWithVm "a"; CreateSettles 0 true; Resume 0; Resume 0;
   CloseVm "a";
   CallWithVm "a"; CreateSettles 1 true; Resume 1; Resume 1].

(** C9, the failure: after [closeVm(key)] two callbacks for the key run
    at the same time:
    the first on the machine that was told to stop, the second on the
    new one.  So exclusion does not hold for every key in every
    history. *)
Lemma withVm_overlap_after_closeVm :
  inCallback (run empty reopened) 0 "a" {| vm := 0; semaphore := 0 |} /\
  inCallback (run empty reopened) 1 "a" {| vm := 1; semaphore := 1 |} /\
  stopped (run empty reopened) = [0%nat] /\
  ~ (forall (evs : list Event) (t1 t2 : nat) (key : string)
            (entry1 entry2 : VmEntry),
       inCallback (run empty evs) t1 key entry1 ->
       inCallback (run empty evs) t2 key entry2 ->
       t1 = t2).
Proof.
  assert (H0 : inCallback (run empty reopened) 0 "a"
                 {| vm := 0; semaphore := 0 |})
    by (vm_compute; reflexivity).
  assert (H1 : inCallback (run empty reopened) 1 "a"
                 {| vm := 1; semaphore := 1 |})
    by (vm_compute; reflexivity).
  split; [exact H0 | split; [exact H1 | split; [vm_compute; reflexivity|]]].
  intros H. specialize (H reopened 0%nat 1%nat "a" _ _ H0 H1). discriminate.
Qed.

(** *** The state of a gate *)

(** X13: in every state that calls of [withVm], settlements and
    teardowns can lead to, the count of a semaphore is 1 or 0.  When it
    is 1 no task holds the gate and no task is queued for it; when it is
    0 exactly one task holds it.  The queue lists, once each, the tasks
    that wait for the gate. *)
Theorem gate_is_free_or_held (evs : list Event) (i : nat) (s : Semaphore) :
  semaphores (run empty evs) !! i = Some s ->
  ((count s = 1 /\ queue s = [] /\
    forall t, ~ holds (tasks (run empty evs)) t i) \/
   (count s = 0 /\
    exists t, holds (tasks (run empty evs)) t i /\
      forall t', holds (tasks (run empty evs)) t' i -> t' = t)) /\
  NoDup (queue s) /\
  (forall t, t ∈ queue s <-> waits (tasks (run empty evs)) t i).
Proof.
  intros Es.
  destruct (gatesOk_run evs empty gatesOk_empty) as [_ Hg].
  destruct (Hg i s Es) as (Hnd & Hq & Hc).
  split; [exact Hc | split; [exact Hnd | exact Hq]].
Qed.

(** *** Teardown *)



















(** X15: [closeVm] does not wait for anyone.  A task that is inside its
    callback when the key is closed stays inside it, on a [VM] that has
    been told to stop.  And a creation that is under way when the key is
    closed is not undone: when it succeeds its entry goes into the pool
    all the same, and its [VM] has not been told to stop. *)
Theorem closeVm_does_not_wait :
  (forall (w : World) (t : nat) (key : string) (entry : VmEntry),
     inCallback w t key entry -> pool w !! key = Some entry ->
     inCallback (closeVm key w) t key entry /\
     vm entry ∈ stopped (closeVm key w) /\
     pool (closeVm key w) !! key = None) /\
  (forall (w : World) (key : string) (c : nat),
     pool w !! key = None ->
     creations w !! c = Some {| ckey := key; settled := InFlight |} ->
     pool (createSettles c true (closeVm key w)) !! key
     = Some {| vm := c; semaphore := length (semaphores w) |} /\
     stopped (createSettles c true (closeVm key w)) = stopped w).
Proof.
  split.
  - intros w t key entry Hin Hp. unfold closeVm. rewrite Hp.
    split; [exact Hin | split; simpl].
    + apply elem_of_app. right. apply list_elem_of_here.
    + apply lookup_delete_eq.
  - intros w key c Hp Hc. unfold closeVm. rewrite Hp.
    unfold createSettles. simpl. rewrite Hc. simpl.
    split; [apply lookup_insert_eq | reflexivity].
Qed.

(** X16: a failure of [VM.create] is not kept: as long as the key has not
    been torn down, when the creation for it fails the key is neither in
    the pool nor being created, and the next [getEntry] for it calls
    [VM.create] again. *)
Theorem failed_creation_is_retried (evs : list Event) (key : string)
    (c : nat) :
  Forall (fun ev => tearsDown key ev = false) evs ->
  creations (run empty evs) !! c
  = Some {| ckey := key; settled := InFlight |} ->
  let w := createSettles c false (run empty evs) in
  pool w !! key = None /\ pending w !! key = None /\
  snd (getEntry key w) = Created (length (creations w)) /\
  creations (fst (getEntry key w))
  = creations w ++ [{| ckey := key; settled := InFlight |}].
Proof.
  intros Hall Ec w.
  destruct (keyOk_run key evs empty Hall (keyOk_empty key))
    as [(J1 & _ & J3) _].
  pose proof (J1 _ _ Ec eq_refl eq_refl) as Hpend.
  destruct (J3 _ Hpend) as [Hpool _].
  assert (E1 : pool w !! key = None).
  { unfold w, createSettles. rewrite Ec. exact Hpool. }
  assert (E2 : pending w !! key = None).
  { unfold w, createSettles. rewrite Ec. simpl. apply lookup_delete_eq. }
  split; [exact E1 | split; [exact E2|]].
  unfold getEntry. rewrite E1, E2. split; reflexivity.
Qed.

(** *** The order of the queue *)

(** The task is past the queue of its gate: it has been let through and
    has not yet gone into its callback, or it is inside its callback, or
    it has finished. *)
Definition passed (st : Stage) : bool :=
  match st with
  | AwaitAcquire _ true | InCallback _ | Finished _ => true
  | _ => false
  end.

Definition granted (ts : list Task) (t : nat) : Prop :=
  exists task, ts !! t = Some task /\ passed (stage task) = true.

(** [t1] and [t2] are in the queue of gate [i], [t1] in front of [t2]. *)
Definition queuedBefore (w : World) (i t1 t2 : nat) : Prop :=
  exists s q1 q2 q3,
    semaphores w !! i = Some s /\ queue s = q1 ++ t1 :: q2 ++ t2 :: q3.

Lemma granted_setStage (ts : list Task) (t0 : nat) (st : Stage) (t : nat) :
  (forall task0, ts !! t0 = Some task0 -> passed (stage task0) = true ->
     passed st = true) ->
  granted ts t -> granted (setStage t0 st ts) t.
Proof.
  intros H (task & E & Hp). unfold granted. rewrite setStage_lookup.
  destruct (decide (t0 = t)) as [->|Hne]; [|now exists task].
  rewrite E. eexists. split; [reflexivity|]. simpl. eauto.
Qed.

Lemma createSettles_tasks (c : nat) (ok : bool) (w : World) :
  tasks (createSettles c ok w) = tasks w.
Proof.
  unfold createSettles.
  destruct (creations w !! c) as [[key [| |]]|]; try reflexivity.
  now destruct ok.
Qed.

Lemma granted_enter (t0 : nat) (entry : VmEntry) (w : World) (t : nat)
    (task0 : Task) :
  tasks w !! t0 = Some task0 -> passed (stage task0) = false ->
  granted (tasks w) t -> granted (tasks (enter t0 entry w)) t.
Proof.
  intros E0 Hp H. unfold enter.
  destruct (semaphores w !! semaphore entry) as [s|]; [|exact H].
  destruct (acquire t0 s) as [s' g]. simpl.
  apply granted_setStage; [|exact H]. intros task E. congruence.
Qed.

Lemma granted_step (w : World) (ev : Event) (t : nat) :
  granted (tasks w) t -> granted (tasks (step w ev)) t.
Proof.
  intros H. destruct ev as [key|c ok|t0|t0 ok|key|]; simpl.
  - unfold callWithVm. pose proof (getEntry_shape key w) as Hs.
    destruct (getEntry key w) as [w' p]. destruct Hs as (_ & _ & Et & _).
    simpl. rewrite Et. destruct H as (task & E & Hp).
    exists task. split; [now apply lookup_app_l_Some | exact Hp].
  - now rewrite createSettles_tasks.
  - unfold resume.
    destruct (tasks w !! t0) as [[key [[entry|c]|entry [|]|entry|ok]]|] eqn:E0;
      try exact H.
    + now apply (granted_enter t0 entry w t _ E0).
    + destruct (settled <$> creations w !! c) as [[|entry|]|]; try exact H.
      * now apply (granted_enter t0 entry w t _ E0).
      * simpl. now apply granted_setStage.
    + simpl. now apply granted_setStage.
  - unfold callbackSettles.
    destruct (tasks w !! t0) as [[key [p|e g|entry|fin]]|]; try exact H.
    destruct (semaphores w !! semaphore entry) as [s|]; [|exact H].
    destruct (release s) as [s' next]. simpl.
    assert (H1 : granted (setStage t0 (Finished ok) (tasks w)) t)
      by now apply granted_setStage.
    destruct next as [n|]; [|exact H1]. unfold grant.
    destruct (setStage t0 (Finished ok) (tasks w) !! n)
      as [[k [p|e [|]|e|fin]]|]; try exact H1.
    now apply granted_setStage.
  - unfold closeVm. now destruct (pool w !! key).
  - exact H.
Qed.

Lemma queuedBefore_grow (w w' : World) (i t1 t2 : nat) :
  (forall s, semaphores w !! i = Some s ->
     exists s' more,
       semaphores w' !! i = Some s' /\ queue s' = queue s ++ more) ->
  queuedBefore w i t1 t2 -> queuedBefore w' i t1 t2.
Proof.
  intros H (s & q1 & q2 & q3 & Es & Eq).
  destruct (H s Es) as (s' & more & Es' & Em).
  exists s', q1, q2, (q3 ++ more). split; [exact Es'|].
  rewrite Em, Eq, <- app_assoc. simpl. now rewrite <- app_assoc.
Qed.

Lemma enter_queue (t : nat) (entry : VmEntry) (w : World) (i : nat)
    (s : Semaphore) :
  semaphores w !! i = Some s ->
  exists s' more,
    semaphores (enter t entry w) !! i = Some s' /\
    queue s' = queue s ++ more.
Proof.
  intros Es. unfold enter.
  destruct (semaphores w !! semaphore entry) as [s0|] eqn:E0;
    [|exists s, []; now rewrite app_nil_r].
  destruct (acquire t s0) as [s1 g] eqn:Ea. simpl.
  destruct (decide (semaphore entry = i)) as [Hi|Hne].
  - rewrite Hi in *. rewrite Es in E0. injection E0 as <-.
    rewrite list_lookup_insert_eq by now apply lookup_lt_Some in Es.
    unfold acquire in Ea. destruct (0 <? count s); injection Ea as <- _.
    + exists {| count := count s - 1; queue := queue s |}, [].
      now rewrite app_nil_r.
    + now exists {| count := count s; queue := queue s ++ [t] |}, [t].
  - rewrite list_lookup_insert_ne by exact Hne.
    exists s, []. now rewrite app_nil_r.
Qed.

Lemma queuedBefore_step (w : World) (ev : Event) (i t1 t2 : nat) :
  gatesOk w -> queuedBefore w i t1 t2 ->
  granted (tasks (step w ev)) t1 \/ queuedBefore (step w ev) i t1 t2.
Proof.
  intros Hok H.
  assert (Hsame : forall w', semaphores w' = semaphores w ->
            queuedBefore w' i t1 t2).
  { intros w' E. destruct H as (s & q1 & q2 & q3 & Es & Eq).
    exists s, q1, q2, q3. now rewrite E. }
  destruct ev as [key|c ok|t|t ok|key|]; simpl.
  - right. apply Hsame. unfold callWithVm.
    pose proof (getEntry_shape key w) as Hs.
    destruct (getEntry key w) as [w' p]. now destruct Hs as (_ & Ee & _).
  - right. apply (queuedBefore_grow w); [|exact H]. intros s Es.
    unfold createSettles.
    destruct (creations w !! c) as [[key [| |]]|];
      try (exists s, []; now rewrite app_nil_r).
    destruct ok; simpl; exists s, []; rewrite app_nil_r;
      (split; [|reflexivity]); [now apply lookup_app_l_Some | exact Es].
  - right. apply (queuedBefore_grow w); [|exact H]. intros s Es.
    unfold resume.
    destruct (tasks w !! t) as [[key [[entry|c]|entry [|]|entry|ok]]|];
      try (exists s, []; now rewrite app_nil_r).
    + now apply enter_queue.
    + destruct (settled <$> creations w !! c) as [[|entry|]|];
        try (exists s, []; now rewrite app_nil_r).
      now apply enter_queue.
  - unfold callbackSettles.
    destruct (tasks w !! t) as [[key [p|e g|entry|fin]]|] eqn:Et;
      try (right; exact H).
    destruct (semaphores w !! semaphore entry) as [s0|] eqn:E0;
      [|right; exact H].
    destruct H as (s & q1 & q2 & q3 & Es & Eq).
    destruct (decide (semaphore entry = i)) as [Hi|Hne].
    + rewrite Hi in *. rewrite Es in E0. injection E0 as <-.
      assert (Hlt : (i < length (semaphores w))%nat)
        by now apply lookup_lt_Some in Es.
      unfold release. rewrite Eq. destruct q1 as [|x q1]; simpl.
      * left. destruct Hok as [_ Hg]. destruct (Hg i s Es) as (_ & Hq & _).
        assert (Hw : waits (tasks w) t1 i).
        { apply Hq. rewrite Eq. apply list_elem_of_here. }
        apply waits_inv in Hw as (k1 & e1 & E1 & _).
        assert (Hne : t <> t1) by (intros ->; congruence).
        assert (E1' : setStage t (Finished ok) (tasks w) !! t1
                      = Some {| tkey := k1; stage := AwaitAcquire e1 false |}).
        { rewrite setStage_lookup. now destruct (decide (t = t1)). }
        unfold grant. rewrite E1'.
        exists {| tkey := k1; stage := AwaitAcquire e1 true |}.
        split; [|reflexivity].
        rewrite setStage_lookup, E1'.
        destruct (decide (t1 = t1)); [reflexivity | congruence].
      * right.
        exists {| count := count s; queue := q1 ++ t1 :: q2 ++ t2 :: q3 |},
               q1, q2, q3.
        split; [|reflexivity]. now apply list_lookup_insert_eq.
    + right. exists s, q1, q2, q3. split; [|exact Eq].
      destruct (release s0) as [s' next]. simpl.
      now rewrite list_lookup_insert_ne.
  - right. apply Hsame. unfold closeVm. now destruct (pool w !! key).
  - right. now apply Hsame.
Qed.

Lemma queue_order_run (evs : list Event) (i t1 t2 : nat) :
  forall w : World,
  gatesOk w -> granted (tasks w) t1 \/ queuedBefore w i t1 t2 ->
  granted (tasks (run w evs)) t2 -> granted (tasks (run w evs)) t1.
Proof.
  induction evs as [|ev evs IH]; intros w Hok H.
  - destruct H as [H | (s & q1 & q2 & q3 & Es & Eq)]; [now intros _|].
    intros (task & E & Hp). exfalso.
    destruct Hok as [_ Hg]. destruct (Hg i s Es) as (_ & Hq & _).
    assert (Hw : waits (tasks w) t2 i).
    { apply Hq. rewrite Eq. apply elem_of_app. right.
      apply list_elem_of_further, elem_of_app. right. apply list_elem_of_here. }
    apply waits_inv in Hw as (k2 & e2 & E2 & _). simpl in E.
    rewrite E2 in E. injection E as <-. discriminate.
  - change (run w (ev :: evs)) with (run (step w ev) evs).
    apply IH; [now apply gatesOk_step|].
    destruct H as [H | H]; [left; now apply granted_step|].
    now apply queuedBefore_step.
Qed.

(** X17: the gate is handed over in the order of arrival.  If at some
    moment [t1] stands in the queue of a gate in front of [t2], then at
    every later moment at which [t2] is past the queue (it holds the gate,
    or has released it), [t1] is past it too. *)
Theorem gate_is_granted_in_order (evs later : list Event) (i t1 t2 : nat)
    (s : Semaphore) (q1 q2 q3 : list nat) :
  semaphores (run empty evs) !! i = Some s ->
  queue s = q1 ++ t1 :: q2 ++ t2 :: q3 ->
  granted (tasks (run (run empty evs) later)) t2 ->
  granted (tasks (run (run empty evs) later)) t1.
Proof.
  intros Es Eq. apply (queue_order_run later i t1 t2).
  - apply gatesOk_run, gatesOk_empty.
  - right. now exists s, q1, q2, q3.
Qed.

(** *** Examples *)

(** Three calls for one key: the first holds the gate, the other two are
    queued behind it in the order in which they came. *)
Definition crowd : list Event :=
  [CallWithVm "a"; CallWithVm "a"; CallWithVm "a"; CreateSettles 0 true;
   Resume 0; Resume 1; Resume 2].

Lemma gate_is_free_or_held_witness :
  semaphores (run empty crowd) !! 0%nat
  = Some {| count := 0; queue := [1%nat; 2%nat] |} /\
  NoDup [1%nat; 2%nat] /\
  (forall t, t ∈ [1%nat; 2%nat] <-> waits (tasks (run empty crowd)) t 0).
Proof.
  assert (Es : semaphores (run empty crowd) !! 0%nat
               = Some {| count := 0; queue := [1%nat; 2%nat] |})
    by (vm_compute; reflexivity).
  split; [exact Es|].
  exact (proj2 (gate_is_free_or_held crowd 0 _ Es)).
Defined.

Lemma closeVm_does_not_wait_witness :
  (inCallback (run empty contended) 0 "a" {| vm := 0; semaphore := 0 |} /\
   pool (run empty contended) !! "a" = Some {| vm := 0; semaphore := 0 |} /\
   inCallback (closeVm "a" (run empty contended)) 0 "a"
              {| vm := 0; semaphore := 0 |} /\
   0%nat ∈ stopped (closeVm "a" (run empty contended))) /\
  (pool (run empty [CallWithVm "a"]) !! "a" = None /\
   creations (run empty [CallWithVm "a"]) !! 0%nat
   = Some {| ckey := "a"; settled := InFlight |} /\
   pool (createSettles 0 true (closeVm "a" (run empty [CallWithVm "a"])))
     !! "a"
   = Some {| vm := 0; semaphore := 0 |}).
Proof.
  assert (Hin : inCallback (run empty contended) 0 "a"
                  {| vm := 0; semaphore := 0 |})
    by (vm_compute; reflexivity).
  assert (Hp : pool (run empty contended) !! "a"
               = Some {| vm := 0; semaphore := 0 |})
    by (vm_compute; reflexivity).
  assert (Hn : pool (run empty [CallWithVm "a"]) !! "a" = None)
    by (vm_compute; reflexivity).
  assert (Hc : creations (run empty [CallWithVm "a"]) !! 0%nat
               = Some {| ckey := "a"; settled := InFlight |})
    by (vm_compute; reflexivity).
  destruct closeVm_does_not_wait as [Hrun Hcreate].
  split.
  - destruct (Hrun _ _ _ _ Hin Hp) as (H1 & H2 & _).
    split; [exact Hin | split; [exact Hp | split; [exact H1 | exact H2]]].
  - split; [exact Hn | split; [exact Hc|]].
    exact (proj1 (Hcreate _ _ _ Hn Hc)).
Defined.

Lemma failed_creation_is_retried_witness :
  Forall (fun ev => tearsDown "a" ev = false) [CallWithVm "a"] /\
  creations (run empty [CallWithVm "a"]) !! 0%nat
  = Some {| ckey := "a"; settled := InFlight |} /\
  snd (getEntry "a" (createSettles 0 false (run empty [CallWithVm "a"])))
  = Created
      (length (creations (createSettles 0 false
                            (run empty [CallWithVm "a"])))).
Proof.
  assert (Hall : Forall (fun ev => tearsDown "a" ev = false) [CallWithVm "a"])
    by (repeat constructor).
  assert (Hc : creations (run empty [CallWithVm "a"]) !! 0%nat
               = Some {| ckey := "a"; settled := InFlight |})
    by (vm_compute; reflexivity).
  split; [exact Hall | split; [exact Hc|]].
  exact (proj1 (proj2 (proj2
           (failed_creation_is_retried [CallWithVm "a"] "a" 0 Hall Hc)))).
Defined.

Lemma gate_is_granted_in_order_witness :
  semaphores (run empty crowd) !! 0%nat
  = Some {| count := 0; queue := [1%nat; 2%nat] |} /\
  granted (tasks (run (run empty crowd)
                      [Resume 0; CallbackSettles 0 true; Resume 1;
                       CallbackSettles 1 false]))
          2 /\
  granted (tasks (run (run empty crowd)
                      [Resume 0; CallbackSettles 0 true; Resume 1;
                       CallbackSettles 1 false]))
          1.
Proof.
  assert (Es : semaphores (run empty crowd) !! 0%nat
               = Some {| count := 0; queue := [1%nat; 2%nat] |})
    by (vm_compute; reflexivity).
  assert (H2 : granted (tasks (run (run empty crowd)
                                   [Resume 0; CallbackSettles 0 true;
                                    Resume 1; CallbackSettles 1 false]))
                       2).
  { exists {| tkey := "a";
              stage := AwaitAcquire {| vm := 0; semaphore := 0 |} true |}.
    split; vm_compute; reflexivity. }
  split; [exact Es | split; [exact H2|]].
  exact (gate_is_granted_in_order crowd _ 0 1 2 _ [] [] [] Es eq_refl H2).
Defined.

(** *** [hasHardwareAccel] and [shouldSkipVmTests]

    What the two functions read: [process.platform], the environment
    variable, and whether [fs.accessSync] returns or throws for a path
    and a mode. *)
Record Host := {
  platform : string;
  GONDOLIN_FORCE_VM_TESTS : option string;
  accessSync : string -> Z -> bool
}.

(** [fs.constants.R_OK | fs.constants.W_OK] *)
Definition R_OK_or_W_OK : Z := Z.lor 4 2.

(** The result, and the paths given to [fs.accessSync] on the way. *)
Definition hasHardwareAccel (h : Host) : bool * list string :=
  if String.eqb (platform h) "darwin" then (true, [])
  else if String.eqb (platform h) "linux" then
    (if accessSync h "/dev/kvm" R_OK_or_W_OK then true else false,
     ["/dev/kvm"])
  else (false, []).

Definition shouldSkipVmTests (h : Host) : bool * list string :=
  match GONDOLIN_FORCE_VM_TESTS h with
  | Some "1" => (false, [])
  | _ =>
    let '(accel, probed) := hasHardwareAccel h in
    (negb accel, probed)
  end.

(** X19: the tests that need a virtual machine run exactly when they are
    forced by [GONDOLIN_FORCE_VM_TESTS=1], or the platform is macOS, or
    the platform is Linux and [/dev/kvm] can be read and written; any
    other value of the variable forces nothing.  The file system is looked
    at only on Linux and only when the tests are not forced, and then only
    once, for [/dev/kvm]. *)
Theorem vm_tests_run_iff (h : Host) :
  (fst (shouldSkipVmTests h) = false <->
   GONDOLIN_FORCE_VM_TESTS h = Some "1" \/ platform h = "darwin" \/
   (platform h = "linux" /\ accessSync h "/dev/kvm" 6 = true)) /\
  snd (shouldSkipVmTests h)
  = (if bool_decide (GONDOLIN_FORCE_VM_TESTS h <> Some "1"
                     /\ platform h = "linux")
     then ["/dev/kvm"] else []).
Proof.
  unfold shouldSkipVmTests, hasHardwareAccel.
  change R_OK_or_W_OK with 6.
  destruct (decide (GONDOLIN_FORCE_VM_TESTS h = Some "1")) as [->|Hf].
  - split; [split; [now left | reflexivity]|].
    now rewrite bool_decide_eq_false_2 by (intros [H _]; congruence).
  - assert (E : match GONDOLIN_FORCE_VM_TESTS h with
                | Some "1" => (false, [])
                | _ =>
                  let '(accel, probed) :=
                    if String.eqb (platform h) "darwin" then (true, [])
                    else if String.eqb (platform h) "linux"
                         then (if accessSync h "/dev/kvm" 6 then true
                               else false, ["/dev/kvm"])
                         else (false, []) in
                  (negb accel, probed)
                end
                = (let '(accel, probed) :=
                     if String.eqb (platform h) "darwin" then (true, [])
                     else if String.eqb (platform h) "linux"
                          then (if accessSync h "/dev/kvm" 6 then true
                                else false, ["/dev/kvm"])
                          else (false, []) in
                   (negb accel, probed))).
    { destruct (GONDOLIN_FORCE_VM_TESTS h) as [v|]; [|reflexivity].
      repeat (destruct v as [|[[] [] [] [] [] [] [] []] v];
              try reflexivity); congruence. }
    rewrite E. clear E.
    destruct (String.eqb_spec (platform h) "darwin") as [Ed|Hd].
    + split; [split; [now right; left | reflexivity]|].
      rewrite bool_decide_eq_false_2; [reflexivity|].
      intros [_ El]. rewrite Ed in El. discriminate.
    + destruct (String.eqb_spec (platform h) "linux") as [El|Hl].
      * split.
        -- destruct (accessSync h "/dev/kvm" 6); simpl; split;
             try discriminate; try tauto.
           intros [?|[?|[_ ?]]]; congruence.
        -- now rewrite bool_decide_eq_true_2.
      * split; [split; [discriminate | tauto]|].
        rewrite bool_decide_eq_false_2 by tauto. reflexivity.
Qed.

End VmFixture.
